(** * The block request manager of the sync subsystem (package netsync)

    A shallow embedding of the request manager in
    [cmd/banjo/cmd/tx/release_fund.go] (the part after the document
    separator, package [netsync]) together with the properties its
    specification states about it.

    Conventions of the embedding.
    - A [*PendingBlock] is a location into a store of cells ([mem]); the
      insertion-ordered list, the by-hash map and the header heap all hold
      locations, so a write through one of them is seen through the others,
      as with the Go pointers.  A [*list.Element] and the [*PendingBlock] it
      carries are allocated together and are the same location here.
    - The peers of a pending block are the list of the elements of its
      slice.  That Go slices can share an array is modelled apart, in the
      part on peer slices: the lists are exact as long as no slice given to
      [AddHash] shares an array with a slice the manager holds.
    - Wall-clock time is an integer number of nanoseconds; an operation reads
      the clock once and receives that reading as its argument [now].
    - The collaborators (dispatcher, sync manager, chain store) are the
      logs of the calls made on them and the chain store's content.
    - Log lines are not modelled.
    - A Go run-time panic is the outcome [Panic]; loops whose bound is not
      structural take fuel and answer [Fuel] when it runs out.  The fuel the
      manager's own loops are given is proved to be enough; only the resume
      path, whose length is up to the chain store, keeps its fuel as an
      argument. *)

From stdpp Require Import gmap strings list fin_maps sorting.
From Stdlib Require Import ZArith Lia.

Local Open Scope Z_scope.

(** ** Outcomes *)

Inductive res (A : Type) : Type :=
  | Ok (a : A)
  | Panic
  | Fuel.
Arguments Ok {A} a.
Arguments Panic {A}.
Arguments Fuel {A}.

Definition res_bind {A B : Type} (m : res A) (f : A → res B) : res B :=
  match m with
  | Ok a => f a
  | Panic => Panic
  | Fuel => Fuel
  end.

Notation "x ⇐ m ;; k" := (res_bind m (λ x, k))
  (at level 100, m at next level, right associativity).

(** ** Data of the collaborating packages *)

(** Modelled from the spec: [common.Hash] is a 32-byte content hash; its
    [String()] and [Hex()] renderings are the same injective hex string, so
    the maps keyed by either are keyed by the hash itself, a number. *)
Definition CommonHash : Type := N.

(** Modelled from the spec: [core.BlockHeader], as far as the manager reads
    it: the header's own hash (method [Hash()]), its height, its parent and
    the transaction root [TxHash]. *)
Record BlockHeader : Type := {
  Hash : CommonHash;
  Height : Z;
  Parent : CommonHash;
  TxHash : CommonHash
}.

(** Modelled from the spec: [core.Block] embeds its header and carries the
    transaction list; a transaction is a byte string, here a number. *)
Record Block : Type := {
  Header : BlockHeader;
  Txs : list N
}.

(** Modelled from the spec: the status of a block in the chain store;
    [IsPending] holds of a block accepted but not yet executed. *)
Inductive BlockStatus : Type :=
  | BlockStatusPending
  | BlockStatusProcessed.

Definition IsPending (st : BlockStatus) : bool :=
  match st with
  | BlockStatusPending => true
  | BlockStatusProcessed => false
  end.

(** Modelled from the spec: [core.ExtendedBlock]. *)
Record ExtendedBlock : Type := {
  EBlock : Block;
  Status : BlockStatus;
  Children : list CommonHash
}.

Global Instance BlockHeader_eq_dec : EqDecision BlockHeader.
Proof. solve_decision. Defined.
Global Instance Block_eq_dec : EqDecision Block.
Proof. solve_decision. Defined.
Global Instance BlockStatus_eq_dec : EqDecision BlockStatus.
Proof. solve_decision. Defined.
Global Instance ExtendedBlock_eq_dec : EqDecision ExtendedBlock.
Proof. solve_decision. Defined.

(** Modelled from the spec: the chain store, [FindBlock(hash)] answering
    [NotFound] (here [None]) for an absent hash. *)
Definition FindBlock (chain : gmap CommonHash ExtendedBlock) (x : CommonHash)
  : option ExtendedBlock := chain !! x.

(** Modelled from the spec: [ChainStore.AddBlock(block)] takes the block in.
    A block already stored is left as it is; a new one is stored as
    accepted but not yet executed. *)
Definition chain_AddBlock (chain : gmap CommonHash ExtendedBlock) (b : Block)
  : gmap CommonHash ExtendedBlock :=
  match chain !! Hash (Header b) with
  | Some _ => chain
  | None =>
      <[Hash (Header b) :=
          {| EBlock := b; Status := BlockStatusPending; Children := [] |}]> chain
  end.

(** Modelled from the spec: [FindBlocksByHeight(h)], every stored block at
    height [h]. *)
Definition FindBlocksByHeight (chain : gmap CommonHash ExtendedBlock) (h : Z)
  : list ExtendedBlock :=
  filter (λ eb, Height (Header (EBlock eb)) = h) (map_to_list chain).*2.

(** ** Constants *)

Definition second : Z := 1000000000.
Definition RequestTimeout : Z := 10 * second.
Definition Expiration : Z := 300 * second.
Definition MinInventoryRequestInterval : Z := 3 * second.
Definition MaxInventoryRequestInterval : Z := 30 * second.
Definition RequestQuotaPerSecond : Z := 100.

Inductive RequestState : Type :=
  | RequestToSendDataReq
  | RequestWaitingDataResp
  | RequestToSendBodyReq
  | RequestWaitingBodyResp.

Global Instance RequestState_eq_dec : EqDecision RequestState.
Proof. solve_decision. Defined.

(** ** PendingBlock *)

Record PendingBlock : Type := {
  hash : CommonHash;
  block : option Block;
  header : option BlockHeader;
  peers : list string;
  lastUpdate : Z;
  createdAt : Z;
  status : RequestState
}.

Global Instance PendingBlock_eq_dec : EqDecision PendingBlock.
Proof. solve_decision. Defined.

Definition NewPendingBlock (now : Z) (x : CommonHash) (peerIds : list string)
  : PendingBlock :=
  {| hash := x;
     block := None;
     header := None;
     peers := peerIds;
     lastUpdate := now;
     createdAt := now;
     status := RequestToSendDataReq |}.

Definition HasTimedOut (now : Z) (pb : PendingBlock) : bool :=
  bool_decide (now - lastUpdate pb > RequestTimeout).

Definition HasExpired (now : Z) (pb : PendingBlock) : bool :=
  bool_decide (now - createdAt pb > Expiration).

Definition UpdateTimestamp (now : Z) (pb : PendingBlock) : PendingBlock :=
  {| hash := hash pb; block := block pb; header := header pb;
     peers := peers pb; lastUpdate := now; createdAt := createdAt pb;
     status := status pb |}.

Definition set_status (st : RequestState) (pb : PendingBlock) : PendingBlock :=
  {| hash := hash pb; block := block pb; header := header pb;
     peers := peers pb; lastUpdate := lastUpdate pb; createdAt := createdAt pb;
     status := st |}.

Definition set_header (h : option BlockHeader) (pb : PendingBlock) : PendingBlock :=
  {| hash := hash pb; block := block pb; header := h;
     peers := peers pb; lastUpdate := lastUpdate pb; createdAt := createdAt pb;
     status := status pb |}.

Definition set_block (b : option Block) (pb : PendingBlock) : PendingBlock :=
  {| hash := hash pb; block := b; header := header pb;
     peers := peers pb; lastUpdate := lastUpdate pb; createdAt := createdAt pb;
     status := status pb |}.

Definition set_peers (ps : list string) (pb : PendingBlock) : PendingBlock :=
  {| hash := hash pb; block := block pb; header := header pb;
     peers := ps; lastUpdate := lastUpdate pb; createdAt := createdAt pb;
     status := status pb |}.

(** The zero value, read at a location that holds no cell. *)
Global Instance PendingBlock_inhabited : Inhabited PendingBlock :=
  populate (NewPendingBlock 0 0%N []).

(** ** HeaderHeap *)

(** A location of a [PendingBlock] cell. *)
Definition loc : Type := nat.

(** What [heap.Push] receives in its [interface{}] argument. *)
Inductive iface : Type :=
  | IPendingBlock (p : loc)
  | IBlockHeader (h : BlockHeader).

Module HeaderHeap.

Abbreviation t := (list loc).

Definition Len (h : t) : nat := length h.

(** [h[i].header.Height < h[j].header.Height]; an index out of range or a
    nil header panics. *)
Definition Less (mem : gmap loc PendingBlock) (h : t) (i j : nat) : res bool :=
  match h !! i, h !! j with
  | Some pi, Some pj =>
      match header (mem !!! pi), header (mem !!! pj) with
      | Some hi, Some hj => Ok (bool_decide (Height hi < Height hj))
      | _, _ => Panic
      end
  | _, _ => Panic
  end.

(** [h[i], h[j] = h[j], h[i]]; the heap package calls it with indices in
    range only. *)
Definition Swap (h : t) (i j : nat) : t :=
  match h !! i, h !! j with
  | Some pi, Some pj => <[i := pj]> (<[j := pi]> h)
  | _, _ => h
  end.

(** Appends [x] after asserting that it is a pointer to a [PendingBlock];
    the type assertion panics on anything else. *)
Definition Push (h : t) (x : iface) : res t :=
  match x with
  | IPendingBlock p => Ok (h ++ [p])
  | IBlockHeader _ => Panic
  end.

Definition Pop (h : t) : res (loc * t) :=
  match last h with
  | Some x => Ok (x, take (length h - 1)%nat h)
  | None => Panic
  end.

End HeaderHeap.

(** Go's [container/heap] over a [HeaderHeap]. *)
Module heap.

Import HeaderHeap.

Fixpoint up (fuel : nat) (mem : gmap loc PendingBlock) (h : t) (j : nat) : res t :=
  match fuel with
  | O => Fuel
  | S fuel' =>
      let i := ((j - 1) / 2)%nat in
      if bool_decide (i = j) then Ok h
      else
        lt ⇐ Less mem h j i ;;
        if negb lt then Ok h
        else up fuel' mem (Swap h i j) i
  end.

Fixpoint down (fuel : nat) (mem : gmap loc PendingBlock) (h : t) (i n : nat)
  : res t :=
  match fuel with
  | O => Fuel
  | S fuel' =>
      let j1 := (2 * i + 1)%nat in
      if bool_decide (n ≤ j1)%nat then Ok h
      else
        let j2 := (j1 + 1)%nat in
        j ⇐ (if bool_decide (j2 < n)%nat
             then lt ⇐ Less mem h j2 j1 ;; Ok (if lt : bool then j2 else j1)
             else Ok j1) ;;
        lt ⇐ Less mem h j i ;;
        if negb lt then Ok h
        else down fuel' mem (Swap h i j) j n
  end.

Arguments up : simpl never.
Arguments down : simpl never.

Definition Push (mem : gmap loc PendingBlock) (h : t) (x : iface) : res t :=
  h' ⇐ HeaderHeap.Push h x ;;
  up (S (Len h')) mem h' (Len h' - 1)%nat.

Definition Pop (mem : gmap loc PendingBlock) (h : t) : res (loc * t) :=
  let n := (Len h - 1)%nat in
  h' ⇐ down (S (Len h)) mem (Swap h 0 n) 0 n ;;
  HeaderHeap.Pop h'.

End heap.

(** ** RequestManager *)

(** The arguments of one [dispatcher.GetData] call: the peer it is sent to
    and the single entry of the [DataRequest]. *)
Record DataCall : Type := {
  dc_peer : string;
  dc_entry : CommonHash
}.

Record RequestManager : Type := {
  quota : Z;
  lastInventoryRequest : Z;
  (* the cells pointed to *)
  mem : gmap loc PendingBlock;
  pendingBlocks : list loc;
  pendingBlocksByHash : gmap CommonHash loc;
  pendingBlocksByParent : gmap CommonHash (list Block);
  pendingBlocksWithHeader : HeaderHeap.t;
  (* collaborators *)
  chain : gmap CommonHash ExtendedBlock;
  handedToChain : list Block;                  (* calls of chain.AddBlock *)
  passedDown : list Block;                (* calls of syncMgr.PassdownMessage *)
  inventoryCalls : list (list CommonHash); (* calls of dispatcher.GetInventory *)
  dataCalls : list DataCall               (* calls of dispatcher.GetData *)
}.

Definition NewRequestManager (c : gmap CommonHash ExtendedBlock) : RequestManager :=
  {| quota := RequestQuotaPerSecond;
     lastInventoryRequest := 0;
     mem := ∅;
     pendingBlocks := [];
     pendingBlocksByHash := ∅;
     pendingBlocksByParent := ∅;
     pendingBlocksWithHeader := [];
     chain := c;
     handedToChain := [];
     passedDown := [];
     inventoryCalls := [];
     dataCalls := [] |}.

Definition with_quota (q : Z) (rm : RequestManager) : RequestManager :=
  {| quota := q; lastInventoryRequest := lastInventoryRequest rm;
     mem := mem rm; pendingBlocks := pendingBlocks rm;
     pendingBlocksByHash := pendingBlocksByHash rm;
     pendingBlocksByParent := pendingBlocksByParent rm;
     pendingBlocksWithHeader := pendingBlocksWithHeader rm;
     chain := chain rm; handedToChain := handedToChain rm; passedDown := passedDown rm;
     inventoryCalls := inventoryCalls rm; dataCalls := dataCalls rm |}.

Definition with_mem (m : gmap loc PendingBlock) (rm : RequestManager) : RequestManager :=
  {| quota := quota rm; lastInventoryRequest := lastInventoryRequest rm;
     mem := m; pendingBlocks := pendingBlocks rm;
     pendingBlocksByHash := pendingBlocksByHash rm;
     pendingBlocksByParent := pendingBlocksByParent rm;
     pendingBlocksWithHeader := pendingBlocksWithHeader rm;
     chain := chain rm; handedToChain := handedToChain rm; passedDown := passedDown rm;
     inventoryCalls := inventoryCalls rm; dataCalls := dataCalls rm |}.

Definition with_pendingBlocks (l : list loc) (rm : RequestManager) : RequestManager :=
  {| quota := quota rm; lastInventoryRequest := lastInventoryRequest rm;
     mem := mem rm; pendingBlocks := l;
     pendingBlocksByHash := pendingBlocksByHash rm;
     pendingBlocksByParent := pendingBlocksByParent rm;
     pendingBlocksWithHeader := pendingBlocksWithHeader rm;
     chain := chain rm; handedToChain := handedToChain rm; passedDown := passedDown rm;
     inventoryCalls := inventoryCalls rm; dataCalls := dataCalls rm |}.

Definition with_byHash (m : gmap CommonHash loc) (rm : RequestManager) : RequestManager :=
  {| quota := quota rm; lastInventoryRequest := lastInventoryRequest rm;
     mem := mem rm; pendingBlocks := pendingBlocks rm;
     pendingBlocksByHash := m;
     pendingBlocksByParent := pendingBlocksByParent rm;
     pendingBlocksWithHeader := pendingBlocksWithHeader rm;
     chain := chain rm; handedToChain := handedToChain rm; passedDown := passedDown rm;
     inventoryCalls := inventoryCalls rm; dataCalls := dataCalls rm |}.

Definition with_byParent (m : gmap CommonHash (list Block)) (rm : RequestManager)
  : RequestManager :=
  {| quota := quota rm; lastInventoryRequest := lastInventoryRequest rm;
     mem := mem rm; pendingBlocks := pendingBlocks rm;
     pendingBlocksByHash := pendingBlocksByHash rm;
     pendingBlocksByParent := m;
     pendingBlocksWithHeader := pendingBlocksWithHeader rm;
     chain := chain rm; handedToChain := handedToChain rm; passedDown := passedDown rm;
     inventoryCalls := inventoryCalls rm; dataCalls := dataCalls rm |}.

Definition with_heap (h : HeaderHeap.t) (rm : RequestManager) : RequestManager :=
  {| quota := quota rm; lastInventoryRequest := lastInventoryRequest rm;
     mem := mem rm; pendingBlocks := pendingBlocks rm;
     pendingBlocksByHash := pendingBlocksByHash rm;
     pendingBlocksByParent := pendingBlocksByParent rm;
     pendingBlocksWithHeader := h;
     chain := chain rm; handedToChain := handedToChain rm; passedDown := passedDown rm;
     inventoryCalls := inventoryCalls rm; dataCalls := dataCalls rm |}.

Definition with_chain (c : gmap CommonHash ExtendedBlock) (rm : RequestManager)
  : RequestManager :=
  {| quota := quota rm; lastInventoryRequest := lastInventoryRequest rm;
     mem := mem rm; pendingBlocks := pendingBlocks rm;
     pendingBlocksByHash := pendingBlocksByHash rm;
     pendingBlocksByParent := pendingBlocksByParent rm;
     pendingBlocksWithHeader := pendingBlocksWithHeader rm;
     chain := c; handedToChain := handedToChain rm; passedDown := passedDown rm;
     inventoryCalls := inventoryCalls rm; dataCalls := dataCalls rm |}.

(** [rm.syncMgr.dispatcher.GetData([]string{peer}, request)]. *)
Definition GetData (peer : string) (x : CommonHash) (rm : RequestManager)
  : RequestManager :=
  {| quota := quota rm; lastInventoryRequest := lastInventoryRequest rm;
     mem := mem rm; pendingBlocks := pendingBlocks rm;
     pendingBlocksByHash := pendingBlocksByHash rm;
     pendingBlocksByParent := pendingBlocksByParent rm;
     pendingBlocksWithHeader := pendingBlocksWithHeader rm;
     chain := chain rm; handedToChain := handedToChain rm; passedDown := passedDown rm;
     inventoryCalls := inventoryCalls rm;
     dataCalls := dataCalls rm ++ [{| dc_peer := peer; dc_entry := x |}] |}.

(** [rm.lastInventoryRequest = time.Now()] followed by
    [rm.syncMgr.dispatcher.GetInventory([]string{}, req)]. *)
Definition GetInventory (now : Z) (starts : list CommonHash) (rm : RequestManager)
  : RequestManager :=
  {| quota := quota rm; lastInventoryRequest := now;
     mem := mem rm; pendingBlocks := pendingBlocks rm;
     pendingBlocksByHash := pendingBlocksByHash rm;
     pendingBlocksByParent := pendingBlocksByParent rm;
     pendingBlocksWithHeader := pendingBlocksWithHeader rm;
     chain := chain rm; handedToChain := handedToChain rm; passedDown := passedDown rm;
     inventoryCalls := inventoryCalls rm ++ [starts];
     dataCalls := dataCalls rm |}.

(** [rm.chain.AddBlock(block)] followed by [rm.syncMgr.PassdownMessage(block)]. *)
Definition store_and_pass (b : Block) (rm : RequestManager) : RequestManager :=
  {| quota := quota rm; lastInventoryRequest := lastInventoryRequest rm;
     mem := mem rm; pendingBlocks := pendingBlocks rm;
     pendingBlocksByHash := pendingBlocksByHash rm;
     pendingBlocksByParent := pendingBlocksByParent rm;
     pendingBlocksWithHeader := pendingBlocksWithHeader rm;
     chain := chain_AddBlock (chain rm) b;
     handedToChain := handedToChain rm ++ [b];
     passedDown := passedDown rm ++ [b];
     inventoryCalls := inventoryCalls rm;
     dataCalls := dataCalls rm |}.

(** A location that holds no cell yet: what [&PendingBlock{...}] returns. *)
Definition new_loc (m : gmap loc PendingBlock) : loc := fresh (dom m).

(** ** The inventory requester *)

(** Go's [uint64] and (64-bit) [int] arithmetic wraps around. *)
Definition to_uint64 (z : Z) : Z := z mod 2 ^ 64.
Definition to_int (z : Z) : Z := (z + 2 ^ 63) mod 2 ^ 64 - 2 ^ 63.

(** The body of the locator loop up to its [break]: [None] when it breaks,
    [Some step] with the step the body goes on with otherwise. *)
Definition locator_step (tipHeight index step : Z) : option Z :=
  let step := if bool_decide (to_uint64 (tipHeight - index) >= 10)
              then to_int (step * 2) else step in
  if bool_decide (to_uint64 step > index) || bool_decide (step <= 0)
  then None
  else Some step.

Fixpoint locator_loop (fuel : nat) (c : gmap CommonHash ExtendedBlock)
    (tipHeight lfbHeight index step : Z) (starts : list CommonHash)
  : res (list CommonHash) :=
  if bool_decide (index > lfbHeight) then
    match fuel with
    | O => Fuel
    | S fuel' =>
        match locator_step tipHeight index step with
        | None => Ok starts
        | Some step' =>
            let blocks := FindBlocksByHeight c index in
            let starts' := starts ++ ((λ b, Hash (Header (EBlock b))) <$> blocks) in
            locator_loop fuel' c tipHeight lfbHeight
              (to_uint64 (index - to_uint64 step')) step' starts'
        end
    end
  else Ok starts.

(** [tip] and [lfb] are the answers of [consensus.GetTip(true)] and
    [consensus.GetLastFinalizedBlock()].  The result is the [Starts] field
    of the request; its [ChannelID] is constant. *)
Definition buildInventoryRequest_fuel (fuel : nat)
    (c : gmap CommonHash ExtendedBlock) (tip : Block) (lfb : ExtendedBlock)
  : res (list CommonHash) :=
  starts ⇐ locator_loop fuel c (Height (Header tip))
             (Height (Header (EBlock lfb))) (Height (Header tip)) 1 [] ;;
  Ok (starts ++ [Hash (Header (EBlock lfb))]).

Definition buildInventoryRequest (c : gmap CommonHash ExtendedBlock)
    (tip : Block) (lfb : ExtendedBlock) : res (list CommonHash) :=
  buildInventoryRequest_fuel (S (Z.to_nat (Height (Header tip)))) c tip lfb.

(** ** Downloads, ingest and promotion *)

Section Manager.

(** [core.CalculateRootHash], the merkle root of a transaction list. *)
Variable CalculateRootHash : list N → CommonHash.

(** [rand.Intn]: one resolution of the random choices, a number for each
    bound.  It is reduced below the bound, where [rand.Intn] answers. *)
Variable Intn : nat → nat.

Definition randomPeer (ps : list string) : string :=
  ps !!! (Intn (length ps) `mod` length ps)%nat.

(** [rm.pendingBlocks.Remove(el)]. *)
Definition list_Remove (el : loc) (l : list loc) : list loc :=
  filter (λ e, e ≠ el) l.

(** The index of the first block of [blocks] with the hash of [b]. *)
Fixpoint find_block (b : Block) (blocks : list Block) : option nat :=
  match blocks with
  | [] => None
  | c :: rest =>
      if bool_decide (Hash (Header c) = Hash (Header b)) then Some O
      else S <$> find_block b rest
  end.

Definition removeEl (el : loc) (rm : RequestManager) : RequestManager :=
  let pendingBlock := mem rm !!! el in
  let rm := with_byHash (delete (hash pendingBlock) (pendingBlocksByHash rm)) rm in
  let rm :=
    match block pendingBlock with
    | Some b =>
        let parent := Parent (Header b) in
        match pendingBlocksByParent rm !! parent with
        | Some blocks =>
            let rm :=
              match find_block b blocks with
              | Some found =>
                  with_byParent
                    (<[parent := delete found blocks]> (pendingBlocksByParent rm)) rm
              | None => rm
              end in
            match pendingBlocksByParent rm !! parent with
            | Some [] => with_byParent (delete parent (pendingBlocksByParent rm)) rm
            | _ => rm
            end
        | None => rm
        end
    | None => rm
    end in
  with_pendingBlocks (list_Remove el (pendingBlocks rm)) rm.

(** The body of the [if] that both downloaders share but for the status
    they set: send one request to a random peer, touch the block, set the
    status. *)
Definition send_request (now : Z) (el : loc) (st : RequestState)
    (rm : RequestManager) : RequestManager :=
  let pendingBlock := mem rm !!! el in
  let rm := GetData (randomPeer (peers pendingBlock)) (hash pendingBlock) rm in
  with_mem (<[el := set_status st (UpdateTimestamp now pendingBlock)]> (mem rm)) rm.

(** The first loop of [downloadBlockFromHash], from element [curr] on:
    [els] is [curr] and the elements after it. *)
Fixpoint hash_loop (now : Z) (els : list loc) (quota : Z)
    (elToRemove : list loc) (rm : RequestManager)
  : RequestManager * list loc * Z :=
  match els with
  | [] => (rm, elToRemove, quota)
  | curr :: rest =>
      if bool_decide (quota = 0) then (rm, elToRemove, quota)
      else
        let pendingBlock := mem rm !!! curr in
        if HasExpired now pendingBlock then
          hash_loop now rest quota (elToRemove ++ [curr]) rm
        else if bool_decide (header pendingBlock ≠ None) then
          hash_loop now rest quota elToRemove rm
        else if bool_decide (length (peers pendingBlock) = 0%nat) then
          hash_loop now rest quota elToRemove rm
        else if bool_decide (status pendingBlock = RequestToSendDataReq)
                || (bool_decide (status pendingBlock = RequestWaitingDataResp)
                    && HasTimedOut now pendingBlock) then
          hash_loop now rest (quota - 1) elToRemove
            (send_request now curr RequestWaitingDataResp rm)
        else
          hash_loop now rest quota elToRemove rm
  end.

Definition downloadBlockFromHash (now : Z) (quota : Z) (rm : RequestManager)
  : RequestManager :=
  let '(rm, elToRemove, _) := hash_loop now (pendingBlocks rm) quota [] rm in
  foldl (λ rm el, removeEl el rm) rm elToRemove.

(** The loop of [downloadBlockFromHeader]; every pass pops one entry, so
    the length of the heap is fuel enough. *)
Fixpoint header_loop (fuel : nat) (now : Z) (backup : HeaderHeap.t) (quota : Z)
    (rm : RequestManager) : res (RequestManager * HeaderHeap.t * Z) :=
  if bool_decide (0 < HeaderHeap.Len (pendingBlocksWithHeader rm))%nat
     && bool_decide (quota ≠ 0) then
    match fuel with
    | O => Fuel
    | S fuel' =>
        popped ⇐ heap.Pop (mem rm) (pendingBlocksWithHeader rm) ;;
        let el := popped.1 in
        let rm := with_heap popped.2 rm in
        let pendingBlock := mem rm !!! el in
        if HasExpired now pendingBlock then
          header_loop fuel' now backup quota
            (with_mem (<[el := set_header None pendingBlock]> (mem rm)) rm)
        else if bool_decide (block pendingBlock ≠ None) then
          header_loop fuel' now backup quota rm
        else if bool_decide (length (peers pendingBlock) = 0%nat) then
          header_loop fuel' now backup quota rm
        else
          let sends :=
            bool_decide (status pendingBlock = RequestToSendBodyReq)
            || (bool_decide (status pendingBlock = RequestWaitingBodyResp)
                && HasTimedOut now pendingBlock) in
          let rm := if sends then send_request now el RequestWaitingBodyResp rm
                    else rm in
          let quota := if sends then quota - 1 else quota in
          backup' ⇐ heap.Push (mem rm) backup (IPendingBlock el) ;;
          header_loop fuel' now backup' quota rm
    end
  else Ok (rm, backup, quota).

Definition downloadBlockFromHeader (now : Z) (quota : Z) (rm : RequestManager)
  : res RequestManager :=
  r ⇐ header_loop (HeaderHeap.Len (pendingBlocksWithHeader rm)) now [] quota rm ;;
  Ok (with_heap r.1.2 r.1.1).

Definition tryToDownload (now : Z) (tip : Block) (lfb : ExtendedBlock)
    (rm : RequestManager) : res RequestManager :=
  let hasUndownloadedBlocks :=
    bool_decide (0 < length (pendingBlocks rm))%nat
    || bool_decide (0 < size (pendingBlocksByHash rm))%nat
    || bool_decide (0 < size (pendingBlocksByParent rm))%nat
    || bool_decide (0 < HeaderHeap.Len (pendingBlocksWithHeader rm))%nat in
  let minIntervalPassed :=
    bool_decide (now - lastInventoryRequest rm >= MinInventoryRequestInterval) in
  let maxIntervalPassed :=
    bool_decide (now - lastInventoryRequest rm >= MaxInventoryRequestInterval) in
  rm ⇐ (if maxIntervalPassed || (hasUndownloadedBlocks && minIntervalPassed)
        then starts ⇐ buildInventoryRequest (chain rm) tip lfb ;;
             Ok (GetInventory now starts rm)
        else Ok rm) ;;
  rm ⇐ downloadBlockFromHeader now (quota rm) rm ;;
  Ok (downloadBlockFromHash now (quota rm) rm).

(** One pass of [mainLoop] on a tick of the ticker. *)
Definition tick (now : Z) (tip : Block) (lfb : ExtendedBlock)
    (rm : RequestManager) : res RequestManager :=
  tryToDownload now tip lfb (with_quota RequestQuotaPerSecond rm).

(** The loop of [addHash] that adds [peerIDs] to the peers of a block. *)
Definition add_peers (ps peerIDs : list string) : list string :=
  foldl (λ ps xid, if bool_decide (xid ∈ ps) then ps else ps ++ [xid]) ps peerIDs.

Definition addHash (now : Z) (x : CommonHash) (peerIDs : list string)
    (rm : RequestManager) : RequestManager :=
  match FindBlock (chain rm) x with
  | Some _ => rm
  | None =>
      let '(pendingBlockEl, rm) :=
        match pendingBlocksByHash rm !! x with
        | Some el => (el, rm)
        | None =>
            let el := new_loc (mem rm) in
            (el,
             with_byHash (<[x := el]> (pendingBlocksByHash rm))
               (with_pendingBlocks (pendingBlocks rm ++ [el])
                  (with_mem (<[el := NewPendingBlock now x peerIDs]> (mem rm)) rm)))
        end in
      let pendingBlock := mem rm !!! pendingBlockEl in
      match block pendingBlock with
      | Some _ => rm
      | None =>
          with_mem
            (<[pendingBlockEl :=
                 set_peers (add_peers (peers pendingBlock) peerIDs) pendingBlock]>
               (mem rm)) rm
      end
  end.

Definition AddHash (now : Z) (x : CommonHash) (peerIDs : list string)
    (rm : RequestManager) : RequestManager :=
  addHash now x peerIDs rm.

(** The guarded [rm.addHash(x, []string{})] that opens [AddHeader] and
    [AddBlock]. *)
Definition ensure_pending (now : Z) (x : CommonHash) (rm : RequestManager)
  : RequestManager :=
  match pendingBlocksByHash rm !! x with
  | Some _ => rm
  | None => addHash now x [] rm
  end.

Definition AddHeader (now : Z) (hd : BlockHeader) (rm : RequestManager)
  : res RequestManager :=
  match FindBlock (chain rm) (Hash hd) with
  | Some _ => Ok rm
  | None =>
      let rm := ensure_pending now (Hash hd) rm in
      let rm := match pendingBlocksByHash rm !! Hash hd with
                | Some pendingBlockEl =>
                    let pendingBlock := mem rm !!! pendingBlockEl in
                    with_mem
                      (<[pendingBlockEl :=
                           set_status RequestToSendBodyReq
                             (set_header (Some hd) pendingBlock)]> (mem rm)) rm
                | None => rm
                end in
      h ⇐ heap.Push (mem rm) (pendingBlocksWithHeader rm) (IBlockHeader hd) ;;
      Ok (with_heap h rm)
  end.

(** The total number of blocks parked under [byParent]. *)
Definition parked (m : gmap CommonHash (list Block)) : nat :=
  sum_list (length <$> (map_to_list m).*2).

(** One pass of the loop of [dumpReadyBlocks]: [b] is the head of the
    queue and [queue] the rest. *)
Definition dump_step (b : Block) (queue : list Block) (rm : RequestManager)
  : list Block * RequestManager :=
  let h := Hash (Header b) in
  let '(queue, rm) :=
    match pendingBlocksByParent rm !! h with
    | Some children =>
        (queue ++ children,
         with_byParent (delete h (pendingBlocksByParent rm)) rm)
    | None => (queue, rm)
    end in
  let rm :=
    match pendingBlocksByHash rm !! h with
    | Some pendingBlockEl =>
        with_byHash (delete h (pendingBlocksByHash rm))
          (with_pendingBlocks (list_Remove pendingBlockEl (pendingBlocks rm)) rm)
    | None => rm
    end in
  (queue, store_and_pass b rm).

Fixpoint dump_loop (fuel : nat) (queue : list Block) (rm : RequestManager)
  : res RequestManager :=
  match queue with
  | [] => Ok rm
  | b :: rest =>
      match fuel with
      | O => Fuel
      | S fuel' =>
          let '(queue', rm') := dump_step b rest rm in
          dump_loop fuel' queue' rm'
      end
  end.

(** Every pass takes one block off the queue and moves the children it
    finds from [byParent] to the queue, so one pass more than there are
    parked blocks is fuel enough. *)
Definition dumpReadyBlocks (b : Block) (rm : RequestManager)
  : res RequestManager :=
  dump_loop (S (parked (pendingBlocksByParent rm))) [b] rm.

(** The second [if] of [AddBlock]: the body is checked against the header,
    if the pending block has one, and attached; [None] is the early return
    on a mismatch. *)
Definition check_body (b : Block) (rm : RequestManager) : option RequestManager :=
  match pendingBlocksByHash rm !! Hash (Header b) with
  | Some pendingBlockEl =>
      let pendingBlock := mem rm !!! pendingBlockEl in
      let attached :=
        with_mem (<[pendingBlockEl := set_block (Some b) pendingBlock]> (mem rm)) rm in
      match header pendingBlock with
      | Some hd =>
          if bool_decide (CalculateRootHash (Txs b) ≠ TxHash hd) then None
          else Some attached
      | None => Some attached
      end
  | None => Some rm
  end.

(** The end of [AddBlock]: the block is put under its parent unless a block
    of its hash is there already. *)
Definition park (b : Block) (rm : RequestManager) : RequestManager :=
  let parent := Parent (Header b) in
  let byParents := default [] (pendingBlocksByParent rm !! parent) in
  let found :=
    bool_decide (Exists (λ child, Hash (Header child) = Hash (Header b)) byParents) in
  let byParents := if found then byParents else byParents ++ [b] in
  with_byParent (<[parent := byParents]> (pendingBlocksByParent rm)) rm.

Definition AddBlock (now : Z) (b : Block) (rm : RequestManager)
  : res RequestManager :=
  let rm := ensure_pending now (Hash (Header b)) rm in
  match check_body b rm with
  | None => Ok rm
  | Some rm =>
      match FindBlock (chain rm) (Parent (Header b)) with
      | Some _ => dumpReadyBlocks b rm
      | None => Ok (park b rm)
      end
  end.

(** [pendings] is the order in which Go's [range] happens to visit
    [rm.pendingBlocksByHash]: some permutation of its elements. *)
Fixpoint dumpAll_loop (pendings : list loc) (rm : RequestManager)
  : res RequestManager :=
  match pendings with
  | [] => Ok rm
  | pendingBlockEl :: rest =>
      let pendingBlock := mem rm !!! pendingBlockEl in
      match block pendingBlock with
      | None => dumpAll_loop rest rm
      | Some b =>
          match FindBlock (chain rm) (Parent (Header b)) with
          | Some eb =>
              if negb (IsPending (Status eb)) then
                rm' ⇐ dumpReadyBlocks b rm ;;
                dumpAll_loop rest rm'
              else dumpAll_loop rest rm
          | None => dumpAll_loop rest rm
          end
      end
  end.

Definition range_of (rm : RequestManager) (pendings : list loc) : Prop :=
  pendings ≡ₚ (map_to_list (pendingBlocksByHash rm)).*2.

Definition dumpAllReadyBlocks (pendings : list loc) (rm : RequestManager)
  : res RequestManager :=
  dumpAll_loop pendings rm.

(** The children of a block as [resumePendingBlocks] collects them: a hash
    the chain store does not hold panics. *)
Fixpoint find_children (c : gmap CommonHash ExtendedBlock)
    (hashes : list CommonHash) : res (list ExtendedBlock) :=
  match hashes with
  | [] => Ok []
  | h :: rest =>
      match FindBlock c h with
      | Some child =>
          children ⇐ find_children c rest ;;
          Ok (child :: children)
      | None => Panic
      end
  end.

(** The loop of [resumePendingBlocks].  How long it runs is up to the
    [Children] links of the chain store, so the fuel stays an argument. *)
Fixpoint resume_loop (fuel : nat) (now : Z) (queue : list ExtendedBlock)
    (rm : RequestManager) : res RequestManager :=
  match queue with
  | [] => Ok rm
  | eb :: rest =>
      match fuel with
      | O => Fuel
      | S fuel' =>
          rm ⇐ (if IsPending (Status eb) then AddBlock now (EBlock eb) rm
                else Ok rm) ;;
          children ⇐ find_children (chain rm) (Children eb) ;;
          resume_loop fuel' now (rest ++ children) rm
      end
  end.

(** [lfb] is the answer of [consensus.GetLastFinalizedBlock()]. *)
Definition resumePendingBlocks (fuel : nat) (now : Z) (lfb : ExtendedBlock)
    (rm : RequestManager) : res RequestManager :=
  resume_loop fuel now [lfb] rm.

(** The states the manager can be in: those [NewRequestManager] builds and
    those an entry point that returns leaves behind.  The chain store is
    shared with the consensus engine, which changes it too. *)
Inductive reachable : RequestManager → Prop :=
  | reach_New c :
      reachable (NewRequestManager c)
  | reach_AddHash now x peerIDs rm :
      reachable rm → reachable (AddHash now x peerIDs rm)
  | reach_AddHeader now hd rm rm' :
      reachable rm → AddHeader now hd rm = Ok rm' → reachable rm'
  | reach_AddBlock now b rm rm' :
      reachable rm → AddBlock now b rm = Ok rm' → reachable rm'
  | reach_dumpAllReadyBlocks pendings rm rm' :
      reachable rm → range_of rm pendings →
      dumpAllReadyBlocks pendings rm = Ok rm' → reachable rm'
  | reach_tick now tip lfb rm rm' :
      reachable rm → tick now tip lfb rm = Ok rm' → reachable rm'
  | reach_chain c rm :
      reachable rm → reachable (with_chain c rm).


(** ** Notions the properties are stated with *)

(** The body [b] disagrees with the header its pending block holds. *)
Definition root_mismatch (b : Block) (rm : RequestManager) : bool :=
  match pendingBlocksByHash rm !! Hash (Header b) with
  | Some el =>
      match header (mem rm !!! el) with
      | Some hd => bool_decide (CalculateRootHash (Txs b) ≠ TxHash hd)
      | None => false
      end
  | None => false
  end.

(** What an operation leaves alone when it works on the pending blocks
    only. *)
Definition same_collaborators (rm rm' : RequestManager) : Prop :=
  chain rm' = chain rm
  ∧ handedToChain rm' = handedToChain rm
  ∧ passedDown rm' = passedDown rm
  ∧ dataCalls rm' = dataCalls rm
  ∧ inventoryCalls rm' = inventoryCalls rm
  ∧ quota rm' = quota rm
  ∧ lastInventoryRequest rm' = lastInventoryRequest rm.


(** The consistency of status and fields that the specification asks of
    every pending block of the list. *)
Definition status_consistent (rm : RequestManager) : Prop :=
  ∀ el, el ∈ pendingBlocks rm →
    (status (mem rm !!! el) = RequestWaitingDataResp →
     block (mem rm !!! el) = None)
    ∧ (status (mem rm !!! el) = RequestWaitingBodyResp →
       header (mem rm !!! el) ≠ None ∧ block (mem rm !!! el) = None).

(** What the code keeps of every cell, as long as no header is ever
    attached: the cell has no header and its status is one of the two of
    the request by hash. *)
Definition by_hash_only (m : gmap loc PendingBlock) : Prop :=
  ∀ el, header (m !!! el) = None
        ∧ (status (m !!! el) = RequestToSendDataReq
           ∨ status (m !!! el) = RequestWaitingDataResp).

(** *** Chains of pending blocks *)

Definition hash_of (b : Block) : CommonHash := Hash (Header b).

(** [c] is in the list that [byParent] holds for [p]. *)
Definition parked_under (bp : gmap CommonHash (list Block)) (p : CommonHash)
    (c : Block) : Prop :=
  c ∈ default [] (bp !! p).

(** A chain b0 → b1 → … → bn: every block but the first is parked under the
    hash of the block before it. *)
Fixpoint chain_parked (bp : gmap CommonHash (list Block)) (cs : list Block)
  : Prop :=
  match cs with
  | b :: rest =>
      match rest with
      | b' :: _ => parked_under bp (hash_of b) b' ∧ chain_parked bp rest
      | [] => True
      end
  | [] => True
  end.

(** A parked block is parked under its parent. *)
Definition parked_by_parent (bp : gmap CommonHash (list Block)) : Prop :=
  map_Forall (λ p l, Forall (λ c, Parent (Header c) = p) l) bp.

(** A hash names one block: a block that bears the hash of a block of the
    chain is that block.  This is asked of the blocks that are parked and
    of the bodies that are attached to pending blocks. *)
Definition named_by_hash (cs : list Block) (c : Block) : Prop :=
  Forall (λ b, hash_of c = hash_of b → c = b) cs.

Definition parked_named (cs : list Block) (bp : gmap CommonHash (list Block))
  : Prop :=
  map_Forall (λ _ l, Forall (named_by_hash cs) l) bp.

Definition body_named (cs : list Block) (pb : PendingBlock) : Prop :=
  from_option (named_by_hash cs) True (block pb).

Definition bodies_named (cs : list Block) (m : gmap loc PendingBlock) : Prop :=
  map_Forall (λ _ pb, body_named cs pb) m.

Global Instance parked_under_dec bp p c : Decision (parked_under bp p c).
Proof. unfold parked_under. apply _. Defined.

Global Instance parked_by_parent_dec bp : Decision (parked_by_parent bp).
Proof. unfold parked_by_parent. apply _. Defined.

Global Instance named_by_hash_dec cs c : Decision (named_by_hash cs c).
Proof. unfold named_by_hash. apply _. Defined.

Global Instance parked_named_dec cs bp : Decision (parked_named cs bp).
Proof. unfold parked_named. apply _. Defined.

Global Instance body_named_dec cs pb : Decision (body_named cs pb).
Proof. unfold body_named. destruct (block pb); simpl; apply _. Defined.

Global Instance bodies_named_dec cs m : Decision (bodies_named cs m).
Proof. unfold bodies_named. apply _. Defined.

(** What promotion of the chain [cs] means for the manager before, [rm],
    and after, [rm']: the blocks handed to the chain store and to consensus
    are the same, and the chain is among them in its order; every block of
    the chain is in the chain store, is gone from [byHash] and [byParent],
    and the element that [byHash] had for it is gone from the list. *)
Definition promoted (cs : list Block) (rm rm' : RequestManager) : Prop :=
  (∃ l, handedToChain rm' = handedToChain rm ++ l
        ∧ passedDown rm' = passedDown rm ++ l
        ∧ cs `sublist_of` l)
  ∧ Forall (λ b,
      is_Some (FindBlock (chain rm') (hash_of b))
      ∧ pendingBlocksByHash rm' !! hash_of b = None
      ∧ pendingBlocksByParent rm' !! hash_of b = None
      ∧ ∀ el, pendingBlocksByHash rm !! hash_of b = Some el →
              el ∉ pendingBlocks rm') cs.

(** The loop invariant of promotion, for a chain [cs] and the manager
    [rm0] that promotion started from: the first [k] blocks of the chain
    have been promoted, in their order, and the others are still parked. *)
Record dump_inv (cs : list Block) (rm0 : RequestManager) (k : nat)
    (q : list Block) (rm : RequestManager) : Prop := {
  di_k : (k ≤ length cs)%nat;
  di_log : ∃ l, handedToChain rm = handedToChain rm0 ++ l
                ∧ passedDown rm = passedDown rm0 ++ l
                ∧ take k cs `sublist_of` l;
  di_seg : ∀ i b b', (k ≤ i)%nat → cs !! i = Some b → cs !! S i = Some b' →
             parked_under (pendingBlocksByParent rm) (hash_of b) b';
  di_queue : ∀ c j b, c ∈ q → cs !! j = Some b → hash_of c = hash_of b →
               c = b ∧ (j ≤ k)%nat;
  di_sub : pendingBlocksByParent rm ⊆ pendingBlocksByParent rm0;
  di_done : ∀ j b, (j < k)%nat → cs !! j = Some b →
              pendingBlocksByParent rm !! hash_of b = None
              ∧ pendingBlocksByHash rm !! hash_of b = None
              ∧ is_Some (chain rm !! hash_of b);
  di_list : ∀ h el, pendingBlocksByHash rm0 !! h = Some el →
              pendingBlocksByHash rm !! h = Some el
              ∨ (pendingBlocksByHash rm !! h = None ∧ el ∉ pendingBlocks rm);
  di_chain_mono : ∀ h eb, chain rm0 !! h = Some eb → chain rm !! h = Some eb;
  di_chain_new : ∀ h eb, chain rm !! h = Some eb →
                   chain rm0 !! h = Some eb ∨ IsPending (Status eb) = true;
  di_mem : mem rm = mem rm0
}.

(** Promotion is on its way along the chain: the next block of the chain is
    in the queue, unless the chain is done. *)
Definition on_its_way (cs : list Block) (k : nat) (q : list Block) : Prop :=
  k = length cs ∨ ∃ b, cs !! k = Some b ∧ b ∈ q.

End Manager.

(** ** Notions for the request passes and the indexes *)

(** The test [downloadBlockFromHash] makes before it asks for a block: it
    has not expired, has no header, has a peer to ask, and either was never
    asked for or the last request has timed out. *)
Definition due_by_hash (now : Z) (pb : PendingBlock) : bool :=
  negb (HasExpired now pb)
  && bool_decide (header pb = None)
  && negb (bool_decide (length (peers pb) = 0%nat))
  && (bool_decide (status pb = RequestToSendDataReq)
      || (bool_decide (status pb = RequestWaitingDataResp) && HasTimedOut now pb)).

(** The [GetData] call that asks for the pending block [pb]. *)
Definition request_of (Intn : nat → nat) (pb : PendingBlock) : DataCall :=
  {| dc_peer := randomPeer Intn (peers pb); dc_entry := hash pb |}.

(** What a request leaves of the cell of the block asked for. *)
Definition asked (now : Z) (st : RequestState) (pb : PendingBlock) : PendingBlock :=
  set_status st (UpdateTimestamp now pb).

(** The entries [downloadBlockFromHeader] puts back on the heap: not
    expired, without a body, with a peer to ask. *)
Definition kept_with_header (now : Z) (pb : PendingBlock) : bool :=
  negb (HasExpired now pb)
  && bool_decide (block pb = None)
  && negb (bool_decide (length (peers pb) = 0%nat)).

(** What the request passes leave alone: the chain store, the blocks handed
    over, the inventory requests and their time, and the quota field. *)
Definition only_requests (rm rm' : RequestManager) : Prop :=
  chain rm' = chain rm
  ∧ handedToChain rm' = handedToChain rm
  ∧ passedDown rm' = passedDown rm
  ∧ inventoryCalls rm' = inventoryCalls rm
  ∧ lastInventoryRequest rm' = lastInventoryRequest rm
  ∧ quota rm' = quota rm.

(** [hasUndownloadedBlocks] of [tryToDownload]. *)
Definition hasUndownloadedBlocks (rm : RequestManager) : bool :=
  bool_decide (0 < length (pendingBlocks rm))%nat
  || bool_decide (0 < size (pendingBlocksByHash rm))%nat
  || bool_decide (0 < size (pendingBlocksByParent rm))%nat
  || bool_decide (0 < HeaderHeap.Len (pendingBlocksWithHeader rm))%nat.

(** The list and the by-hash map index the same pending blocks: the list
    holds no element twice, every element has a cell, the map sends a hash
    to an element of the list whose block has this hash, and every element
    of the list is the one the map holds for the hash of its block. *)
Record index_ok (rm : RequestManager) : Prop := {
  io_nodup : NoDup (pendingBlocks rm);
  io_cell : ∀ el, el ∈ pendingBlocks rm → is_Some (mem rm !! el);
  io_byHash : ∀ h el, pendingBlocksByHash rm !! h = Some el →
                el ∈ pendingBlocks rm ∧ hash (mem rm !!! el) = h;
  io_list : ∀ el, el ∈ pendingBlocks rm →
              pendingBlocksByHash rm !! hash (mem rm !!! el) = Some el
}.

(** The by-parent map holds no empty list, no list holds two blocks of one
    hash, and every block is filed under the hash of its parent. *)
Definition byParent_ok (bp : gmap CommonHash (list Block)) : Prop :=
  map_Forall (λ p l, l ≠ []
                     ∧ NoDup (hash_of <$> l)
                     ∧ Forall (λ c, Parent (Header c) = p) l) bp.

(** The height of a stored block. *)
Definition height_of (eb : ExtendedBlock) : Z := Height (Header (EBlock eb)).

(** What no request pass changes of a cell: the hash, the body, the peers
    and the time of creation. *)
Definition same_block (pb pb' : PendingBlock) : Prop :=
  hash pb' = hash pb
  ∧ block pb' = block pb
  ∧ peers pb' = peers pb
  ∧ createdAt pb' = createdAt pb.

Global Instance byParent_ok_dec bp : Decision (byParent_ok bp).
Proof. unfold byParent_ok. apply _. Defined.

(** ** Notions for the retries *)

(** What ingest leaves of the cell of a pending block: all but the body
    and the peers. *)
Definition same_request (pb pb' : PendingBlock) : Prop :=
  hash pb' = hash pb
  ∧ header pb' = header pb
  ∧ status pb' = status pb
  ∧ lastUpdate pb' = lastUpdate pb
  ∧ createdAt pb' = createdAt pb.

(** The pending blocks that a pass of [downloadBlockFromHash] with quota
    [q] finds due and asks for: the first [q] due ones, in the order of the
    list. *)
Definition requested (now q : Z) (rm : RequestManager) : list loc :=
  take (Z.to_nat q)
    (filter (λ el, due_by_hash now (mem rm !!! el)) (pendingBlocks rm)).

(** A record of requests: the pending block asked for and the clock
    reading of the pass that asked, oldest first.  [last_ask el asks] is the
    clock reading of the last request for [el]. *)
Fixpoint last_ask (el : loc) (asks : list (Z * loc)) : option Z :=
  match asks with
  | [] => None
  | (t, e) :: rest =>
      match last_ask el rest with
      | Some t' => Some t'
      | None => if decide (e = el) then Some t else None
      end
  end.

(** The runs of the manager from the state [rm0] on: calls of the entry
    points that return, and changes of the chain store by consensus.
    [runs rm0 asks rm] says that such a run leads from [rm0] to [rm] and
    that [asks] records the pending blocks its ticks found due by hash,
    within the quota. *)
Inductive runs (CalculateRootHash : list N → CommonHash) (Intn : nat → nat)
    (rm0 : RequestManager) : list (Z * loc) → RequestManager → Prop :=
  | runs_start :
      runs CalculateRootHash Intn rm0 [] rm0
  | runs_AddHash now x peerIDs asks rm :
      runs CalculateRootHash Intn rm0 asks rm →
      runs CalculateRootHash Intn rm0 asks (AddHash now x peerIDs rm)
  | runs_AddHeader now hd asks rm rm' :
      runs CalculateRootHash Intn rm0 asks rm →
      AddHeader now hd rm = Ok rm' →
      runs CalculateRootHash Intn rm0 asks rm'
  | runs_AddBlock now b asks rm rm' :
      runs CalculateRootHash Intn rm0 asks rm →
      AddBlock CalculateRootHash now b rm = Ok rm' →
      runs CalculateRootHash Intn rm0 asks rm'
  | runs_dumpAllReadyBlocks pendings asks rm rm' :
      runs CalculateRootHash Intn rm0 asks rm →
      range_of rm pendings →
      dumpAllReadyBlocks pendings rm = Ok rm' →
      runs CalculateRootHash Intn rm0 asks rm'
  | runs_tick now tip lfb asks rm rm' :
      runs CalculateRootHash Intn rm0 asks rm →
      tick Intn now tip lfb rm = Ok rm' →
      runs CalculateRootHash Intn rm0
        (asks ++ ((λ el, (now, el)) <$> requested now RequestQuotaPerSecond rm))
        rm'
  | runs_chain c asks rm :
      runs CalculateRootHash Intn rm0 asks rm →
      runs CalculateRootHash Intn rm0 asks (with_chain c rm).

(** * Peer slices

    In the manager above, the peers of a pending block are the list of the
    elements of its slice.  A Go slice is a window on an array, and slices
    can share an array: [NewPendingBlock] keeps the slice it is given, and
    [append] writes into the array of the slice when the capacity allows
    it.  So a write to the peers of one pending block can show in the
    peers of another, which lists cannot do.  This part models the peer
    slices as the windows on shared arrays they are, and [addHash] on
    them.  The properties of peer slices, further down, say when [addHash]
    on lists is exact and what happens when it is not. *)

(** A slice: the array it is a window on, where the window starts, its
    length and its capacity. *)
Record slice : Type := {
  s_array : nat;
  s_offset : nat;
  s_len : nat;
  s_cap : nat
}.

Global Instance slice_eq_dec : EqDecision slice.
Proof. solve_decision. Defined.

(** The nil slice. *)
Global Instance slice_inhabited : Inhabited slice :=
  populate {| s_array := 0; s_offset := 0; s_len := 0; s_cap := 0 |}.

(** The slice in the field [peers] of each pending block, and the arrays:
    those behind the peer slices and those behind the slices of the
    callers. *)
Record peer_store : Type := {
  slices : gmap loc slice;
  arrays : gmap nat (list string)
}.

Section Slices.

Local Open Scope nat_scope.

(** The capacity that the Go runtime chooses for the new array when
    [append] has to make room for [n] elements; it is at least [n]. *)
Variable growslice : nat → nat.

(** The elements of a slice. *)
Definition elements (A : gmap nat (list string)) (s : slice) : list string :=
  take (s_len s) (drop (s_offset s) (A !!! s_array s)).

(** [append(s, x)]: within the capacity the element is written into the
    array of [s]; beyond it the elements are copied to a new array. *)
Definition append (A : gmap nat (list string)) (s : slice) (x : string)
  : slice * gmap nat (list string) :=
  if bool_decide (s_len s < s_cap s) then
    ({| s_array := s_array s; s_offset := s_offset s;
        s_len := S (s_len s); s_cap := s_cap s |},
     <[s_array s := <[s_offset s + s_len s := x]> (A !!! s_array s)]> A)
  else
    let a := fresh (dom A) in
    let c := growslice (S (s_len s)) `max` S (s_len s) in
    ({| s_array := a; s_offset := 0; s_len := S (s_len s); s_cap := c |},
     <[a := elements A s ++ x :: replicate (c - S (s_len s)) ""%string]> A).

(** The loop of [addHash] over [peerIDs], from index [i] on, with [n]
    elements to go: [range] reads [peerIDs[i]] from the array when it
    comes to it, and the inner loop looks for it in the elements of
    [pendingBlock.peers], here [own]. *)
Fixpoint union_loop (n i : nat) (peerIDs own : slice)
    (A : gmap nat (list string)) : slice * gmap nat (list string) :=
  match n with
  | O => (own, A)
  | S n' =>
      let xid := (A !!! s_array peerIDs) !!! (s_offset peerIDs + i) in
      let '(own, A) :=
        if bool_decide (xid ∈ elements A own) then (own, A)
        else append A own xid in
      union_loop n' (S i) peerIDs own A
  end.

(** The cells of the manager hold the elements of the peer slices: after a
    write to an array every cell is read again through its slice. *)
Definition resync (ps : peer_store) (rm : RequestManager) : RequestManager :=
  with_mem
    (map_imap (λ el pb,
       Some (match slices ps !! el with
             | Some s => set_peers (elements (arrays ps) s) pb
             | None => pb
             end)) (mem rm)) rm.

(** [addHash], with the slice [peerIDs] of the caller. *)
Definition addHash_slices (now : Z) (x : CommonHash) (peerIDs : slice)
    (st : RequestManager * peer_store) : RequestManager * peer_store :=
  let '(rm, ps) := st in
  match FindBlock (chain rm) x with
  | Some _ => (rm, ps)
  | None =>
      let '(pendingBlockEl, rm, ps) :=
        match pendingBlocksByHash rm !! x with
        | Some el => (el, rm, ps)
        | None =>
            let el := new_loc (mem rm) in
            (el,
             with_byHash (<[x := el]> (pendingBlocksByHash rm))
               (with_pendingBlocks (pendingBlocks rm ++ [el])
                  (with_mem
                     (<[el := NewPendingBlock now x
                                (elements (arrays ps) peerIDs)]> (mem rm)) rm)),
             {| slices := <[el := peerIDs]> (slices ps); arrays := arrays ps |})
        end in
      let pendingBlock := mem rm !!! pendingBlockEl in
      match block pendingBlock with
      | Some _ => (rm, ps)
      | None =>
          let '(own, A) :=
            union_loop (s_len peerIDs) 0 peerIDs (slices ps !!! pendingBlockEl)
              (arrays ps) in
          let ps := {| slices := <[pendingBlockEl := own]> (slices ps);
                       arrays := A |} in
          (resync ps rm, ps)
      end
  end.

(** A slice lies within its array. *)
Definition wf_slice (A : gmap nat (list string)) (s : slice) : Prop :=
  s_len s ≤ s_cap s ∧ s_offset s + s_cap s ≤ length (A !!! s_array s).

(** Two slices share no part of an array, up to their capacities. *)
Definition apart (s1 s2 : slice) : Prop :=
  s_array s1 ≠ s_array s2
  ∨ s_offset s1 + s_cap s1 ≤ s_offset s2
  ∨ s_offset s2 + s_cap s2 ≤ s_offset s1.

(** The peer slices lie within their arrays, the slices of two pending
    blocks share no part of an array, and the cells hold the elements of
    the slices. *)
Definition slices_ok (rm : RequestManager) (ps : peer_store) : Prop :=
  map_Forall (λ _ s, wf_slice (arrays ps) s) (slices ps)
  ∧ map_Forall (λ el1 s1,
      map_Forall (λ el2 s2, el1 ≠ el2 → apart s1 s2) (slices ps)) (slices ps)
  ∧ map_Forall (λ el pb,
      is_Some (slices ps !! el)
      ∧ peers pb = elements (arrays ps) (slices ps !!! el)) (mem rm).

(** The slice of a caller that shares no part of an array with a peer
    slice. *)
Definition own_slice (ps : peer_store) (peerIDs : slice) : Prop :=
  wf_slice (arrays ps) peerIDs
  ∧ map_Forall (λ _ s, apart peerIDs s) (slices ps).

Global Instance wf_slice_dec A s : Decision (wf_slice A s).
Proof. unfold wf_slice. apply _. Defined.

Global Instance apart_dec s1 s2 : Decision (apart s1 s2).
Proof. unfold apart. apply _. Defined.

Global Instance slices_ok_dec rm ps : Decision (slices_ok rm ps).
Proof. unfold slices_ok. apply _. Defined.

Global Instance own_slice_dec ps peerIDs : Decision (own_slice ps peerIDs).
Proof. unfold own_slice. apply _. Defined.

End Slices.

(** * Concrete data, for the instances of the properties below *)

Definition mkHeader (x : CommonHash) (height : Z) (parent txHash : CommonHash)
  : BlockHeader :=
  {| Hash := x; Height := height; Parent := parent; TxHash := txHash |}.

(** A block without transactions whose header has transaction root 0. *)
Definition mkBlock (x : CommonHash) (height : Z) (parent : CommonHash) : Block :=
  {| Header := mkHeader x height parent 0%N; Txs := [] |}.

Definition mkExtended (b : Block) (st : BlockStatus) : ExtendedBlock :=
  {| EBlock := b; Status := st; Children := [] |}.

(** A root function: the sum of the transactions, 0 for none. *)
Definition root_sum (txs : list N) : CommonHash := foldr N.add 0%N txs.

(** The random choice that always takes the first peer. *)
Definition Intn_first (n : nat) : nat := O.

(** A chain store holding block 100 at height 100, executed. *)
Definition chain100 : gmap CommonHash ExtendedBlock :=
  {[ 100%N := mkExtended (mkBlock 100%N 100 99%N) BlockStatusProcessed ]}.

Definition tip100 : Block := mkBlock 100%N 100 99%N.
Definition lfb100 : ExtendedBlock := mkExtended tip100 BlockStatusProcessed.

(** Blocks 101, 102 and 103 on top of block 100. *)
Definition b101 : Block := mkBlock 101%N 101 100%N.
Definition b102 : Block := mkBlock 102%N 102 101%N.
Definition b103 : Block := mkBlock 103%N 103 102%N.

(** The manager an outcome leaves, [rm] when there is none. *)
Definition or_else (rm : RequestManager) (r : res RequestManager)
  : RequestManager :=
  match r with
  | Ok rm' => rm'
  | _ => rm
  end.

(** *** For the ingest handlers *)

(** A chain store that holds blocks 100 and 101, both executed. *)
Definition chain101 : gmap CommonHash ExtendedBlock :=
  <[101%N := mkExtended b101 BlockStatusProcessed]> chain100.

(** A fresh manager that was handed block 101: the block is in the chain
    store, accepted and not yet executed. *)
Definition rm_after_101 : RequestManager :=
  or_else (NewRequestManager chain100)
    (AddBlock root_sum 0 b101 (NewRequestManager chain100)).

(** A manager with one pending block, 103, advertised by peer P1. *)
Definition rm_hash103 : RequestManager :=
  AddHash 0 103%N ["P1"%string] (NewRequestManager chain100).

(** One second later a tick has asked P1 for block 103 ... *)
Definition rm_asked103 : RequestManager :=
  or_else rm_hash103 (tick Intn_first second tip100 lfb100 rm_hash103).

(** ... and P1 has answered; the parent, 102, is not known yet. *)
Definition rm_answered103 : RequestManager :=
  or_else rm_asked103 (AddBlock root_sum (2 * second) b103 rm_asked103).

(** Without an answer, the tick a second later sends nothing, the tick at
    12 s asks again, and the tick at 301 s drops the block. *)
Definition rm_waiting103 : RequestManager :=
  or_else rm_asked103 (tick Intn_first (2 * second) tip100 lfb100 rm_asked103).

Definition rm_retried103 : RequestManager :=
  or_else rm_waiting103
    (tick Intn_first (12 * second) tip100 lfb100 rm_waiting103).

Definition rm_expired103 : RequestManager :=
  or_else rm_retried103
    (tick Intn_first (301 * second) tip100 lfb100 rm_retried103).

(** A manager whose pending block 101 has a header with transaction
    root 7. *)
Definition pb101_with_header : PendingBlock :=
  {| hash := 101%N;
     block := None;
     header := Some (mkHeader 101%N 101 100%N 7%N);
     peers := ["P1"%string];
     lastUpdate := 0;
     createdAt := 0;
     status := RequestToSendBodyReq |}.

Definition rm_header101 : RequestManager :=
  {| quota := RequestQuotaPerSecond;
     lastInventoryRequest := 0;
     mem := {[ 0%nat := pb101_with_header ]};
     pendingBlocks := [0%nat];
     pendingBlocksByHash := {[ 101%N := 0%nat ]};
     pendingBlocksByParent := ∅;
     pendingBlocksWithHeader := [0%nat];
     chain := chain100;
     handedToChain := [];
     passedDown := [];
     inventoryCalls := [];
     dataCalls := [] |}.

(** A chain store in which the last finalized block, 100, has the child
    101, accepted and not yet executed. *)
Definition lfb100_with_child : ExtendedBlock :=
  {| EBlock := tip100; Status := BlockStatusProcessed; Children := [101%N] |}.

Definition chain_to_resume : gmap CommonHash ExtendedBlock :=
  {[ 100%N := lfb100_with_child;
     101%N := mkExtended b101 BlockStatusPending ]}.

(** *** For the quota *)

(** [n] more pending blocks, 200, 201, ..., each advertised by P1. *)
Fixpoint add_hashes (n : nat) (rm : RequestManager) : RequestManager :=
  match n with
  | O => rm
  | S k => AddHash 0 (N.of_nat (200 + k)) ["P1"%string] (add_hashes k rm)
  end.

(** A hundred pending blocks on a fresh manager. *)
Definition rm_hundred : RequestManager :=
  add_hashes 100 (NewRequestManager chain100).

(** One pending block with a header, in the header heap, and a hundred
    pending blocks without. *)
Definition rm_busy : RequestManager := add_hashes 100 rm_header101.

(** *** For promotion *)

(** Blocks 103, 102 and 101 arrive in this order at a manager whose chain
    store is empty; every one of them is parked. *)
Definition rm_orphans : RequestManager :=
  or_else (NewRequestManager ∅)
    (rm ⇐ AddBlock root_sum 0 b103 (NewRequestManager ∅) ;;
     rm ⇐ AddBlock root_sum 0 b102 rm ;;
     AddBlock root_sum 0 b101 rm).

(** Then block 100 comes into the chain store by another way, executed ... *)
Definition rm_ready : RequestManager := with_chain chain100 rm_orphans.

(** ... or accepted and not yet executed. *)
Definition chain100_pending : gmap CommonHash ExtendedBlock :=
  {[ 100%N := mkExtended tip100 BlockStatusPending ]}.

Definition rm_not_ready : RequestManager :=
  with_chain chain100_pending rm_orphans.

(** The elements of [byHash] in the order of the map. *)
Definition in_map_order (rm : RequestManager) : list loc :=
  (map_to_list (pendingBlocksByHash rm)).*2.

(** Closes a goal between closed terms by evaluation. *)
Ltac by_evaluation := vm_compute; first [reflexivity | exact I | discriminate].

(** Closes a decidable closed goal by evaluating its decision. *)
Ltac by_decision :=
  lazymatch goal with
  | |- ?P => apply (@bool_decide_unpack P _); vm_compute; exact I
  end.

(** *** For the further properties *)

(** The orphans of [rm_orphans] as they arrive: after 103, and after 102. *)
Definition rm_orphan103 : RequestManager :=
  or_else (NewRequestManager ∅)
    (AddBlock root_sum 0 b103 (NewRequestManager ∅)).

Definition rm_orphan102 : RequestManager :=
  or_else rm_orphan103 (AddBlock root_sum 0 b102 rm_orphan103).

(** The pass of [downloadBlockFromHeader] over [rm_header101] at 1 s. *)
Definition rm_body_asked101 : RequestManager :=
  or_else rm_header101
    (downloadBlockFromHeader Intn_first second 100 rm_header101).

(** [rm_hash103] four seconds after its start: an inventory request is due. *)
Definition rm_inventory103 : RequestManager :=
  or_else rm_hash103
    (tryToDownload Intn_first (4 * second) tip100 lfb100 rm_hash103).

(** *** For the peer slices *)

(** A runtime that doubles. *)
Definition growslice_double (n : nat) : nat := (2 * n)%nat.

(** The slice of the advertisement behind [rm_hash103], and the slice of a
    second advertisement, each on an array of its own. *)
Definition peers_P1 : slice :=
  {| s_array := 0; s_offset := 0; s_len := 1; s_cap := 1 |}.

Definition peers_P2_P3 : slice :=
  {| s_array := 1; s_offset := 0; s_len := 2; s_cap := 2 |}.

Definition ps_hash103 : peer_store :=
  {| slices := {[ 0%nat := peers_P1 ]};
     arrays := {[ 0%nat := ["P1"%string]; 1%nat := ["P2"; "P3"]%string ]} |}.

(** A caller that makes a slice of length 1 with room for 4 and advertises
    two hashes with it, 201 and 202; then P2 advertises 201. *)
Definition peers_shared : slice :=
  {| s_array := 0; s_offset := 0; s_len := 1; s_cap := 4 |}.

Definition peers_P2 : slice :=
  {| s_array := 1; s_offset := 0; s_len := 1; s_cap := 1 |}.

Definition peers_P3 : slice :=
  {| s_array := 2; s_offset := 0; s_len := 1; s_cap := 1 |}.

Definition ps_callers : peer_store :=
  {| slices := ∅;
     arrays := {[ 0%nat := ["P1"; ""; ""; ""]%string;
                  1%nat := ["P2"%string];
                  2%nat := ["P3"%string] ]} |}.

Definition st_shared : RequestManager * peer_store :=
  addHash_slices growslice_double 0 201%N peers_P2
    (addHash_slices growslice_double 0 202%N peers_shared
       (addHash_slices growslice_double 0 201%N peers_shared
          (NewRequestManager chain100, ps_callers))).

(** * Properties *)

(** ** The inventory requester *)

Lemma to_uint64_small z : 0 ≤ z < 2 ^ 64 → to_uint64 z = z.
Proof. intros Hz. unfold to_uint64. by rewrite Z.mod_small. Qed.

Lemma to_int_range z : - 2 ^ 63 ≤ to_int z < 2 ^ 63.
Proof.
  unfold to_int.
  pose proof (Z.mod_pos_bound (z + 2 ^ 63) (2 ^ 64)) as Hb. lia.
Qed.

(** A pass that does not break goes on with a step that is at least 1 and
    at most the index. *)
Lemma locator_step_Some tipHeight index step step' :
  - 2 ^ 63 ≤ step < 2 ^ 63 →
  locator_step tipHeight index step = Some step' →
  1 ≤ step' ≤ index ∧ - 2 ^ 63 ≤ step' < 2 ^ 63.
Proof.
  intros Hstep. unfold locator_step.
  set (s := if bool_decide _ then _ else _).
  assert (- 2 ^ 63 ≤ s < 2 ^ 63) as Hs.
  { subst s. case_bool_decide; [apply to_int_range | done]. }
  clearbody s.
  destruct (bool_decide (to_uint64 s > index)) eqn:Hgt;
    destruct (bool_decide (s <= 0)) eqn:Hle; simpl; try done.
  intros [= <-].
  apply bool_decide_eq_false in Hgt, Hle.
  rewrite to_uint64_small in Hgt by lia. lia.
Qed.

Lemma locator_loop_total fuel c tipHeight lfbHeight index step starts :
  0 ≤ index < 2 ^ 64 →
  - 2 ^ 63 ≤ step < 2 ^ 63 →
  (Z.to_nat index < fuel)%nat →
  ∃ starts', locator_loop fuel c tipHeight lfbHeight index step starts = Ok starts'.
Proof.
  revert index step starts.
  induction fuel as [|fuel IH]; intros index step starts Hi Hs Hf; [lia|].
  simpl. case_bool_decide; [|by eexists].
  destruct (locator_step tipHeight index step) as [step'|] eqn:Hstep;
    [|by eexists].
  apply locator_step_Some in Hstep as [Hs1 Hs2]; [|done].
  rewrite (to_uint64_small step') by lia.
  rewrite (to_uint64_small (index - step')) by lia.
  apply IH; lia.
Qed.

Lemma buildInventoryRequest_returns
    (c : gmap CommonHash ExtendedBlock) (tip : Block) (lfb : ExtendedBlock) :
  0 ≤ Height (Header tip) < 2 ^ 64 →
  ∃ starts, buildInventoryRequest c tip lfb = Ok (starts ++ [Hash (Header (EBlock lfb))]).
Proof.
  intros Htip. unfold buildInventoryRequest, buildInventoryRequest_fuel.
  destruct (locator_loop_total (S (Z.to_nat (Height (Header tip)))) c
              (Height (Header tip)) (Height (Header (EBlock lfb)))
              (Height (Header tip)) 1 []) as [starts Hl]; [done|lia|lia|].
  rewrite Hl. simpl. by eexists.
Qed.

(** C10: [buildInventoryRequest] returns for every tip and last finalized
    block, because a pass of the locator loop that does not break subtracts
    from the index a step that is at least 1 and at most the index: the
    index strictly decreases and does not wrap around. *)
Theorem buildInventoryRequest_terminates
    (c : gmap CommonHash ExtendedBlock) (tip : Block) (lfb : ExtendedBlock) :
  0 ≤ Height (Header tip) < 2 ^ 64 →
  (∃ starts, buildInventoryRequest c tip lfb = Ok starts)
  ∧ (∀ index step step',
       0 ≤ index < 2 ^ 64 →
       - 2 ^ 63 ≤ step < 2 ^ 63 →
       locator_step (Height (Header tip)) index step = Some step' →
       1 ≤ step'
       ∧ to_uint64 (index - to_uint64 step') = index - step'
       ∧ 0 ≤ index - step' < index
       ∧ - 2 ^ 63 ≤ step' < 2 ^ 63).
Proof.
  intros Htip. split.
  - destruct (buildInventoryRequest_returns c tip lfb Htip) as [starts ->].
    by eexists.
  - intros index step step' Hi Hs Hstep.
    apply locator_step_Some in Hstep as [Hs1 Hs2]; [|done].
    rewrite (to_uint64_small step') by lia.
    rewrite (to_uint64_small (index - step')) by lia. lia.
Qed.

(** C9: when the tip is not above the last finalized block the locator list
    is exactly the hash of the last finalized block, and in every case that
    hash is the last element of the list. *)
Theorem buildInventoryRequest_locator
    (c : gmap CommonHash ExtendedBlock) (tip : Block) (lfb : ExtendedBlock) :
  0 ≤ Height (Header tip) < 2 ^ 64 →
  (Height (Header tip) ≤ Height (Header (EBlock lfb)) →
   buildInventoryRequest c tip lfb = Ok [Hash (Header (EBlock lfb))])
  ∧ (∃ starts, buildInventoryRequest c tip lfb = Ok starts
               ∧ last starts = Some (Hash (Header (EBlock lfb)))).
Proof.
  intros Htip. split.
  - intros Hle. unfold buildInventoryRequest, buildInventoryRequest_fuel. simpl.
    rewrite bool_decide_eq_false_2 by lia. done.
  - destruct (buildInventoryRequest_returns c tip lfb Htip) as [starts ->].
    eexists. split; [done|]. by rewrite last_snoc.
Qed.

(** ** Ingest *)

Section Properties.

Variable CalculateRootHash : list N → CommonHash.
Variable Intn : nat → nat.


(** *** The peers loop of [addHash] *)

Lemma add_peers_incl ps peerIDs xid :
  xid ∈ ps → xid ∈ add_peers ps peerIDs.
Proof.
  revert ps. induction peerIDs as [|p peerIDs IH]; intros ps Hin; [done|].
  simpl. apply IH. case_bool_decide; [done|]. set_solver.
Qed.

Lemma add_peers_known ps peerIDs :
  (∀ xid, xid ∈ peerIDs → xid ∈ ps) → add_peers ps peerIDs = ps.
Proof.
  revert ps. induction peerIDs as [|p peerIDs IH]; intros ps Hall; [done|].
  simpl. rewrite bool_decide_eq_true_2 by (apply Hall; set_solver).
  apply IH. intros xid Hin. apply Hall. set_solver.
Qed.

Lemma add_peers_all ps peerIDs xid :
  xid ∈ peerIDs → xid ∈ add_peers ps peerIDs.
Proof.
  revert ps. induction peerIDs as [|p peerIDs IH]; intros ps Hin.
  - by apply elem_of_nil in Hin.
  - simpl. apply elem_of_cons in Hin as [->|Hin]; [|by apply IH].
    apply add_peers_incl. case_bool_decide; [done|]. set_solver.
Qed.

Lemma add_peers_idem ps peerIDs :
  add_peers (add_peers ps peerIDs) peerIDs = add_peers ps peerIDs.
Proof. apply add_peers_known. intros xid. apply add_peers_all. Qed.

Lemma add_peers_NoDup ps peerIDs : NoDup ps → NoDup (add_peers ps peerIDs).
Proof.
  revert ps. induction peerIDs as [|p peerIDs IH]; intros ps Hnd; [done|].
  simpl. apply IH. case_bool_decide; [done|].
  apply NoDup_app. split_and!; [done| |apply NoDup_singleton].
  intros x Hx Hx'. apply list_elem_of_singleton in Hx'. by subst.
Qed.

(** *** [addHash] *)

Lemma addHash_stored now x peerIDs rm :
  is_Some (FindBlock (chain rm) x) → addHash now x peerIDs rm = rm.
Proof. intros [eb Heb]. unfold addHash. by rewrite Heb. Qed.

(** What [addHash] does when the hash is not in the chain store, case by
    case. *)
Lemma addHash_new now x peerIDs rm :
  FindBlock (chain rm) x = None →
  pendingBlocksByHash rm !! x = None →
  addHash now x peerIDs rm =
    with_byHash (<[x := new_loc (mem rm)]> (pendingBlocksByHash rm))
      (with_pendingBlocks (pendingBlocks rm ++ [new_loc (mem rm)])
         (with_mem (<[new_loc (mem rm) := NewPendingBlock now x peerIDs]> (mem rm)) rm)).
Proof.
  intros Hc Hh. unfold addHash. rewrite Hc, Hh. simpl.
  rewrite lookup_total_insert_eq. simpl.
  rewrite add_peers_known by done.
  rewrite insert_insert_eq. done.
Qed.

Lemma addHash_known now x peerIDs rm el :
  FindBlock (chain rm) x = None →
  pendingBlocksByHash rm !! x = Some el →
  addHash now x peerIDs rm =
    match block (mem rm !!! el) with
    | Some _ => rm
    | None =>
        with_mem (<[el := set_peers (add_peers (peers (mem rm !!! el)) peerIDs)
                            (mem rm !!! el)]> (mem rm)) rm
    end.
Proof. intros Hc Hh. unfold addHash. by rewrite Hc, Hh. Qed.

Lemma addHash_idem now now' x peerIDs rm :
  addHash now' x peerIDs (addHash now x peerIDs rm) = addHash now x peerIDs rm.
Proof.
  destruct (FindBlock (chain rm) x) as [eb|] eqn:Hc.
  { rewrite (addHash_stored now) by (rewrite Hc; eauto).
    apply addHash_stored. rewrite Hc; eauto. }
  destruct (pendingBlocksByHash rm !! x) as [el|] eqn:Hh.
  - rewrite (addHash_known now) with (el := el) by done.
    destruct (block (mem rm !!! el)) eqn:Hb.
    + rewrite (addHash_known now') with (el := el) by done. by rewrite Hb.
    + rewrite (addHash_known now') with (el := el) by done.
      simpl. rewrite lookup_total_insert_eq. simpl. rewrite Hb.
      rewrite add_peers_idem. by rewrite insert_insert_eq.
  - rewrite (addHash_new now) by done.
    rewrite (addHash_known now') with (el := new_loc (mem rm));
      [|done|by simpl; rewrite lookup_insert_eq].
    simpl. rewrite lookup_total_insert_eq. simpl.
    rewrite add_peers_known by done.
    unfold with_mem; simpl. by rewrite insert_insert_eq.
Qed.

(** *** [AddHeader] *)

Lemma AddHeader_stored now hd rm :
  is_Some (FindBlock (chain rm) (Hash hd)) → AddHeader now hd rm = Ok rm.
Proof. intros [eb Heb]. unfold AddHeader. by rewrite Heb. Qed.

(** The push at the end of [AddHeader] hands the header, not the
    [PendingBlock], to the heap, whose type assertion then fails. *)
Lemma AddHeader_not_stored now hd rm :
  FindBlock (chain rm) (Hash hd) = None → AddHeader now hd rm = Panic.
Proof. intros Hc. unfold AddHeader. by rewrite Hc. Qed.

(** *** The chain store *)

Lemma chain_AddBlock_lookup c b : is_Some (chain_AddBlock c b !! Hash (Header b)).
Proof.
  unfold chain_AddBlock. destruct (c !! Hash (Header b)) eqn:Hc.
  - by rewrite Hc.
  - rewrite lookup_insert_eq. eauto.
Qed.

Lemma chain_AddBlock_mono c b h eb :
  c !! h = Some eb → chain_AddBlock c b !! h = Some eb.
Proof.
  intros Hh. unfold chain_AddBlock. destruct (c !! Hash (Header b)) eqn:Hc; [done|].
  rewrite lookup_insert_ne; [done|]. intros <-. congruence.
Qed.

Lemma chain_AddBlock_inv c b h eb :
  chain_AddBlock c b !! h = Some eb →
  c !! h = Some eb ∨ IsPending (Status eb) = true.
Proof.
  unfold chain_AddBlock. destruct (c !! Hash (Header b)) eqn:Hc; [by left|].
  destruct (decide (Hash (Header b) = h)) as [<-|Hne].
  - rewrite lookup_insert_eq. intros [= <-]. by right.
  - rewrite lookup_insert_ne by done. by left.
Qed.

(** *** Promotion *)

Lemma parked_delete (m : gmap CommonHash (list Block)) h l :
  m !! h = Some l → parked m = (length l + parked (delete h m))%nat.
Proof.
  intros Hl. unfold parked.
  rewrite <-(map_to_list_delete m h l Hl). done.
Qed.

(** The loop body of [dumpReadyBlocks], written without its case
    distinctions. *)
Lemma dump_step_eq b queue rm :
  dump_step b queue rm =
    (queue ++ default [] (pendingBlocksByParent rm !! Hash (Header b)),
     store_and_pass b
       (with_byHash (delete (Hash (Header b)) (pendingBlocksByHash rm))
          (with_pendingBlocks
             (match pendingBlocksByHash rm !! Hash (Header b) with
              | Some el => list_Remove el (pendingBlocks rm)
              | None => pendingBlocks rm
              end)
             (with_byParent
                (delete (Hash (Header b)) (pendingBlocksByParent rm)) rm)))).
Proof.
  unfold dump_step.
  destruct (pendingBlocksByParent rm !! Hash (Header b)) as [children|] eqn:Hp;
    simpl.
  - destruct (pendingBlocksByHash rm !! Hash (Header b)) as [el|] eqn:Hh; simpl.
    + done.
    + rewrite (delete_id (pendingBlocksByHash rm)) by done. by destruct rm.
  - rewrite app_nil_r.
    rewrite (delete_id (pendingBlocksByParent rm)) by done.
    destruct (pendingBlocksByHash rm !! Hash (Header b)) as [el|] eqn:Hh; simpl.
    + by destruct rm.
    + rewrite (delete_id (pendingBlocksByHash rm)) by done. by destruct rm.
Qed.

Lemma dump_step_measure b queue rm :
  (length (dump_step b queue rm).1
   + parked (pendingBlocksByParent (dump_step b queue rm).2)
   = length queue + parked (pendingBlocksByParent rm))%nat.
Proof.
  rewrite dump_step_eq. simpl. rewrite length_app.
  destruct (pendingBlocksByParent rm !! Hash (Header b)) as [children|] eqn:Hp;
    simpl.
  - rewrite (parked_delete _ _ _ Hp). lia.
  - rewrite delete_id by done. lia.
Qed.

(** The loop of [dumpReadyBlocks] ends, and what holds of the queue and the
    manager before a pass and is kept by the pass holds of the manager it
    ends with. *)
Lemma dump_loop_inv (P : list Block → RequestManager → Prop) fuel queue rm :
  (∀ b q r, P (b :: q) r → P (dump_step b q r).1 (dump_step b q r).2) →
  P queue rm →
  (length queue + parked (pendingBlocksByParent rm) ≤ fuel)%nat →
  ∃ rm', dump_loop fuel queue rm = Ok rm' ∧ P [] rm'.
Proof.
  intros Hstep. revert queue rm.
  induction fuel as [|fuel IH]; intros queue rm HP Hf.
  - destruct queue; [|simpl in Hf; lia]. simpl. eauto.
  - destruct queue as [|b rest]; [simpl; eauto|].
    simpl. destruct (dump_step b rest rm) as [queue' rm'] eqn:Hd.
    apply IH.
    + specialize (Hstep b rest rm HP). by rewrite Hd in Hstep.
    + pose proof (dump_step_measure b rest rm) as Hm. rewrite Hd in Hm.
      simpl in Hm, Hf. lia.
Qed.

Lemma dumpReadyBlocks_inv (P : list Block → RequestManager → Prop) b rm :
  (∀ b q r, P (b :: q) r → P (dump_step b q r).1 (dump_step b q r).2) →
  P [b] rm →
  ∃ rm', dumpReadyBlocks b rm = Ok rm' ∧ P [] rm'.
Proof.
  intros Hstep HP. apply dump_loop_inv; [done|done|]. simpl. lia.
Qed.

(** Promotion of [b] hands [b] first, and then only further blocks, to the
    chain store and to consensus, and touches nothing but the indexes and
    the chain store. *)
Lemma dumpReadyBlocks_frame b rm :
  ∃ rm' l,
    dumpReadyBlocks b rm = Ok rm'
    ∧ handedToChain rm' = handedToChain rm ++ b :: l
    ∧ passedDown rm' = passedDown rm ++ b :: l
    ∧ mem rm' = mem rm
    ∧ pendingBlocksWithHeader rm' = pendingBlocksWithHeader rm
    ∧ dataCalls rm' = dataCalls rm
    ∧ inventoryCalls rm' = inventoryCalls rm
    ∧ quota rm' = quota rm
    ∧ lastInventoryRequest rm' = lastInventoryRequest rm.
Proof.
  destruct (dumpReadyBlocks_inv
    (λ q r, ∃ l, (q = [b] ∧ r = rm ∧ l = []) ∨
       (handedToChain r = handedToChain rm ++ b :: l
        ∧ passedDown r = passedDown rm ++ b :: l
        ∧ mem r = mem rm
        ∧ pendingBlocksWithHeader r = pendingBlocksWithHeader rm
        ∧ dataCalls r = dataCalls rm
        ∧ inventoryCalls r = inventoryCalls rm
        ∧ quota r = quota rm
        ∧ lastInventoryRequest r = lastInventoryRequest rm)) b rm)
    as (rm' & Hrun & l & Hl).
  - intros c q r [l [(Hq & -> & ->)|(Ha & Hp & Hrest)]].
    + injection Hq as -> ->. exists []. right.
      rewrite dump_step_eq. simpl. done.
    + exists (l ++ [c]). right. rewrite dump_step_eq. simpl.
      rewrite Ha, Hp, <-!app_assoc. simpl. done.
  - exists []. by left.
  - destruct Hl as [(Hq & _)|Hl]; [done|]. exists rm', l. done.
Qed.

(** *** [AddBlock] *)

Lemma addHash_frame now x peerIDs rm :
  same_collaborators rm (addHash now x peerIDs rm)
  ∧ pendingBlocksByParent (addHash now x peerIDs rm) = pendingBlocksByParent rm
  ∧ pendingBlocksWithHeader (addHash now x peerIDs rm) = pendingBlocksWithHeader rm.
Proof.
  unfold addHash, same_collaborators.
  destruct (FindBlock (chain rm) x); [done|].
  destruct (pendingBlocksByHash rm !! x) as [el|]; simpl.
  - by destruct (block (mem rm !!! el)).
  - rewrite lookup_total_insert_eq. done.
Qed.

Lemma ensure_pending_frame now x rm :
  same_collaborators rm (ensure_pending now x rm)
  ∧ pendingBlocksByParent (ensure_pending now x rm) = pendingBlocksByParent rm
  ∧ pendingBlocksWithHeader (ensure_pending now x rm) = pendingBlocksWithHeader rm.
Proof.
  unfold ensure_pending. destruct (pendingBlocksByHash rm !! x).
  - by unfold same_collaborators.
  - apply addHash_frame.
Qed.

Lemma ensure_pending_known now x rm el :
  pendingBlocksByHash rm !! x = Some el → ensure_pending now x rm = rm.
Proof. intros Hh. unfold ensure_pending. by rewrite Hh. Qed.

Lemma ensure_pending_root_mismatch now b rm :
  root_mismatch CalculateRootHash b (ensure_pending now (Hash (Header b)) rm) = root_mismatch CalculateRootHash b rm.
Proof.
  unfold ensure_pending.
  destruct (pendingBlocksByHash rm !! Hash (Header b)) as [el|] eqn:Hh; [done|].
  unfold root_mismatch at 2. rewrite Hh.
  destruct (FindBlock (chain rm) (Hash (Header b))) as [eb|] eqn:Hc.
  - rewrite addHash_stored by (rewrite Hc; eauto).
    unfold root_mismatch. by rewrite Hh.
  - rewrite addHash_new by done. unfold root_mismatch. simpl.
    rewrite lookup_insert_eq, lookup_total_insert_eq. done.
Qed.

Lemma check_body_mismatch b rm :
  root_mismatch CalculateRootHash b rm = true → check_body CalculateRootHash b rm = None.
Proof.
  unfold root_mismatch, check_body.
  destruct (pendingBlocksByHash rm !! Hash (Header b)) as [el|]; [|done].
  destruct (header (mem rm !!! el)) as [hd|]; [|done].
  by intros ->.
Qed.

Lemma check_body_pass b rm :
  root_mismatch CalculateRootHash b rm = false →
  ∃ rm', check_body CalculateRootHash b rm = Some rm'
         ∧ same_collaborators rm rm'
         ∧ pendingBlocksByParent rm' = pendingBlocksByParent rm
         ∧ pendingBlocksWithHeader rm' = pendingBlocksWithHeader rm
         ∧ pendingBlocksByHash rm' = pendingBlocksByHash rm
         ∧ pendingBlocks rm' = pendingBlocks rm.
Proof.
  unfold root_mismatch, check_body, same_collaborators.
  destruct (pendingBlocksByHash rm !! Hash (Header b)) as [el|];
    [|by eexists].
  destruct (header (mem rm !!! el)) as [hd|]; [|by eexists].
  intros ->. by eexists.
Qed.

(** When the body passes the check and the parent is in the chain store,
    [AddBlock] promotes the block, whatever the status of the parent. *)
Lemma AddBlock_promotes now b rm :
  root_mismatch CalculateRootHash b rm = false →
  is_Some (FindBlock (chain rm) (Parent (Header b))) →
  ∃ rm' l,
    AddBlock CalculateRootHash now b rm = Ok rm'
    ∧ handedToChain rm' = handedToChain rm ++ b :: l
    ∧ passedDown rm' = passedDown rm ++ b :: l.
Proof.
  intros Hm [eb Hp]. unfold AddBlock.
  rewrite <-(ensure_pending_root_mismatch now) in Hm.
  destruct (ensure_pending_frame now (Hash (Header b)) rm)
    as ((Hc1 & Ha1 & Hd1 & _) & _).
  destruct (check_body_pass _ _ Hm) as (rm2 & -> & (Hc2 & Ha2 & Hd2 & _) & _).
  rewrite Hc2, Hc1, Hp.
  destruct (dumpReadyBlocks_frame b rm2) as (rm' & l & -> & Ha & Hd & _).
  exists rm', l. split; [done|]. rewrite Ha, Hd. by rewrite Ha2, Hd2, Ha1, Hd1.
Qed.

Lemma AddBlock_parks now b rm :
  root_mismatch CalculateRootHash b rm = false →
  FindBlock (chain rm) (Parent (Header b)) = None →
  ∃ rm' l,
    AddBlock CalculateRootHash now b rm = Ok rm'
    ∧ pendingBlocksByParent rm' !! Parent (Header b) = Some l
    ∧ Exists (λ child, Hash (Header child) = Hash (Header b)) l
    ∧ passedDown rm' = passedDown rm.
Proof.
  intros Hm Hp. unfold AddBlock.
  rewrite <-(ensure_pending_root_mismatch now) in Hm.
  destruct (ensure_pending_frame now (Hash (Header b)) rm)
    as ((Hc1 & Ha1 & Hd1 & _) & _).
  destruct (check_body_pass _ _ Hm) as (rm2 & -> & (Hc2 & Ha2 & Hd2 & _) & _).
  rewrite Hc2, Hc1, Hp.
  eexists _, _. split; [done|]. unfold park. simpl.
  rewrite lookup_insert_eq. split; [done|]. split; [|by rewrite Hd2, Hd1].
  case_bool_decide as Hex; [done|].
  apply Exists_app. right. by apply Exists_cons_hd.
Qed.

(** C7: a body whose transaction root disagrees with the header its pending
    block holds is dropped: [AddBlock] returns and the whole manager,
    collaborators included, is as before. *)
Theorem AddBlock_root_mismatch now b rm el hd :
  pendingBlocksByHash rm !! Hash (Header b) = Some el →
  header (mem rm !!! el) = Some hd →
  CalculateRootHash (Txs b) ≠ TxHash hd →
  AddBlock CalculateRootHash now b rm = Ok rm.
Proof.
  intros Hh Hhd Hne. unfold AddBlock.
  rewrite (ensure_pending_known _ _ _ _ Hh).
  rewrite check_body_mismatch; [done|].
  unfold root_mismatch. rewrite Hh, Hhd. by apply bool_decide_eq_true_2.
Qed.

Lemma dumpReadyBlocks_byParent_sub b rm rm' :
  dumpReadyBlocks b rm = Ok rm' →
  pendingBlocksByParent rm' ⊆ pendingBlocksByParent rm.
Proof.
  intros Hrun.
  destruct (dumpReadyBlocks_inv
    (λ _ r, pendingBlocksByParent r ⊆ pendingBlocksByParent rm) b rm)
    as (rm1 & Hrun1 & Hsub); [|done|].
  2:{ rewrite Hrun in Hrun1. by injection Hrun1 as <-. }
  intros c q r Hsub. rewrite dump_step_eq. simpl.
  etrans; [apply delete_subseteq|done].
Qed.

(** C3, amended: when the body passes the check against the header,
    [AddBlock] promotes the block if and only if its parent is in the chain
    store, whatever the status of the stored parent.  With the parent
    stored, the block is handed to the chain store and to consensus, and
    nothing is added to [byParent]; with the parent not stored, nothing is
    handed over and the block is put at the end of the list that
    [byParent] holds for its parent, unless that list has a block of its
    hash already. *)
Theorem AddBlock_promotes_or_parks now b rm :
  root_mismatch CalculateRootHash b rm = false →
  ∃ rm',
    AddBlock CalculateRootHash now b rm = Ok rm'
    ∧ (is_Some (FindBlock (chain rm) (Parent (Header b))) →
       (∃ l, handedToChain rm' = handedToChain rm ++ b :: l
             ∧ passedDown rm' = passedDown rm ++ b :: l)
       ∧ pendingBlocksByParent rm' ⊆ pendingBlocksByParent rm)
    ∧ (FindBlock (chain rm) (Parent (Header b)) = None →
       handedToChain rm' = handedToChain rm
       ∧ passedDown rm' = passedDown rm
       ∧ chain rm' = chain rm
       ∧ pendingBlocksByParent rm'
         = <[Parent (Header b) :=
               let children :=
                 default [] (pendingBlocksByParent rm !! Parent (Header b)) in
               if bool_decide
                    (Exists (λ child, Hash (Header child) = Hash (Header b))
                       children)
               then children else children ++ [b]]>
             (pendingBlocksByParent rm)).
Proof.
  intros Hm. unfold AddBlock.
  rewrite <-(ensure_pending_root_mismatch now) in Hm.
  destruct (ensure_pending_frame now (Hash (Header b)) rm)
    as ((Hc1 & Ha1 & Hd1 & _) & Hbp1 & _).
  destruct (check_body_pass _ _ Hm)
    as (rm2 & -> & (Hc2 & Ha2 & Hd2 & _) & Hbp2 & _).
  rewrite Hc2, Hc1.
  destruct (FindBlock (chain rm) (Parent (Header b))) as [eb|] eqn:Hp.
  - destruct (dumpReadyBlocks_frame b rm2) as (rm' & l & Hrun & Ha & Hd & _).
    exists rm'. split; [done|]. split; [|done]. intros _. split.
    + exists l. rewrite Ha, Hd. by rewrite Ha2, Hd2, Ha1, Hd1.
    + apply dumpReadyBlocks_byParent_sub in Hrun. by rewrite Hbp2, Hbp1 in Hrun.
  - eexists. split; [done|]. split; [by intros [? ?]|]. intros _.
    unfold park. simpl. rewrite Hbp2, Hbp1. split_and!; congruence.
Qed.

(** C2, as the code has it: [AddHeader] with a header whose hash is not in
    the chain store panics in [HeaderHeap.Push]; nothing is pushed. *)
Theorem AddHeader_panics now hd rm :
  FindBlock (chain rm) (Hash hd) = None → AddHeader now hd rm = Panic.
Proof. apply AddHeader_not_stored. Qed.

(** C4, amended: for a block already in the chain store [AddHash] and
    [AddHeader] are no-ops.  [AddBlock] is not: unless its body is dropped
    by the check against a header, the block is promoted again when its
    parent is in the chain store, and parked under its parent otherwise. *)
Theorem ingest_of_stored now rm x eb :
  FindBlock (chain rm) x = Some eb →
  (∀ peerIDs, AddHash now x peerIDs rm = rm)
  ∧ (∀ hd, Hash hd = x → AddHeader now hd rm = Ok rm)
  ∧ (∀ b, Hash (Header b) = x → root_mismatch CalculateRootHash b rm = false →
       (is_Some (FindBlock (chain rm) (Parent (Header b))) →
        ∃ rm' l, AddBlock CalculateRootHash now b rm = Ok rm'
                 ∧ handedToChain rm' = handedToChain rm ++ b :: l
                 ∧ passedDown rm' = passedDown rm ++ b :: l)
       ∧ (FindBlock (chain rm) (Parent (Header b)) = None →
          ∃ rm' l, AddBlock CalculateRootHash now b rm = Ok rm'
                   ∧ pendingBlocksByParent rm' !! Parent (Header b) = Some l
                   ∧ Exists (λ child, Hash (Header child) = Hash (Header b)) l
                   ∧ passedDown rm' = passedDown rm)).
Proof.
  intros Hc. split_and!.
  - intros peerIDs. apply addHash_stored. rewrite Hc. eauto.
  - intros hd <-. apply AddHeader_stored. rewrite Hc. eauto.
  - intros b _ Hm. split.
    + by apply AddBlock_promotes.
    + by apply AddBlock_parks.
Qed.

(** X22.  [AddHash] twice is [AddHash] once: a second advertisement of the
    same hash with the same peers, at whatever time, leaves the manager as
    the first one left it. *)
Theorem AddHash_idempotent now now' x peerIDs rm :
  AddHash now' x peerIDs (AddHash now x peerIDs rm) = AddHash now x peerIDs rm.
Proof. apply addHash_idem. Qed.

(** ** Downloads *)

Lemma removeEl_dataCalls el rm : dataCalls (removeEl el rm) = dataCalls rm.
Proof.
  unfold removeEl. simpl.
  destruct (block (mem rm !!! el)) as [b|]; simpl; [|done].
  destruct (pendingBlocksByParent rm !! Parent (Header b)) as [blocks|]; simpl;
    [|done].
  destruct (find_block b blocks) as [found|]; simpl.
  - rewrite lookup_insert_eq. by destruct (delete found blocks).
  - by destruct (pendingBlocksByParent rm !! Parent (Header b)) as [[|??]|].
Qed.

Lemma removeEl_mem el rm : mem (removeEl el rm) = mem rm.
Proof.
  unfold removeEl. simpl.
  destruct (block (mem rm !!! el)) as [b|]; simpl; [|done].
  destruct (pendingBlocksByParent rm !! Parent (Header b)) as [blocks|]; simpl;
    [|done].
  destruct (find_block b blocks) as [found|]; simpl.
  - rewrite lookup_insert_eq. by destruct (delete found blocks).
  - by destruct (pendingBlocksByParent rm !! Parent (Header b)) as [[|??]|].
Qed.

Lemma foldl_removeEl_dataCalls els rm :
  dataCalls (foldl (λ rm el, removeEl el rm) rm els) = dataCalls rm.
Proof.
  revert rm. induction els as [|el els IH]; intros rm; [done|].
  simpl. by rewrite IH, removeEl_dataCalls.
Qed.

Lemma foldl_removeEl_mem els rm :
  mem (foldl (λ rm el, removeEl el rm) rm els) = mem rm.
Proof.
  revert rm. induction els as [|el els IH]; intros rm; [done|].
  simpl. by rewrite IH, removeEl_mem.
Qed.

Lemma send_request_dataCalls now el st rm :
  length (dataCalls (send_request Intn now el st rm)) = S (length (dataCalls rm)).
Proof. unfold send_request. simpl. rewrite length_app. simpl. lia. Qed.

(** Every request sent takes one from the quota, and the quota does not go
    below 0. *)
Lemma hash_loop_sends now els quota elToRemove rm rm' elToRemove' quota' :
  0 ≤ quota →
  hash_loop Intn now els quota elToRemove rm = (rm', elToRemove', quota') →
  Z.of_nat (length (dataCalls rm')) + quota'
    = Z.of_nat (length (dataCalls rm)) + quota
  ∧ 0 ≤ quota'.
Proof.
  revert quota elToRemove rm.
  induction els as [|curr rest IH]; intros quota elToRemove rm Hq; simpl.
  { intros [= <- <- <-]. done. }
  case_bool_decide as Hz; [intros [= <- <- <-]; done|].
  destruct (HasExpired now (mem rm !!! curr)); [by apply IH|].
  case_bool_decide; [by apply IH|].
  case_bool_decide; [by apply IH|].
  destruct (_ || _); [|by apply IH].
  intros Hrun. apply IH in Hrun; [|lia].
  rewrite send_request_dataCalls in Hrun. lia.
Qed.

Lemma downloadBlockFromHash_sends now quota rm :
  0 ≤ quota →
  Z.of_nat (length (dataCalls (downloadBlockFromHash Intn now quota rm)))
    ≤ Z.of_nat (length (dataCalls rm)) + quota.
Proof.
  intros Hq. unfold downloadBlockFromHash.
  destruct (hash_loop Intn now (pendingBlocks rm) quota [] rm)
    as [[rm' elToRemove] quota'] eqn:Hrun.
  apply hash_loop_sends in Hrun; [|done].
  rewrite foldl_removeEl_dataCalls. lia.
Qed.

Lemma send_request_quota now el st rm :
  quota (send_request Intn now el st rm) = quota rm.
Proof. done. Qed.

Lemma header_loop_sends fuel now backup q rm rm' backup' q' :
  0 ≤ q →
  header_loop Intn fuel now backup q rm = Ok (rm', backup', q') →
  Z.of_nat (length (dataCalls rm')) + q' = Z.of_nat (length (dataCalls rm)) + q
  ∧ 0 ≤ q'
  ∧ quota rm' = quota rm.
Proof.
  revert backup q rm.
  induction fuel as [|fuel IH]; intros backup q rm Hq; simpl.
  { destruct (_ && _); [done|]. intros [= <- <- <-]. done. }
  destruct (bool_decide (0 < _)%nat); simpl; [|intros [= <- <- <-]; done].
  case_bool_decide as Hz; simpl; [|intros [= <- <- <-]; done].
  destruct (heap.Pop (mem rm) (pendingBlocksWithHeader rm))
    as [[el h]| |]; simpl; [|done|done].
  destruct (HasExpired now (mem rm !!! el));
    [intros Hrun; by apply IH in Hrun|].
  case_bool_decide; [intros Hrun; by apply IH in Hrun|].
  case_bool_decide; [intros Hrun; by apply IH in Hrun|].
  destruct (_ || _); simpl.
  - destruct (heap.Push _ backup (IPendingBlock el)) as [backup1| |];
      simpl; [|done|done].
    intros Hrun. apply IH in Hrun; [|lia].
    rewrite send_request_dataCalls, send_request_quota in Hrun. simpl in Hrun. lia.
  - destruct (heap.Push _ backup (IPendingBlock el)) as [backup1| |];
      simpl; [|done|done].
    intros Hrun. by apply IH in Hrun.
Qed.

Lemma downloadBlockFromHeader_sends now q rm rm' :
  0 ≤ q →
  downloadBlockFromHeader Intn now q rm = Ok rm' →
  Z.of_nat (length (dataCalls rm')) ≤ Z.of_nat (length (dataCalls rm)) + q
  ∧ quota rm' = quota rm.
Proof.
  intros Hq. unfold downloadBlockFromHeader.
  destruct (header_loop Intn _ now [] q rm) as [[[rm1 backup] q1]| |] eqn:Hrun;
    simpl; [|done|done].
  intros [= <-]. apply header_loop_sends in Hrun; [|done]. simpl. lia.
Qed.

(** In one tick each downloader sends at most [RequestQuotaPerSecond]
    requests: it counts down its own copy of the quota. *)
Lemma tick_sends now tip lfb rm rm' :
  tick Intn now tip lfb rm = Ok rm' →
  Z.of_nat (length (dataCalls rm'))
    ≤ Z.of_nat (length (dataCalls rm)) + 2 * RequestQuotaPerSecond.
Proof.
  unfold tick, tryToDownload.
  match goal with |- res_bind ?m _ = _ → _ => set (inv := m) end.
  assert (∀ rm1, inv = Ok rm1 →
            dataCalls rm1 = dataCalls rm ∧ quota rm1 = RequestQuotaPerSecond)
    as Hinv.
  { intros rm1. subst inv. destruct (_ || _); [|by intros [= <-]].
    destruct (buildInventoryRequest _ tip lfb); simpl; [|done|done].
    by intros [= <-]. }
  destruct inv as [rm1| |]; simpl; [|done|done].
  destruct (Hinv rm1 eq_refl) as [Hd1 Hq1].
  destruct (downloadBlockFromHeader Intn now (quota rm1) rm1) as [rm2| |] eqn:Hhdr;
    simpl; [|done|done].
  intros [= <-].
  apply downloadBlockFromHeader_sends in Hhdr as [Hd2 Hq2];
    [|rewrite Hq1; unfold RequestQuotaPerSecond; lia].
  pose proof (downloadBlockFromHash_sends now (quota rm2) rm2) as Hd3.
  rewrite Hq2, Hq1, Hd1 in *. unfold RequestQuotaPerSecond in *. lia.
Qed.

(** *** The fuel is enough *)

Lemma Swap_length h i j : length (HeaderHeap.Swap h i j) = length h.
Proof.
  unfold HeaderHeap.Swap.
  destruct (h !! i), (h !! j); try done. by rewrite !length_insert.
Qed.

Lemma Less_no_fuel m h i j : HeaderHeap.Less m h i j ≠ Fuel.
Proof.
  unfold HeaderHeap.Less.
  destruct (h !! i) as [p|], (h !! j) as [p'|]; try done.
  by destruct (header (m !!! p)), (header (m !!! p')).
Qed.

Lemma up_S fuel m h j :
  heap.up (S fuel) m h j =
    if bool_decide (((j - 1) / 2)%nat = j) then Ok h
    else
      lt ⇐ HeaderHeap.Less m h j ((j - 1) / 2) ;;
      if negb lt then Ok h
      else heap.up fuel m (HeaderHeap.Swap h ((j - 1) / 2) j) ((j - 1) / 2).
Proof. done. Qed.

Lemma down_S fuel m h i n :
  heap.down (S fuel) m h i n =
    if bool_decide (n ≤ 2 * i + 1)%nat then Ok h
    else
      j ⇐ (if bool_decide (2 * i + 1 + 1 < n)%nat
           then lt ⇐ HeaderHeap.Less m h (2 * i + 1 + 1) (2 * i + 1) ;;
                Ok (if lt : bool then (2 * i + 1 + 1)%nat else (2 * i + 1)%nat)
           else Ok (2 * i + 1)%nat) ;;
      lt ⇐ HeaderHeap.Less m h j i ;;
      if negb lt then Ok h
      else heap.down fuel m (HeaderHeap.Swap h i j) j n.
Proof. done. Qed.

Lemma up_length fuel m h j h' :
  heap.up fuel m h j = Ok h' → length h' = length h.
Proof.
  revert h j. induction fuel as [|fuel IH]; intros h j; [done|].
  rewrite up_S. case_bool_decide; [by intros [= <-]|].
  destruct (HeaderHeap.Less m h j ((j - 1) / 2)) as [[|]| |];
    unfold res_bind, negb; try done.
  - intros Hrun. apply IH in Hrun. by rewrite Swap_length in Hrun.
  - by intros [= <-].
Qed.

Lemma up_no_fuel fuel m h j : (j < fuel)%nat → heap.up fuel m h j ≠ Fuel.
Proof.
  revert h j. induction fuel as [|fuel IH]; intros h j Hj; [lia|].
  rewrite up_S. case_bool_decide as Hi; [done|].
  pose proof (Less_no_fuel m h j ((j - 1) / 2)) as Hl.
  destruct (HeaderHeap.Less m h j ((j - 1) / 2)) as [[|]| |];
    unfold res_bind, negb; try done.
  apply IH.
  assert ((j - 1) / 2 ≤ j - 1)%nat by (apply Nat.Div0.div_le_upper_bound; lia).
  lia.
Qed.

Lemma down_length fuel m h i n h' :
  heap.down fuel m h i n = Ok h' → length h' = length h.
Proof.
  revert h i. induction fuel as [|fuel IH]; intros h i; [done|].
  rewrite down_S. case_bool_decide; [by intros [= <-]|].
  match goal with |- res_bind ?m _ = _ → _ =>
    destruct m as [j| |]; unfold res_bind at 1; try done end.
  destruct (HeaderHeap.Less m h j i) as [[|]| |];
    unfold res_bind, negb; try done.
  - intros Hrun. apply IH in Hrun. by rewrite Swap_length in Hrun.
  - by intros [= <-].
Qed.

Lemma down_no_fuel fuel m h i n :
  (0 < fuel)%nat → (n ≤ i + fuel)%nat → heap.down fuel m h i n ≠ Fuel.
Proof.
  revert h i. induction fuel as [|fuel IH]; intros h i Hf Hn; [lia|].
  rewrite down_S. case_bool_decide as Hj1; [done|].
  match goal with |- res_bind ?m _ ≠ _ =>
    assert (∀ j, m = Ok j → (i < j < n)%nat) as Hj;
    [|assert (m ≠ Fuel) as Hnf;
      [|destruct m as [j| |]; unfold res_bind at 1; try done]] end.
  - intros j. case_bool_decide.
    + destruct (HeaderHeap.Less m h _ _) as [[|]| |]; simpl; try done;
        intros [= <-]; lia.
    + intros [= <-]. lia.
  - case_bool_decide; [|done].
    match goal with |- context [HeaderHeap.Less m h ?a ?b] =>
      pose proof (Less_no_fuel m h a b) as Hl;
      by destruct (HeaderHeap.Less m h a b) as [[|]| |] end.
  - specialize (Hj j eq_refl).
    pose proof (Less_no_fuel m h j i) as Hl.
    destruct (HeaderHeap.Less m h j i) as [[|]| |];
      unfold res_bind, negb; try done.
    apply IH; lia.
Qed.

Lemma heap_Pop_no_fuel m h : heap.Pop m h ≠ Fuel.
Proof.
  unfold heap.Pop.
  pose proof (down_no_fuel (S (HeaderHeap.Len h)) m
                (HeaderHeap.Swap h 0 (HeaderHeap.Len h - 1)) 0
                (HeaderHeap.Len h - 1)) as Hd.
  destruct (heap.down _ m _ 0 _) as [h'| |]; simpl; [|done|].
  - unfold HeaderHeap.Pop. by destruct (last h').
  - exfalso. apply Hd; [lia| |done]. unfold HeaderHeap.Len. lia.
Qed.

Lemma heap_Pop_length m h el h' :
  heap.Pop m h = Ok (el, h') → S (length h') = length h.
Proof.
  unfold heap.Pop.
  destruct (heap.down _ m _ 0 _) as [h1| |] eqn:Hd; simpl; [|done|done].
  apply down_length in Hd. rewrite Swap_length in Hd.
  unfold HeaderHeap.Pop. destruct (last h1) eqn:Hl; [|done].
  intros [= <- <-]. rewrite length_take.
  destruct h1; [done|]. simpl in *. lia.
Qed.

Lemma heap_Push_no_fuel m h x : heap.Push m h x ≠ Fuel.
Proof.
  unfold heap.Push. destruct x as [p|hd]; simpl; [|done].
  apply up_no_fuel. unfold HeaderHeap.Len. rewrite length_app. simpl. lia.
Qed.

Lemma header_loop_no_fuel fuel now backup q rm :
  (HeaderHeap.Len (pendingBlocksWithHeader rm) ≤ fuel)%nat →
  header_loop Intn fuel now backup q rm ≠ Fuel.
Proof.
  revert backup q rm.
  induction fuel as [|fuel IH]; intros backup q rm Hf; simpl.
  { rewrite bool_decide_eq_false_2 by lia. done. }
  destruct (bool_decide (0 < _)%nat); simpl; [|done].
  case_bool_decide as Hz; simpl; [|done].
  pose proof (heap_Pop_no_fuel (mem rm) (pendingBlocksWithHeader rm)) as Hnf.
  destruct (heap.Pop (mem rm) (pendingBlocksWithHeader rm))
    as [[el h]| |] eqn:Hpop; simpl; [|done|done].
  apply heap_Pop_length in Hpop. unfold HeaderHeap.Len in Hf.
  destruct (HasExpired now (mem rm !!! el)); [apply IH; unfold HeaderHeap.Len; simpl; lia|].
  case_bool_decide; [apply IH; unfold HeaderHeap.Len; simpl; lia|].
  case_bool_decide; [apply IH; unfold HeaderHeap.Len; simpl; lia|].
  destruct (_ || _); simpl.
  - match goal with |- context [heap.Push ?m backup ?x] =>
      pose proof (heap_Push_no_fuel m backup x) as Hp;
      destruct (heap.Push m backup x) as [backup1| |]; simpl; [|done|done] end.
    apply IH. unfold HeaderHeap.Len. simpl. lia.
  - match goal with |- context [heap.Push ?m backup ?x] =>
      pose proof (heap_Push_no_fuel m backup x) as Hp;
      destruct (heap.Push m backup x) as [backup1| |]; simpl; [|done|done] end.
    apply IH. unfold HeaderHeap.Len. simpl. lia.
Qed.

(** A tick does not run out of fuel. *)
Lemma tick_no_fuel now tip lfb rm :
  0 ≤ Height (Header tip) < 2 ^ 64 → tick Intn now tip lfb rm ≠ Fuel.
Proof.
  intros Htip. unfold tick, tryToDownload.
  match goal with |- res_bind ?m _ ≠ _ => set (inv := m) end.
  assert (inv ≠ Fuel) as Hinv.
  { subst inv. destruct (_ || _); [|done].
    destruct (buildInventoryRequest_returns
                (chain (with_quota RequestQuotaPerSecond rm)) tip lfb Htip)
      as [starts ->]. done. }
  destruct inv as [rm1| |]; simpl; [|done|done].
  unfold downloadBlockFromHeader.
  pose proof (header_loop_no_fuel
                (HeaderHeap.Len (pendingBlocksWithHeader rm1)) now []
                (quota rm1) rm1 (le_n _)) as Hh.
  destruct (header_loop Intn _ now [] (quota rm1) rm1) as [r| |]; simpl; done.
Qed.

(** [AddBlock] returns. *)
Lemma AddBlock_returns now b rm : ∃ rm', AddBlock CalculateRootHash now b rm = Ok rm'.
Proof.
  unfold AddBlock.
  destruct (check_body CalculateRootHash b _) as [rm1|]; [|by eexists].
  destruct (FindBlock (chain rm1) (Parent (Header b))); [|by eexists].
  destruct (dumpReadyBlocks_frame b rm1) as (rm' & l & -> & _). by eexists.
Qed.

Lemma dumpAllReadyBlocks_returns pendings rm :
  ∃ rm', dumpAllReadyBlocks pendings rm = Ok rm'.
Proof.
  unfold dumpAllReadyBlocks. revert rm.
  induction pendings as [|el rest IH]; intros rm; simpl; [by eexists|].
  destruct (block (mem rm !!! el)) as [b|]; [|apply IH].
  destruct (FindBlock (chain rm) (Parent (Header b))) as [eb|]; [|apply IH].
  destruct (negb (IsPending (Status eb))); [|apply IH].
  destruct (dumpReadyBlocks_frame b rm) as (rm' & l & -> & _). simpl. apply IH.
Qed.

(** ** Status and fields *)

Lemma by_hash_only_insert m el pb :
  by_hash_only m →
  header pb = None →
  status pb = RequestToSendDataReq ∨ status pb = RequestWaitingDataResp →
  by_hash_only (<[el := pb]> m).
Proof.
  intros Hm Hhd Hst el'. destruct (decide (el = el')) as [<-|Hne].
  - by rewrite lookup_total_insert_eq.
  - rewrite lookup_total_insert_ne by done. apply Hm.
Qed.

Lemma by_hash_only_addHash now x peerIDs rm :
  by_hash_only (mem rm) → by_hash_only (mem (addHash now x peerIDs rm)).
Proof.
  intros Hm. unfold addHash.
  destruct (FindBlock (chain rm) x); [done|].
  destruct (pendingBlocksByHash rm !! x) as [el|]; simpl.
  - destruct (block (mem rm !!! el)); [done|]. simpl.
    apply by_hash_only_insert; [done|apply Hm|apply Hm].
  - rewrite lookup_total_insert_eq. simpl.
    apply by_hash_only_insert; [|done|by left].
    apply by_hash_only_insert; [done|done|by left].
Qed.

Lemma by_hash_only_hash_loop now els q elToRemove rm rm' elToRemove' q' :
  by_hash_only (mem rm) →
  hash_loop Intn now els q elToRemove rm = (rm', elToRemove', q') →
  by_hash_only (mem rm').
Proof.
  revert q elToRemove rm.
  induction els as [|curr rest IH]; intros q elToRemove rm Hm; simpl.
  { by intros [= <- <- <-]. }
  case_bool_decide as Hz; [by intros [= <- <- <-]|].
  destruct (HasExpired now (mem rm !!! curr)); [by apply IH|].
  case_bool_decide as Hh; [by apply IH|].
  case_bool_decide; [by apply IH|].
  destruct (_ || _); [|by apply IH].
  apply IH. unfold send_request. simpl.
  apply by_hash_only_insert; [done|apply Hm|by right].
Qed.

Lemma dumpReadyBlocks_mem b rm rm' :
  dumpReadyBlocks b rm = Ok rm' → mem rm' = mem rm.
Proof.
  intros Hrun.
  destruct (dumpReadyBlocks_frame b rm) as (rm1 & l & Hrun1 & _ & _ & Hm & _).
  congruence.
Qed.

Lemma dumpAllReadyBlocks_mem pendings rm rm' :
  dumpAllReadyBlocks pendings rm = Ok rm' → mem rm' = mem rm.
Proof.
  unfold dumpAllReadyBlocks. revert rm.
  induction pendings as [|el rest IH]; intros rm; simpl; [by intros [= <-]|].
  destruct (block (mem rm !!! el)) as [b|]; [|apply IH].
  destruct (FindBlock (chain rm) (Parent (Header b))) as [eb|]; [|apply IH].
  destruct (negb (IsPending (Status eb))); [|apply IH].
  destruct (dumpReadyBlocks b rm) as [rm1| |] eqn:Hd; simpl; [|done|done].
  intros Hrun. apply IH in Hrun. apply dumpReadyBlocks_mem in Hd. congruence.
Qed.

Lemma by_hash_only_AddBlock now b rm rm' :
  by_hash_only (mem rm) →
  AddBlock CalculateRootHash now b rm = Ok rm' →
  by_hash_only (mem rm').
Proof.
  intros Hm. unfold AddBlock.
  assert (by_hash_only (mem (ensure_pending now (Hash (Header b)) rm))) as Hm1.
  { unfold ensure_pending. destruct (pendingBlocksByHash rm !! _); [done|].
    by apply by_hash_only_addHash. }
  set (rm1 := ensure_pending now (Hash (Header b)) rm) in *. clearbody rm1.
  destruct (check_body CalculateRootHash b rm1) as [rm2|] eqn:Hcheck;
    [|by intros [= <-]].
  assert (by_hash_only (mem rm2)) as Hm2.
  { unfold check_body in Hcheck.
    destruct (pendingBlocksByHash rm1 !! Hash (Header b)) as [el|];
      [|by injection Hcheck as <-].
    assert (by_hash_only
              (<[el := set_block (Some b) (mem rm1 !!! el)]> (mem rm1))) as Hi.
    { apply by_hash_only_insert; [done|apply Hm1|apply Hm1]. }
    destruct (header (mem rm1 !!! el)) as [hd|].
    - case_bool_decide; [done|]. by injection Hcheck as <-.
    - by injection Hcheck as <-. }
  destruct (FindBlock (chain rm2) (Parent (Header b))).
  - intros Hd. apply dumpReadyBlocks_mem in Hd. by rewrite Hd.
  - by intros [= <-].
Qed.

(** *** The header heap *)

Lemma removeEl_heap el rm :
  pendingBlocksWithHeader (removeEl el rm) = pendingBlocksWithHeader rm.
Proof.
  unfold removeEl. simpl.
  destruct (block (mem rm !!! el)) as [b|]; simpl; [|done].
  destruct (pendingBlocksByParent rm !! Parent (Header b)) as [blocks|]; simpl;
    [|done].
  destruct (find_block b blocks) as [found|]; simpl.
  - rewrite lookup_insert_eq. by destruct (delete found blocks).
  - by destruct (pendingBlocksByParent rm !! Parent (Header b)) as [[|??]|].
Qed.

Lemma foldl_removeEl_heap els rm :
  pendingBlocksWithHeader (foldl (λ rm el, removeEl el rm) rm els)
  = pendingBlocksWithHeader rm.
Proof.
  revert rm. induction els as [|el els IH]; intros rm; [done|].
  simpl. by rewrite IH, removeEl_heap.
Qed.

Lemma hash_loop_heap now els q elToRemove rm rm' elToRemove' q' :
  hash_loop Intn now els q elToRemove rm = (rm', elToRemove', q') →
  pendingBlocksWithHeader rm' = pendingBlocksWithHeader rm.
Proof.
  revert q elToRemove rm.
  induction els as [|curr rest IH]; intros q elToRemove rm; simpl.
  { by intros [= <- <- <-]. }
  case_bool_decide; [by intros [= <- <- <-]|].
  destruct (HasExpired now (mem rm !!! curr)); [by apply IH|].
  case_bool_decide; [by apply IH|].
  case_bool_decide; [by apply IH|].
  destruct (_ || _); [|by apply IH].
  intros Hrun. by apply IH in Hrun.
Qed.

Lemma AddBlock_heap now b rm rm' :
  AddBlock CalculateRootHash now b rm = Ok rm' →
  pendingBlocksWithHeader rm' = pendingBlocksWithHeader rm.
Proof.
  unfold AddBlock.
  destruct (ensure_pending_frame now (Hash (Header b)) rm) as (_ & _ & Hh1).
  destruct (check_body CalculateRootHash b _) as [rm2|] eqn:Hcheck;
    [|intros [= <-]; congruence].
  assert (pendingBlocksWithHeader rm2 = pendingBlocksWithHeader rm) as Hh2.
  { unfold check_body in Hcheck.
    destruct (pendingBlocksByHash _ !! Hash (Header b)) as [el|];
      [|injection Hcheck as <-; congruence].
    destruct (header _) as [hd|].
    - case_bool_decide; [done|]. injection Hcheck as <-. simpl. congruence.
    - injection Hcheck as <-. simpl. congruence. }
  destruct (FindBlock (chain rm2) (Parent (Header b))).
  - intros Hd.
    destruct (dumpReadyBlocks_frame b rm2)
      as (rm3 & l & Hd' & _ & _ & _ & Hh3 & _). congruence.
  - intros [= <-]. done.
Qed.

Lemma dumpAllReadyBlocks_heap pendings rm rm' :
  dumpAllReadyBlocks pendings rm = Ok rm' →
  pendingBlocksWithHeader rm' = pendingBlocksWithHeader rm.
Proof.
  unfold dumpAllReadyBlocks. revert rm.
  induction pendings as [|el rest IH]; intros rm; simpl; [by intros [= <-]|].
  destruct (block (mem rm !!! el)) as [b|]; [|apply IH].
  destruct (FindBlock (chain rm) (Parent (Header b))) as [eb|]; [|apply IH].
  destruct (negb (IsPending (Status eb))); [|apply IH].
  destruct (dumpReadyBlocks_frame b rm)
    as (rm3 & l & -> & _ & _ & _ & Hh3 & _). simpl.
  intros Hrun. apply IH in Hrun. congruence.
Qed.

(** As the code stands the header heap is never filled: [AddHeader] is the
    only place that pushes onto [rm.pendingBlocksWithHeader], and it
    panics there; the downloader puts back only what it popped. *)
Lemma header_heap_empty_reachable rm :
  reachable CalculateRootHash Intn rm → pendingBlocksWithHeader rm = [].
Proof.
  intros Hr.
  induction Hr as [c|now x peerIDs rm Hr IH|now hd rm rm' Hr IH Hrun
                   |now b rm rm' Hr IH Hrun|pendings rm rm' Hr IH Hp Hrun
                   |now tip lfb rm rm' Hr IH Hrun|c rm Hr IH].
  - done.
  - unfold AddHash. by rewrite (proj2 (proj2 (addHash_frame now x peerIDs rm))).
  - destruct (FindBlock (chain rm) (Hash hd)) as [eb|] eqn:Hc.
    + rewrite AddHeader_stored in Hrun by (rewrite Hc; eauto).
      by injection Hrun as <-.
    + by rewrite AddHeader_not_stored in Hrun.
  - apply AddBlock_heap in Hrun. congruence.
  - apply dumpAllReadyBlocks_heap in Hrun. congruence.
  - revert Hrun. unfold tick, tryToDownload.
    match goal with |- res_bind ?m _ = _ → _ => set (inv := m) end.
    assert (∀ rm1, inv = Ok rm1 → pendingBlocksWithHeader rm1 = []) as Hinv.
    { intros rm1. subst inv. destruct (_ || _); [|by intros [= <-]].
      destruct (buildInventoryRequest _ tip lfb); simpl; [|done|done].
      by intros [= <-]. }
    destruct inv as [rm1| |]; simpl; [|done|done].
    specialize (Hinv rm1 eq_refl).
    unfold downloadBlockFromHeader. rewrite Hinv. simpl. rewrite Hinv. simpl.
    intros [= <-]. unfold downloadBlockFromHash.
    destruct (hash_loop Intn now _ _ [] _) as [[rm3 elToRemove] q3] eqn:Hhash.
    apply hash_loop_heap in Hhash. rewrite foldl_removeEl_heap. by rewrite Hhash.
  - done.
Qed.

(** As the code stands no header is ever attached to a pending block that
    the manager keeps: [AddHeader] attaches one and then panics.  So no
    pending block ever gets onto the path of the request by header. *)
Lemma reachable_by_hash_only rm :
  reachable CalculateRootHash Intn rm → by_hash_only (mem rm).
Proof.
  intros Hr.
  induction Hr as [c|now x peerIDs rm Hr IH|now hd rm rm' Hr IH Hrun
                   |now b rm rm' Hr IH Hrun|pendings rm rm' Hr IH Hp Hrun
                   |now tip lfb rm rm' Hr IH Hrun|c rm Hr IH].
  - intros el. simpl. rewrite lookup_total_empty. simpl. split; [done|by left].
  - by apply by_hash_only_addHash.
  - destruct (FindBlock (chain rm) (Hash hd)) as [eb|] eqn:Hc.
    + rewrite AddHeader_stored in Hrun by (rewrite Hc; eauto).
      by injection Hrun as <-.
    + by rewrite AddHeader_not_stored in Hrun.
  - by eapply by_hash_only_AddBlock.
  - apply dumpAllReadyBlocks_mem in Hrun. by rewrite Hrun.
  - apply header_heap_empty_reachable in Hr. revert Hrun.
    unfold tick, tryToDownload.
    match goal with |- res_bind ?m _ = _ → _ => set (inv := m) end.
    assert (∀ rm1, inv = Ok rm1 →
              pendingBlocksWithHeader rm1 = [] ∧ mem rm1 = mem rm) as Hinv.
    { intros rm1. subst inv. destruct (_ || _); [|by intros [= <-]].
      destruct (buildInventoryRequest _ tip lfb); simpl; [|done|done].
      by intros [= <-]. }
    destruct inv as [rm1| |]; simpl; [|done|done].
    destruct (Hinv rm1 eq_refl) as [Hheap Hmem].
    unfold downloadBlockFromHeader. rewrite Hheap. simpl. rewrite Hheap. simpl.
    intros [= <-]. unfold downloadBlockFromHash.
    destruct (hash_loop Intn now _ _ [] _) as [[rm3 elToRemove] q3] eqn:Hhash.
    apply by_hash_only_hash_loop in Hhash; [|by simpl; rewrite Hmem].
    by rewrite foldl_removeEl_mem.
  - done.
Qed.

(** C5, amended: in every reachable state a pending block whose status is
    [RequestWaitingBodyResp] has a header and no body.  As the code stands
    it holds because no pending block has that status: every pending block
    has no header and has status [RequestToSendDataReq] or
    [RequestWaitingDataResp].  (Under [RequestWaitingDataResp] the body may
    be there: [AddBlock] attaches a body and leaves the status as it
    is.) *)
Theorem status_consistent_reachable rm :
  reachable CalculateRootHash Intn rm →
  ∀ el,
    (status (mem rm !!! el) = RequestWaitingBodyResp →
     header (mem rm !!! el) ≠ None ∧ block (mem rm !!! el) = None)
    ∧ header (mem rm !!! el) = None
    ∧ (status (mem rm !!! el) = RequestToSendDataReq
       ∨ status (mem rm !!! el) = RequestWaitingDataResp).
Proof.
  intros Hr el. destruct (reachable_by_hash_only rm Hr el) as [Hhd Hst].
  split_and!; [|done|done].
  intros Hbody. destruct Hst as [Hst|Hst]; congruence.
Qed.

End Properties.

(** ** Promotion of a chain *)

Lemma chain_parked_lookup bp cs i b b' :
  chain_parked bp cs → cs !! i = Some b → cs !! S i = Some b' →
  parked_under bp (hash_of b) b'.
Proof.
  revert i. induction cs as [|c cs IH]; intros i Hc Hi HSi; [done|].
  destruct cs as [|c' cs]; [by destruct i|].
  destruct Hc as [Hc Hrest]. destruct i as [|i].
  - simpl in Hi, HSi. by simplify_eq.
  - by apply (IH i Hrest).
Qed.

Lemma parked_under_weaken (bp bp0 : gmap CommonHash (list Block)) p c :
  bp ⊆ bp0 → parked_under bp p c → parked_under bp0 p c.
Proof.
  intros Hsub. unfold parked_under.
  destruct (bp !! p) as [l|] eqn:Hl; simpl.
  - by rewrite (lookup_weaken _ _ _ _ Hl Hsub).
  - by intros ?%elem_of_nil.
Qed.

Lemma parked_by_parent_lookup bp p c :
  parked_by_parent bp → parked_under bp p c → Parent (Header c) = p.
Proof.
  intros Hpar. unfold parked_under.
  destruct (bp !! p) as [l|] eqn:Hl; simpl; [|by intros ?%elem_of_nil].
  intros Hin. specialize (Hpar p l Hl). simpl in Hpar.
  by eapply Forall_forall in Hpar.
Qed.

Lemma parked_named_lookup cs bp p c b :
  parked_named cs bp → parked_under bp p c → b ∈ cs →
  hash_of c = hash_of b → c = b.
Proof.
  intros Hname. unfold parked_under.
  destruct (bp !! p) as [l|] eqn:Hl; simpl; [|by intros ?%elem_of_nil].
  intros Hin Hb. specialize (Hname p l Hl). simpl in Hname.
  eapply Forall_forall in Hname; [|done].
  by eapply Forall_forall in Hname.
Qed.

Lemma chain_hash_index cs i j b b' :
  NoDup (hash_of <$> cs) → cs !! i = Some b → cs !! j = Some b' →
  hash_of b = hash_of b' → i = j.
Proof.
  intros Hnd Hi Hj Hh.
  eapply (NoDup_lookup _ i j (hash_of b) Hnd); rewrite list_lookup_fmap.
  - by rewrite Hi.
  - rewrite Hj. simpl. by rewrite Hh.
Qed.

Section Promotion.

Variable cs : list Block.
Variable rm0 : RequestManager.

Hypothesis Hnd : NoDup (hash_of <$> cs).
Hypothesis Hlink : ∀ i b b', cs !! i = Some b → cs !! S i = Some b' →
  Parent (Header b') = hash_of b.
Hypothesis Hpar : parked_by_parent (pendingBlocksByParent rm0).
Hypothesis Hname : parked_named cs (pendingBlocksByParent rm0).

(** One pass of the loop keeps the invariant; it moves on along the chain
    when the block it takes from the queue is the next block of the
    chain. *)
Lemma dump_inv_step k c q rm :
  dump_inv cs rm0 k (c :: q) rm →
  dump_inv cs rm0 (if decide (cs !! k = Some c) then S k else k)
    (dump_step c q rm).1 (dump_step c q rm).2.
Proof.
  intros [Hk (l & Had & Hpd & Hsubl) Hseg Hq Hsub Hdone Hlist Hmono Hnew Hmem].
  rewrite dump_step_eq. simpl.
  assert (∀ i b, (k ≤ i)%nat → cs !! i = Some b → hash_of c = hash_of b →
            i = k ∧ cs !! k = Some c) as Hhead.
  { intros i b Hi Hb Hh.
    destruct (Hq c i b) as [-> Hle]; [by apply elem_of_cons; auto|done|done|].
    assert (i = k) as -> by lia. done. }
  split; simpl.
  - case_decide as Hd; [|done]. apply lookup_lt_Some in Hd. lia.
  - exists (l ++ [c]). rewrite Had, Hpd, <-!app_assoc. split_and!; [done|done|].
    case_decide as Hd.
    + rewrite (take_S_r _ _ _ Hd). by apply sublist_app.
    + by apply sublist_inserts_r.
  - intros i b b' Hi Hb Hb'.
    assert (k ≤ i)%nat as Hki by (case_decide; lia).
    specialize (Hseg i b b' Hki Hb Hb').
    unfold parked_under in *. rewrite lookup_delete_ne; [done|].
    intros Hh. destruct (Hhead i b Hki Hb Hh) as [-> Hc].
    rewrite decide_True in Hi by done. lia.
  - intros x j b Hx Hb Hh.
    apply elem_of_app in Hx as [Hx|Hx].
    { destruct (Hq x j b) as [-> Hle]; [by apply elem_of_cons; auto|done|done|].
      split; [done|]. case_decide; lia. }
    assert (parked_under (pendingBlocksByParent rm0) (hash_of c) x) as Hx0.
    { by apply (parked_under_weaken (pendingBlocksByParent rm)). }
    assert (x = b) as ->.
    { eapply parked_named_lookup; [done|done| |done].
      by eapply list_elem_of_lookup_2. }
    split; [done|].
    destruct j as [|j]; [lia|].
    destruct (lookup_lt_is_Some_2 cs j) as [bj Hbj].
    { apply lookup_lt_Some in Hb. lia. }
    pose proof (Hlink j bj b Hbj Hb) as Hp.
    rewrite (parked_by_parent_lookup _ _ _ Hpar Hx0) in Hp.
    destruct (Hq c j bj) as [-> Hle]; [by apply elem_of_cons; auto|done|done|].
    destruct (decide (j = k)) as [->|Hne].
    + rewrite decide_True by done. lia.
    + case_decide; lia.
  - etrans; [apply delete_subseteq|done].
  - intros j b Hj Hb.
    destruct (decide (j < k)%nat) as [Hlt|Hge].
    + destruct (Hdone j b Hlt Hb) as (Hp & Hh & Hc). split_and!.
      * apply lookup_delete_None. by right.
      * apply lookup_delete_None. by right.
      * destruct Hc as [eb Hc]. exists eb. by apply chain_AddBlock_mono.
    + case_decide as Hd; [|lia]. assert (j = k) as -> by lia.
      assert (b = c) as -> by congruence.
      split_and!; [apply lookup_delete_eq|apply lookup_delete_eq|].
      apply chain_AddBlock_lookup.
  - intros h el Hel.
    destruct (Hlist h el Hel) as [Hin|[Hout Hnin]].
    + destruct (decide (hash_of c = h)) as [<-|Hne].
      * right. split; [apply lookup_delete_eq|].
        unfold hash_of in Hin. rewrite Hin. unfold list_Remove.
        intros [Hf Hl]%list_elem_of_filter; done.
      * left. by rewrite lookup_delete_ne.
    + right. split; [apply lookup_delete_None; by right|].
      destruct (pendingBlocksByHash rm !! Hash (Header c)); [|done].
      unfold list_Remove. intros [Hf Hl]%list_elem_of_filter; done.
  - intros h eb Hc. by apply chain_AddBlock_mono, Hmono.
  - intros h eb Hc. apply chain_AddBlock_inv in Hc as [Hc|Hc]; [|by right].
    by apply Hnew.
  - done.
Qed.

Lemma on_its_way_step k c q rm :
  dump_inv cs rm0 k (c :: q) rm →
  on_its_way cs k (c :: q) →
  on_its_way cs (if decide (cs !! k = Some c) then S k else k)
    (dump_step c q rm).1.
Proof.
  intros Hinv Hway. rewrite dump_step_eq. simpl.
  case_decide as Hd.
  - destruct (decide (S k = length cs)) as [Hlen|Hlen]; [by left|].
    right. destruct (lookup_lt_is_Some_2 cs (S k)) as [b' Hb'].
    { apply lookup_lt_Some in Hd. lia. }
    exists b'. split; [done|]. apply elem_of_app. right.
    by apply (di_seg _ _ _ _ _ Hinv k c b').
  - destruct Hway as [Hlen|(b & Hb & Hin)]; [by left|].
    right. exists b. split; [done|].
    apply elem_of_cons in Hin as [->|Hin]; [done|].
    apply elem_of_app. by left.
Qed.

Lemma on_its_way_nil k : on_its_way cs k [] → k = length cs.
Proof. intros [Hk|(b & _ & Hin)]; [done|]. by apply elem_of_nil in Hin. Qed.

(** The loop of promotion along the chain: it returns, the invariant holds
    at its end, and when the next block of the chain is in the queue the
    whole chain is promoted. *)
Lemma dump_loop_chain fuel q rm k :
  dump_inv cs rm0 k q rm →
  (length q + parked (pendingBlocksByParent rm) ≤ fuel)%nat →
  ∃ rm' k',
    dump_loop fuel q rm = Ok rm'
    ∧ (k ≤ k')%nat
    ∧ dump_inv cs rm0 k' [] rm'
    ∧ (on_its_way cs k q → k' = length cs)
    ∧ (k = 0%nat → k' = 0%nat ∨ k' = length cs).
Proof.
  intros Hinv Hfuel.
  destruct (dump_loop_inv
    (λ q' r, ∃ k', (k ≤ k')%nat ∧ dump_inv cs rm0 k' q' r
                   ∧ (on_its_way cs k q → on_its_way cs k' q')
                   ∧ (k = 0%nat → k' = 0%nat ∨ on_its_way cs k' q'))
    fuel q rm) as (rm' & Hrun & k' & Hle & Hinv' & Hway & Hweak);
    [| |done|].
  - intros c q' r (k' & Hle & Hinv' & Hway & Hweak).
    exists (if decide (cs !! k' = Some c) then S k' else k').
    split_and!.
    + case_decide; lia.
    + by apply dump_inv_step.
    + intros Hq. by apply on_its_way_step, Hway.
    + intros Hk. destruct (Hweak Hk) as [->|Hw].
      * pose proof (on_its_way_step 0%nat c q' r Hinv') as Hs.
        case_decide as Hd; [|by left].
        right. apply Hs.
        right. exists c. split; [done|]. apply elem_of_cons. by left.
      * right. by apply on_its_way_step.
  - exists k. split_and!; [done|done|done|]. intros ->. by left.
  - exists rm', k'. split_and!; [done|done|done| |].
    + intros Hq. by apply on_its_way_nil, Hway.
    + intros Hk. destruct (Hweak Hk) as [->|Hw]; [by left|].
      right. by apply on_its_way_nil.
Qed.

Lemma dump_inv_promoted rm' :
  dump_inv cs rm0 (length cs) [] rm' → promoted cs rm0 rm'.
Proof.
  intros [Hk (l & Had & Hpd & Hsubl) Hseg Hq Hsub Hdone Hlist Hmono Hnew Hmem].
  rewrite firstn_all in Hsubl. split; [by exists l|].
  apply Forall_forall. intros b Hb.
  apply list_elem_of_lookup in Hb as [j Hj].
  destruct (Hdone j b) as (Hp & Hh & Hc); [by eapply lookup_lt_Some|done|].
  split_and!; [done|done|done|].
  intros el Hel. destruct (Hlist _ _ Hel) as [Hin|[_ Hnin]]; [congruence|done].
Qed.

(** The invariant at the start of promotion from [rm0]. *)
Lemma dump_inv_start :
  chain_parked (pendingBlocksByParent rm0) cs →
  dump_inv cs rm0 0 [] rm0.
Proof.
  intros Hchain. split.
  - lia.
  - exists []. by rewrite !app_nil_r.
  - intros i b b' _ Hb Hb'. by eapply chain_parked_lookup.
  - intros c j b Hin. by apply elem_of_nil in Hin.
  - done.
  - intros j b Hj. lia.
  - intros h el Hel. by left.
  - done.
  - intros h eb Hc. by left.
  - done.
Qed.

Lemma dump_inv_seed k c rm :
  dump_inv cs rm0 k [] rm →
  (∀ j b, cs !! j = Some b → hash_of c = hash_of b → c = b ∧ (j ≤ k)%nat) →
  dump_inv cs rm0 k [c] rm.
Proof.
  intros [Hk Hlog Hseg Hq Hsub Hdone Hlist Hmono Hnew Hmem] Hc.
  split; try done.
  intros x j b ->%list_elem_of_singleton. apply Hc.
Qed.

(** The first block of the chain may seed the queue at any time. *)
Lemma dump_inv_seed_first k b0 rm :
  cs !! 0%nat = Some b0 →
  dump_inv cs rm0 k [] rm →
  dump_inv cs rm0 k [b0] rm.
Proof.
  intros Hb0 Hinv. apply dump_inv_seed; [done|].
  intros j b Hb Hh.
  assert (0%nat = j) as <- by (by eapply chain_hash_index).
  split; [congruence|lia].
Qed.

End Promotion.

Lemma chain_links bp cs i b b' :
  chain_parked bp cs → parked_by_parent bp →
  cs !! i = Some b → cs !! S i = Some b' →
  Parent (Header b') = hash_of b.
Proof.
  intros Hchain Hpar Hb Hb'.
  eapply parked_by_parent_lookup; [done|]. by eapply chain_parked_lookup.
Qed.

Lemma promoted_from cs rm rm2 rm' :
  handedToChain rm2 = handedToChain rm →
  passedDown rm2 = passedDown rm →
  (∀ h el, pendingBlocksByHash rm !! h = Some el →
           pendingBlocksByHash rm2 !! h = Some el) →
  promoted cs rm2 rm' → promoted cs rm rm'.
Proof.
  intros Had Hpd Hh [Hlog Hall]. split; [by rewrite <-Had, <-Hpd|].
  eapply Forall_impl; [done|]. intros b (Hc & Hb & Hp & Hl).
  split_and!; [done|done|done|]. intros el Hel. by apply Hl, Hh.
Qed.

Lemma ensure_pending_byHash now x rm h el :
  pendingBlocksByHash rm !! h = Some el →
  pendingBlocksByHash (ensure_pending now x rm) !! h = Some el.
Proof.
  intros Hel. unfold ensure_pending.
  destruct (pendingBlocksByHash rm !! x) as [el'|] eqn:Hx; [done|].
  destruct (FindBlock (chain rm) x) as [eb|] eqn:Hc.
  - by rewrite addHash_stored by (rewrite Hc; eauto).
  - rewrite addHash_new by done. simpl.
    rewrite lookup_insert_ne; [done|]. intros ->. congruence.
Qed.

Section PromotionOfChain.

Variable CalculateRootHash : list N → CommonHash.

(** [AddBlock] of the first block of a parked chain promotes the chain. *)
Lemma AddBlock_promotes_chain now rm b0 rest :
  NoDup (hash_of <$> b0 :: rest) →
  chain_parked (pendingBlocksByParent rm) (b0 :: rest) →
  parked_by_parent (pendingBlocksByParent rm) →
  parked_named (b0 :: rest) (pendingBlocksByParent rm) →
  root_mismatch CalculateRootHash b0 rm = false →
  is_Some (FindBlock (chain rm) (Parent (Header b0))) →
  ∃ rm', AddBlock CalculateRootHash now b0 rm = Ok rm'
         ∧ promoted (b0 :: rest) rm rm'.
Proof.
  intros Hnd Hchain Hpar Hname Hm [eb Hp]. unfold AddBlock.
  rewrite <-(ensure_pending_root_mismatch CalculateRootHash now) in Hm.
  destruct (ensure_pending_frame now (Hash (Header b0)) rm)
    as ((Hc1 & Ha1 & Hd1 & _) & Hbp1 & _).
  destruct (check_body_pass _ _ _ Hm)
    as (rm2 & -> & (Hc2 & Ha2 & Hd2 & _) & Hbp2 & _ & Hbh2 & _).
  rewrite Hc2, Hc1, Hp.
  assert (pendingBlocksByParent rm2 = pendingBlocksByParent rm) as Hbp
    by congruence.
  rewrite <-Hbp in Hchain, Hpar, Hname.
  destruct (dump_loop_chain (b0 :: rest) rm2
              (λ i b b', chain_links _ _ i b b' Hchain Hpar) Hpar Hname
              (S (parked (pendingBlocksByParent rm2))) [b0] rm2 0%nat)
    as (rm' & k' & Hrun & _ & Hinv & Hway & _).
  { apply dump_inv_seed_first; [done|done|]. by apply dump_inv_start. }
  { simpl. lia. }
  exists rm'. split; [done|].
  apply (promoted_from _ rm rm2); [congruence|congruence| |].
  { intros h el Hel. rewrite Hbh2. by apply ensure_pending_byHash. }
  apply dump_inv_promoted. rewrite <-Hway; [done|].
  right. exists b0. split; [done|]. apply elem_of_cons. by left.
Qed.

End PromotionOfChain.

Lemma lookup_total_block (m : gmap loc PendingBlock) el c :
  block (m !!! el) = Some c → ∃ pb, m !! el = Some pb ∧ block pb = Some c.
Proof.
  rewrite lookup_total_alt. destruct (m !! el) as [pb|]; simpl; [|done].
  intros Hb. by exists pb.
Qed.

(** The sweep: the loop of [dumpAllReadyBlocks] keeps the invariant of
    promotion, and promotes the chain when it comes to the element of the
    first block. *)
Lemma dumpAll_loop_chain cs rm0 b0 el0 eb0 :
  NoDup (hash_of <$> cs) →
  chain_parked (pendingBlocksByParent rm0) cs →
  parked_by_parent (pendingBlocksByParent rm0) →
  parked_named cs (pendingBlocksByParent rm0) →
  bodies_named cs (mem rm0) →
  Forall (λ b, FindBlock (chain rm0) (hash_of b) = None) cs →
  cs !! 0%nat = Some b0 →
  block (mem rm0 !!! el0) = Some b0 →
  FindBlock (chain rm0) (Parent (Header b0)) = Some eb0 →
  IsPending (Status eb0) = false →
  ∀ pendings rm k,
    dump_inv cs rm0 k [] rm →
    k = 0%nat ∨ k = length cs →
    ∃ rm' k',
      dumpAll_loop pendings rm = Ok rm'
      ∧ dump_inv cs rm0 k' [] rm'
      ∧ (k ≤ k')%nat
      ∧ (k' = 0%nat ∨ k' = length cs)
      ∧ (el0 ∈ pendings → k' = length cs).
Proof.
  intros Hnd Hchain Hpar Hname Hbodies Hfresh Hb0 Hel0 Hp0 Hnp0.
  pose proof (λ i b b', chain_links _ _ i b b' Hchain Hpar) as Hlink.
  induction pendings as [|el rest IH]; intros rm k Hinv Hk; simpl.
  { exists rm, k. split_and!; [done|done|done|done|]. by intros ?%elem_of_nil. }
  pose proof (di_mem _ _ _ _ _ Hinv) as Hmem.
  assert (el0 ∈ el :: rest → el0 ≠ el → el0 ∈ rest) as Hin.
  { intros [->|Hr]%elem_of_cons; done. }
  rewrite Hmem.
  destruct (block (mem rm0 !!! el)) as [c|] eqn:Hc.
  2:{ destruct (IH rm k Hinv Hk) as (rm' & k' & Hrun & Hinv' & Hle & Hk' & Hl).
      exists rm', k'. split_and!; [done|done|lia|done|].
      intros Hel. apply Hl, Hin; [done|]. intros ->. congruence. }
  assert (el0 = el → FindBlock (chain rm) (Parent (Header c)) = Some eb0)
    as Hfirst.
  { intros ->. assert (c = b0) as -> by congruence.
    by apply (di_chain_mono _ _ _ _ _ Hinv). }
  destruct (FindBlock (chain rm) (Parent (Header c))) as [eb|] eqn:Hp.
  2:{ destruct (IH rm k Hinv Hk) as (rm' & k' & Hrun & Hinv' & Hle & Hk' & Hl).
      exists rm', k'. split_and!; [done|done|lia|done|].
      intros Hel. apply Hl, Hin; [done|]. intros Heq. by specialize (Hfirst Heq). }
  destruct (IsPending (Status eb)) eqn:Hnp; simpl.
  { destruct (IH rm k Hinv Hk) as (rm' & k' & Hrun & Hinv' & Hle & Hk' & Hl).
    exists rm', k'. split_and!; [done|done|lia|done|].
    intros Hel. apply Hl, Hin; [done|]. intros Heq.
    specialize (Hfirst Heq). congruence. }
  (* promotion of [c] *)
  assert (dump_inv cs rm0 k [c] rm) as Hseed.
  { apply dump_inv_seed; [done|]. intros j b Hb Hh.
    assert (c = b) as <-.
    { destruct (lookup_total_block _ _ _ Hc) as (pb & Hpb & Hblk).
      specialize (Hbodies el pb Hpb). unfold body_named in Hbodies.
      rewrite Hblk in Hbodies.
      simpl in Hbodies. eapply Forall_forall in Hbodies; [by apply Hbodies|].
      by eapply list_elem_of_lookup_2. }
    split; [done|]. destruct j as [|j]; [lia|].
    destruct (lookup_lt_is_Some_2 cs j) as [bj Hbj].
    { apply lookup_lt_Some in Hb. lia. }
    rewrite (Hlink j bj c Hbj Hb) in Hp.
    destruct (di_chain_new _ _ _ _ _ Hinv _ _ Hp) as [Hold|Hpend];
      [|congruence].
    eapply Forall_forall in Hfresh; [|by eapply list_elem_of_lookup_2].
    unfold FindBlock in Hfresh. simpl in Hfresh. congruence. }
  destruct (dump_loop_chain cs rm0 Hlink Hpar Hname
              (S (parked (pendingBlocksByParent rm))) [c] rm k Hseed)
    as (rm1 & k1 & Hrun1 & Hle1 & Hinv1 & Hway1 & Hweak1).
  { simpl. lia. }
  unfold dumpReadyBlocks. rewrite Hrun1. simpl.
  assert (k1 = 0%nat ∨ k1 = length cs) as Hk1.
  { destruct Hk as [-> | ->]; [by apply Hweak1|].
    right. pose proof (di_k _ _ _ _ _ Hinv1). lia. }
  destruct (IH rm1 k1 Hinv1 Hk1) as (rm' & k' & Hrun & Hinv' & Hle & Hk' & Hl).
  exists rm', k'. split_and!; [done|done|lia|done|].
  intros Hel. destruct (decide (el0 = el)) as [->|Hne]; [|by apply Hl, Hin].
  assert (c = b0) as -> by congruence.
  assert (k1 = length cs) as Hk1'.
  { apply Hway1. destruct Hk as [-> | ->]; [|by left].
    right. exists b0. split; [done|]. apply elem_of_cons. by left. }
  pose proof (di_k _ _ _ _ _ Hinv'). lia.
Qed.

Lemma range_of_elem rm pendings h el :
  range_of rm pendings →
  pendingBlocksByHash rm !! h = Some el → el ∈ pendings.
Proof.
  intros Hr Hel. unfold range_of in Hr. rewrite Hr.
  apply list_elem_of_fmap. exists (h, el). split; [done|].
  by apply elem_of_map_to_list.
Qed.

(** C6, amended: take a chain b0 → b1 → … → bn of blocks with distinct
    hashes, every block but b0 parked under the hash of the one before, in
    a manager whose parked blocks are under their parents and are the only
    blocks of their hash, and let the parent of b0 be in the chain store.
    Then [AddBlock] of b0, when the body passes the check against the
    header, promotes the whole chain, whatever the status of the stored
    parent; and so does [dumpAllReadyBlocks], in whatever order it visits
    the pending blocks, when the stored parent is not marked [Pending], b0
    is the body attached to its pending block and no block of the chain is
    in the chain store yet.  Promoted means: handed to the chain store and
    to consensus in the order of the chain, that is by ascending height,
    and gone from [byHash] and the list, with no list left under its hash
    in [byParent]. *)
Theorem promotion_of_chain (CalculateRootHash : list N → CommonHash)
    now pendings rm b0 rest eb :
  NoDup (hash_of <$> b0 :: rest) →
  chain_parked (pendingBlocksByParent rm) (b0 :: rest) →
  parked_by_parent (pendingBlocksByParent rm) →
  parked_named (b0 :: rest) (pendingBlocksByParent rm) →
  FindBlock (chain rm) (Parent (Header b0)) = Some eb →
  (root_mismatch CalculateRootHash b0 rm = false →
   ∃ rm', AddBlock CalculateRootHash now b0 rm = Ok rm'
          ∧ promoted (b0 :: rest) rm rm')
  ∧ (IsPending (Status eb) = false →
     range_of rm pendings →
     (∃ el, pendingBlocksByHash rm !! hash_of b0 = Some el
            ∧ block (mem rm !!! el) = Some b0) →
     bodies_named (b0 :: rest) (mem rm) →
     Forall (λ b, FindBlock (chain rm) (hash_of b) = None) (b0 :: rest) →
     ∃ rm', dumpAllReadyBlocks pendings rm = Ok rm'
            ∧ promoted (b0 :: rest) rm rm').
Proof.
  intros Hnd Hchain Hpar Hname Hp. split.
  - intros Hm. apply AddBlock_promotes_chain; [done..|]. rewrite Hp. eauto.
  - intros Hnp Hrange (el0 & Hel0 & Hb0) Hbodies Hfresh.
    destruct (dumpAll_loop_chain (b0 :: rest) rm b0 el0 eb Hnd Hchain Hpar
                Hname Hbodies Hfresh eq_refl Hb0 Hp Hnp pendings rm 0%nat)
      as (rm' & k' & Hrun & Hinv & _ & _ & Hlen).
    { by apply dump_inv_start. }
    { by left. }
    exists rm'. split; [done|].
    apply dump_inv_promoted. rewrite <-Hlen; [done|].
    by eapply range_of_elem.
Qed.

(** * Further properties of the request manager *)

(** ** The header heap *)

Lemma insert_swap_head (t : list loc) j x y :
  t !! j = Some y → y :: <[j := x]> t ≡ₚ x :: t.
Proof.
  revert j. induction t as [|a t IH]; intros [|j] Hj; simplify_eq/=.
  - apply perm_swap.
  - etrans; [apply perm_swap|]. etrans; [|apply perm_swap].
    constructor. by apply IH.
Qed.

Lemma insert_swap_perm (h : list loc) i j x y :
  h !! i = Some x → h !! j = Some y → <[i := y]> (<[j := x]> h) ≡ₚ h.
Proof.
  revert i j. induction h as [|a h IH]; intros [|i] [|j] Hi Hj; simplify_eq/=.
  - done.
  - by apply insert_swap_head.
  - by apply insert_swap_head.
  - constructor. by apply IH.
Qed.

Lemma Swap_perm h i j : HeaderHeap.Swap h i j ≡ₚ h.
Proof.
  unfold HeaderHeap.Swap.
  destruct (h !! i) eqn:Hi; [|done]. destruct (h !! j) eqn:Hj; [|done].
  by apply insert_swap_perm.
Qed.

Lemma up_perm fuel m h j h' : heap.up fuel m h j = Ok h' → h' ≡ₚ h.
Proof.
  revert h j. induction fuel as [|fuel IH]; intros h j; [done|].
  rewrite up_S. case_bool_decide; [by intros [= <-]|].
  destruct (HeaderHeap.Less m h j ((j - 1) / 2)) as [[]| |]; simpl; try done.
  - intros Hup. apply IH in Hup. rewrite Hup. apply Swap_perm.
  - by intros [= <-].
Qed.

Lemma down_perm fuel m h i n h' : heap.down fuel m h i n = Ok h' → h' ≡ₚ h.
Proof.
  revert h i. induction fuel as [|fuel IH]; intros h i; [done|].
  rewrite down_S. case_bool_decide; [by intros [= <-]|].
  match goal with
  | |- res_bind ?pick _ = _ → _ => destruct pick as [j| |]; simpl; try done
  end.
  destruct (HeaderHeap.Less m h j i) as [[]| |]; simpl; try done.
  - intros Hdown. apply IH in Hdown. rewrite Hdown. apply Swap_perm.
  - by intros [= <-].
Qed.

Lemma heap_Push_perm m h p h' :
  heap.Push m h (IPendingBlock p) = Ok h' → h' ≡ₚ p :: h.
Proof.
  unfold heap.Push. simpl. intros Hup%up_perm.
  rewrite Hup. by rewrite Permutation_app_comm.
Qed.

Lemma HeaderHeap_Pop_snoc h p : HeaderHeap.Pop (h ++ [p]) = Ok (p, h).
Proof.
  unfold HeaderHeap.Pop. rewrite last_snoc, length_app. simpl.
  replace (length h + 1 - 1)%nat with (length h) by lia.
  by rewrite take_app_length.
Qed.

Lemma HeaderHeap_Pop_Ok h p h' :
  HeaderHeap.Pop h = Ok (p, h') → h = h' ++ [p].
Proof.
  unfold HeaderHeap.Pop. destruct (last h) as [x|] eqn:Hlast; [|done].
  apply last_Some in Hlast as [l ->]. intros [= <- <-].
  rewrite length_app. simpl.
  replace (length l + 1 - 1)%nat with (length l) by lia.
  by rewrite take_app_length.
Qed.

Lemma heap_Pop_perm m h p h' : heap.Pop m h = Ok (p, h') → h ≡ₚ p :: h'.
Proof.
  unfold heap.Pop.
  destruct (heap.down _ _ _ _ _) as [h1| |] eqn:Hdown; simpl; try done.
  intros ->%HeaderHeap_Pop_Ok. apply down_perm in Hdown.
  rewrite <- (Swap_perm h 0 (HeaderHeap.Len h - 1)), <- Hdown.
  by rewrite Permutation_app_comm.
Qed.

(** X1.  The header heap keeps its entries.  [Push] followed by [Pop] on the
    slice gives back the pushed pointer and the slice as it was; through
    the heap package, a push adds exactly the pushed entry and a pop takes
    exactly the popped one, whatever the order of the others becomes; and
    popping an empty heap panics. *)
Theorem heap_keeps_entries m h p :
  (∀ h', HeaderHeap.Push h (IPendingBlock p) = Ok h' →
         HeaderHeap.Pop h' = Ok (p, h))
  ∧ (∀ h', heap.Push m h (IPendingBlock p) = Ok h' → h' ≡ₚ p :: h)
  ∧ (∀ el h', heap.Pop m h = Ok (el, h') → h ≡ₚ el :: h')
  ∧ heap.Pop m [] = Panic.
Proof.
  split_and!.
  - intros h' [= <-]. apply HeaderHeap_Pop_snoc.
  - intros h'. apply heap_Push_perm.
  - intros el h'. apply heap_Pop_perm.
  - done.
Qed.

(** ** The request passes *)

Section Requests.

Variable Intn : nat → nat.

Lemma filter_ext_elem {A} (P Q : A → Prop)
    `{∀ x, Decision (P x)} `{∀ x, Decision (Q x)} (l : list A) :
  (∀ x, x ∈ l → P x ↔ Q x) → filter P l = filter Q l.
Proof.
  induction l as [|a l IH]; intros Hext; [done|].
  assert (filter P l = filter Q l) as Hrest.
  { apply IH. intros x Hx. apply Hext, elem_of_cons. by right. }
  assert (P a ↔ Q a) as Ha by (apply Hext, elem_of_cons; by left).
  rewrite !filter_cons, Hrest.
  destruct (decide (P a)), (decide (Q a)); tauto.
Qed.

Lemma randomPeer_elem (ps : list string) :
  length ps ≠ 0%nat → randomPeer Intn ps ∈ ps.
Proof.
  intros Hlen. unfold randomPeer. apply list_elem_of_lookup_total_2.
  by apply Nat.mod_upper_bound.
Qed.

Lemma send_request_mem now el st rm :
  mem (send_request Intn now el st rm)
  = <[el := asked now st (mem rm !!! el)]> (mem rm).
Proof. done. Qed.

Lemma send_request_calls now el st rm :
  dataCalls (send_request Intn now el st rm)
  = dataCalls rm ++ [request_of Intn (mem rm !!! el)].
Proof. done. Qed.

Lemma send_request_only now el st rm :
  only_requests rm (send_request Intn now el st rm)
  ∧ pendingBlocks (send_request Intn now el st rm) = pendingBlocks rm
  ∧ pendingBlocksByHash (send_request Intn now el st rm) = pendingBlocksByHash rm
  ∧ pendingBlocksByParent (send_request Intn now el st rm)
    = pendingBlocksByParent rm
  ∧ pendingBlocksWithHeader (send_request Intn now el st rm)
    = pendingBlocksWithHeader rm.
Proof. by repeat split. Qed.

(** One pass of the first loop of [downloadBlockFromHash]. *)
Lemma hash_loop_stop now els rem rm :
  hash_loop Intn now els 0 rem rm = (rm, rem, 0).
Proof. by destruct els. Qed.

Lemma hash_loop_cons now curr rest q rem rm :
  q ≠ 0 →
  hash_loop Intn now (curr :: rest) q rem rm =
    if HasExpired now (mem rm !!! curr)
    then hash_loop Intn now rest q (rem ++ [curr]) rm
    else if due_by_hash now (mem rm !!! curr)
    then hash_loop Intn now rest (q - 1) rem
           (send_request Intn now curr RequestWaitingDataResp rm)
    else hash_loop Intn now rest q rem rm.
Proof.
  intros Hq. simpl. rewrite bool_decide_false by done.
  unfold due_by_hash. destruct (HasExpired now (mem rm !!! curr)); [done|].
  simpl. repeat case_bool_decide; simpl; try done; try congruence.
Qed.

Lemma due_by_hash_peers now pb :
  due_by_hash now pb = true → length (peers pb) ≠ 0%nat.
Proof.
  unfold due_by_hash. intros Hdue Hlen.
  rewrite (bool_decide_true _ Hlen) in Hdue. simpl in Hdue.
  by rewrite andb_false_r in Hdue.
Qed.

Lemma hash_loop_requests now els q rem rm rm' rem' q' :
  NoDup els → 0 ≤ q →
  hash_loop Intn now els q rem rm = (rm', rem', q') →
  let sent := take (Z.to_nat q)
                (filter (λ el, due_by_hash now (mem rm !!! el)) els) in
  dataCalls rm' = dataCalls rm ++ ((λ el, request_of Intn (mem rm !!! el)) <$> sent)
  ∧ ∀ el, mem rm' !!! el = if decide (el ∈ sent)
                          then asked now RequestWaitingDataResp (mem rm !!! el)
                          else mem rm !!! el.
Proof.
  intros Hnd. revert q rem rm.
  induction Hnd as [|curr rest Hcurr Hnd IH]; intros q rem rm Hq Hrun sent.
  { simpl in Hrun. injection Hrun as <- _ _. subst sent.
    rewrite filter_nil, take_nil. split; [by rewrite fmap_nil, app_nil_r|].
    intros el. case_decide as Hin; [by apply not_elem_of_nil in Hin|done]. }
  destruct (decide (q = 0)) as [->|Hq0].
  { rewrite hash_loop_stop in Hrun. injection Hrun as <- _ _. subst sent.
    change (Z.to_nat 0) with 0%nat. rewrite take_0.
    split; [by rewrite fmap_nil, app_nil_r|].
    intros el. case_decide as Hin; [by apply not_elem_of_nil in Hin|done]. }
  rewrite hash_loop_cons in Hrun by done. subst sent.
  rewrite filter_cons.
  destruct (due_by_hash now (mem rm !!! curr)) eqn:Hdue.
  - assert (HasExpired now (mem rm !!! curr) = false) as Hexp.
    { unfold due_by_hash in Hdue.
      by destruct (HasExpired now (mem rm !!! curr)). }
    rewrite Hexp in Hrun. rewrite decide_True by done.
    apply IH in Hrun; [|lia]. destruct Hrun as [Hcalls Hmem].
    set (rm1 := send_request Intn now curr RequestWaitingDataResp rm) in *.
    assert (∀ el, el ∈ rest → mem rm1 !!! el = mem rm !!! el) as Hsame.
    { intros el Hel. unfold rm1. rewrite send_request_mem.
      apply lookup_total_insert_ne. by intros ->. }
    assert (filter (λ el, due_by_hash now (mem rm1 !!! el)) rest
            = filter (λ el, due_by_hash now (mem rm !!! el)) rest) as Hfilter.
    { apply filter_ext_elem. intros el Hel. by rewrite Hsame. }
    rewrite Hfilter in Hcalls, Hmem.
    replace (Z.to_nat q) with (S (Z.to_nat (q - 1))) by lia. simpl.
    set (sent := take (Z.to_nat (q - 1))
                   (filter (λ el, due_by_hash now (mem rm !!! el)) rest)) in *.
    assert (∀ el, el ∈ sent → el ∈ rest) as Hsent.
    { intros el Hel. unfold sent in Hel.
      apply elem_of_take in Hel as (i & Hi & _).
      apply list_elem_of_lookup_2 in Hi.
      by apply list_elem_of_filter in Hi as [_ Hi]. }
    split.
    + rewrite Hcalls. unfold rm1 at 1. rewrite send_request_calls.
      rewrite <- app_assoc. f_equal. simpl. f_equal.
      apply list_fmap_ext. intros i el Hi.
      by rewrite Hsame by by apply Hsent, list_elem_of_lookup_2 with i.
    + intros el. rewrite Hmem. destruct (decide (el = curr)) as [->|Hne].
      * rewrite decide_False by (intros Hin; by apply Hcurr, Hsent).
        rewrite decide_True by (apply elem_of_cons; by left).
        unfold rm1. rewrite send_request_mem. apply lookup_total_insert_eq.
      * assert (mem rm1 !!! el = mem rm !!! el) as ->.
        { unfold rm1. rewrite send_request_mem.
          by apply lookup_total_insert_ne. }
        destruct (decide (el ∈ sent)) as [Hin|Hin].
        -- rewrite decide_True by (apply elem_of_cons; by right). done.
        -- rewrite decide_False; [done|].
           intros [->|Hin']%elem_of_cons; done.
  - rewrite decide_False by (simpl; tauto).
    destruct (HasExpired now (mem rm !!! curr)); by apply IH in Hrun.
Qed.

Lemma hash_loop_only now els q rem rm rm' rem' q' :
  hash_loop Intn now els q rem rm = (rm', rem', q') →
  only_requests rm rm'
  ∧ pendingBlocks rm' = pendingBlocks rm
  ∧ pendingBlocksByHash rm' = pendingBlocksByHash rm
  ∧ pendingBlocksByParent rm' = pendingBlocksByParent rm
  ∧ pendingBlocksWithHeader rm' = pendingBlocksWithHeader rm.
Proof.
  revert q rem rm. induction els as [|curr rest IH]; intros q rem rm Hrun.
  { simpl in Hrun. injection Hrun as <- _ _. by repeat split. }
  destruct (decide (q = 0)) as [->|Hq0].
  { rewrite hash_loop_stop in Hrun. injection Hrun as <- _ _. by repeat split. }
  rewrite hash_loop_cons in Hrun by done.
  destruct (HasExpired now (mem rm !!! curr)); [by apply IH in Hrun|].
  destruct (due_by_hash now (mem rm !!! curr)); [|by apply IH in Hrun].
  apply IH in Hrun. exact Hrun.
Qed.

Lemma filter_all {A} (P : A → Prop) `{∀ x, Decision (P x)} (l : list A) :
  (∀ x, P x) → filter P l = l.
Proof.
  intros HP. induction l as [|a l IH]; [done|].
  by rewrite filter_cons_True, IH.
Qed.

(** What [removeEl] does to the list and to the by-hash map. *)
Lemma removeEl_index el rm :
  pendingBlocks (removeEl el rm) = list_Remove el (pendingBlocks rm)
  ∧ pendingBlocksByHash (removeEl el rm)
    = delete (hash (mem rm !!! el)) (pendingBlocksByHash rm)
  ∧ only_requests rm (removeEl el rm).
Proof.
  unfold removeEl, only_requests. simpl.
  destruct (block (mem rm !!! el)) as [b|]; simpl; [|done].
  destruct (pendingBlocksByParent rm !! Parent (Header b)) as [blocks|]; simpl;
    [|done].
  destruct (find_block b blocks) as [found|]; simpl.
  - rewrite lookup_insert_eq. by destruct (delete found blocks).
  - by destruct (pendingBlocksByParent rm !! Parent (Header b)) as [[|??]|].
Qed.

Lemma only_requests_refl rm : only_requests rm rm.
Proof. by repeat split. Qed.

Lemma only_requests_trans rm1 rm2 rm3 :
  only_requests rm1 rm2 → only_requests rm2 rm3 → only_requests rm1 rm3.
Proof.
  unfold only_requests. intros (?&?&?&?&?&?) (?&?&?&?&?&?).
  split_and!; congruence.
Qed.

Lemma foldl_removeEl_only els rm :
  only_requests rm (foldl (λ rm el, removeEl el rm) rm els).
Proof.
  revert rm. induction els as [|el els IH]; intros rm; simpl.
  - apply only_requests_refl.
  - eapply only_requests_trans; [|apply IH]. apply removeEl_index.
Qed.

Lemma foldl_removeEl_list els rm :
  pendingBlocks (foldl (λ rm el, removeEl el rm) rm els)
  = filter (λ el, el ∉ els) (pendingBlocks rm).
Proof.
  revert rm. induction els as [|el els IH]; intros rm; simpl.
  - symmetry. apply filter_all. intros x. apply not_elem_of_nil.
  - rewrite IH. destruct (removeEl_index el rm) as [-> _].
    unfold list_Remove. rewrite list_filter_filter.
    apply list_filter_iff. intros x. rewrite not_elem_of_cons. tauto.
Qed.

Lemma same_block_refl pb : same_block pb pb.
Proof. by repeat split. Qed.

Lemma same_block_trans pb1 pb2 pb3 :
  same_block pb1 pb2 → same_block pb2 pb3 → same_block pb1 pb3.
Proof.
  unfold same_block. intros (?&?&?&?) (?&?&?&?). split_and!; congruence.
Qed.

Lemma same_block_expired now pb pb' :
  same_block pb pb' → HasExpired now pb' = HasExpired now pb.
Proof. intros (_&_&_&Hc). unfold HasExpired. by rewrite Hc. Qed.

Lemma send_request_same_block now el st rm el' :
  same_block (mem rm !!! el') (mem (send_request Intn now el st rm) !!! el').
Proof.
  rewrite send_request_mem. destruct (decide (el' = el)) as [->|Hne].
  - rewrite lookup_total_insert_eq. by repeat split.
  - rewrite lookup_total_insert_ne by done. apply same_block_refl.
Qed.

Lemma hash_loop_same_block now els q rem rm rm' rem' q' :
  hash_loop Intn now els q rem rm = (rm', rem', q') →
  ∀ el, same_block (mem rm !!! el) (mem rm' !!! el)
        ∧ header (mem rm' !!! el) = header (mem rm !!! el)
        ∧ (is_Some (mem rm !! el) → is_Some (mem rm' !! el)).
Proof.
  revert q rem rm. induction els as [|curr rest IH]; intros q rem rm Hrun el.
  { simpl in Hrun. injection Hrun as <- _ _. split; [apply same_block_refl|done]. }
  destruct (decide (q = 0)) as [->|Hq0].
  { rewrite hash_loop_stop in Hrun. injection Hrun as <- _ _.
    split; [apply same_block_refl|done]. }
  rewrite hash_loop_cons in Hrun by done.
  destruct (HasExpired now (mem rm !!! curr)); [exact (IH _ _ _ Hrun el)|].
  destruct (due_by_hash now (mem rm !!! curr)); [|exact (IH _ _ _ Hrun el)].
  destruct (IH _ _ _ Hrun el) as (Hsame & Hhd & Hcell). split_and!.
  - eapply same_block_trans; [|exact Hsame]. apply send_request_same_block.
  - rewrite Hhd, send_request_mem. destruct (decide (el = curr)) as [->|Hne].
    + by rewrite lookup_total_insert_eq.
    + by rewrite lookup_total_insert_ne.
  - intros Hsome. apply Hcell. rewrite send_request_mem.
    apply lookup_insert_is_Some'. by right.
Qed.

(** The elements the first loop marks for removal: expired ones, in the
    order of the list; all of them when the quota does not run out. *)
Lemma hash_loop_removes now els q rem rm rm' rem' q' :
  hash_loop Intn now els q rem rm = (rm', rem', q') →
  ∃ more,
    rem' = rem ++ more
    ∧ more `prefix_of` filter (λ el, HasExpired now (mem rm !!! el)) els
    ∧ (Z.of_nat (length els) < q →
       more = filter (λ el, HasExpired now (mem rm !!! el)) els).
Proof.
  revert q rem rm. induction els as [|curr rest IH]; intros q rem rm Hrun.
  { simpl in Hrun. injection Hrun as _ <- _. exists []. by rewrite app_nil_r. }
  destruct (decide (q = 0)) as [->|Hq0].
  { rewrite hash_loop_stop in Hrun. injection Hrun as _ <- _. exists [].
    rewrite app_nil_r. split_and!; [done|apply prefix_nil|].
    rewrite length_cons. lia. }
  rewrite hash_loop_cons in Hrun by done. rewrite filter_cons.
  destruct (HasExpired now (mem rm !!! curr)) eqn:Hexp.
  - apply IH in Hrun as (more & -> & Hpre & Hall). exists (curr :: more).
    rewrite decide_True by done. split_and!.
    + by rewrite <- app_assoc.
    + by apply prefix_cons.
    + rewrite length_cons. intros Hq. rewrite Hall by lia. done.
  - rewrite decide_False by (simpl; tauto).
    destruct (due_by_hash now (mem rm !!! curr)).
    + pose proof Hrun as Hrun'.
      apply IH in Hrun as (more & -> & Hpre & Hall).
      assert (filter (λ el, HasExpired now
                (mem (send_request Intn now curr RequestWaitingDataResp rm) !!! el))
                rest
              = filter (λ el, HasExpired now (mem rm !!! el)) rest) as Hfilter.
      { apply list_filter_iff. intros el.
        by rewrite (same_block_expired now _ _
                      (send_request_same_block now curr _ rm el)). }
      rewrite Hfilter in Hpre, Hall. exists more. split_and!; [done|done|].
      rewrite length_cons. intros Hq. apply Hall. lia.
    + apply IH in Hrun as (more & -> & Hpre & Hall). exists more.
      split_and!; [done|done|]. rewrite length_cons. intros Hq. apply Hall. lia.
Qed.

(** X2.  One pass of [downloadBlockFromHash] with a quota of [q] over a
    list without repetitions asks for the first [q] blocks of the list that
    are due (unexpired, without header, with a peer, never asked for or
    timed out), in the order of the list, each from one of its own peers,
    and for no other.  The cell of a block asked for is marked as waiting
    with the time of the pass; no other cell changes. *)
Theorem downloadBlockFromHash_requests now q rm :
  NoDup (pendingBlocks rm) → 0 ≤ q →
  let sent := take (Z.to_nat q)
                (filter (λ el, due_by_hash now (mem rm !!! el))
                   (pendingBlocks rm)) in
  let rm' := downloadBlockFromHash Intn now q rm in
  dataCalls rm' = dataCalls rm ++ ((λ el, request_of Intn (mem rm !!! el)) <$> sent)
  ∧ (∀ el, el ∈ sent →
       dc_peer (request_of Intn (mem rm !!! el)) ∈ peers (mem rm !!! el))
  ∧ (∀ el, mem rm' !!! el = if decide (el ∈ sent)
                           then asked now RequestWaitingDataResp (mem rm !!! el)
                           else mem rm !!! el).
Proof.
  intros Hnd Hq sent rm'. subst rm'. unfold downloadBlockFromHash.
  destruct (hash_loop Intn now (pendingBlocks rm) q [] rm)
    as [[rm1 rem] q1] eqn:Hrun.
  apply hash_loop_requests in Hrun as [Hcalls Hmem]; [|done|done].
  rewrite foldl_removeEl_dataCalls, foldl_removeEl_mem. split_and!.
  - exact Hcalls.
  - intros el Hel. simpl. apply randomPeer_elem.
    apply due_by_hash_peers with now. unfold sent in Hel.
    apply elem_of_take in Hel as (i & Hi & _).
    apply list_elem_of_lookup_2 in Hi.
    apply list_elem_of_filter in Hi as [Hdue _].
    by apply Is_true_true.
  - exact Hmem.
Qed.

Lemma downloadBlockFromHash_list now q rm :
  pendingBlocks (downloadBlockFromHash Intn now q rm)
    `sublist_of` pendingBlocks rm
  ∧ (∀ el, el ∈ pendingBlocks rm →
       HasExpired now (mem rm !!! el) = false →
       el ∈ pendingBlocks (downloadBlockFromHash Intn now q rm))
  ∧ (Z.of_nat (length (pendingBlocks rm)) < q →
     pendingBlocks (downloadBlockFromHash Intn now q rm)
     = filter (λ el, HasExpired now (mem rm !!! el) = false) (pendingBlocks rm)).
Proof.
  unfold downloadBlockFromHash.
  destruct (hash_loop Intn now (pendingBlocks rm) q [] rm)
    as [[rm1 rem] q1] eqn:Hrun.
  pose proof (hash_loop_only _ _ _ _ _ _ _ _ Hrun) as (_ & Hlist & _).
  apply hash_loop_removes in Hrun as (more & -> & Hpre & Hall). simpl.
  rewrite foldl_removeEl_list, Hlist. split_and!.
  - apply sublist_filter.
  - intros el Hel Hexp. apply list_elem_of_filter. split; [|done].
    intros Hin. destruct Hpre as [k Hk].
    assert (el ∈ filter (λ el, HasExpired now (mem rm !!! el)) (pendingBlocks rm))
      as Hin' by (rewrite Hk; apply elem_of_app; by left).
    apply list_elem_of_filter in Hin' as [Hin' _].
    apply Is_true_true in Hin'. congruence.
  - intros Hq. rewrite (Hall Hq). apply filter_ext_elem. intros el Hel.
    rewrite list_elem_of_filter.
    destruct (HasExpired now (mem rm !!! el)); simpl; split; try done.
    + intros Hn. exfalso. apply Hn. done.
    + intros _ [[] _].
Qed.

(** *** The pass over the header heap *)

Lemma same_block_kept now pb pb' :
  same_block pb pb' → kept_with_header now pb' = kept_with_header now pb.
Proof.
  intros (_ & Hb & Hp & Hc). unfold kept_with_header, HasExpired.
  by rewrite Hb, Hp, Hc.
Qed.

Lemma header_loop_end now backup q rm :
  q = 0 ∨ pendingBlocksWithHeader rm = [] →
  ∀ fuel, header_loop Intn fuel now backup q rm = Ok (rm, backup, q).
Proof.
  intros Hend fuel.
  assert (bool_decide (0 < HeaderHeap.Len (pendingBlocksWithHeader rm))%nat
          && bool_decide (q ≠ 0) = false) as Hcond.
  { destruct Hend as [-> | ->].
    - rewrite (bool_decide_false (0 ≠ 0)) by tauto. apply andb_false_r.
    - done. }
  destruct fuel; simpl; by rewrite Hcond.
Qed.

(** One pass of the loop of [downloadBlockFromHeader], seen from its
    result: either the loop is over, or an entry has been popped and the
    loop goes on from a state that differs from the one before as
    stated. *)
Lemma header_loop_inv fuel now backup q rm r :
  header_loop Intn fuel now backup q rm = Ok r →
  (r = (rm, backup, q) ∧ (q = 0 ∨ pendingBlocksWithHeader rm = []))
  ∨ ∃ fuel' el backup1 q1 rm1,
      fuel = S fuel'
      ∧ q ≠ 0
      ∧ header_loop Intn fuel' now backup1 q1 rm1 = Ok r
      ∧ pendingBlocksWithHeader rm ≡ₚ el :: pendingBlocksWithHeader rm1
      ∧ (∀ el', same_block (mem rm !!! el') (mem rm1 !!! el'))
      ∧ (∀ el', header (mem rm !!! el') = None → header (mem rm1 !!! el') = None)
      ∧ (HasExpired now (mem rm !!! el) = true → header (mem rm1 !!! el) = None)
      ∧ (if kept_with_header now (mem rm !!! el)
         then backup1 ≡ₚ el :: backup else backup1 = backup)
      ∧ (q1 = q ∨ q1 = q - 1)
      ∧ only_requests rm rm1
      ∧ pendingBlocks rm1 = pendingBlocks rm
      ∧ pendingBlocksByHash rm1 = pendingBlocksByHash rm
      ∧ pendingBlocksByParent rm1 = pendingBlocksByParent rm.
Proof.
  destruct (decide (q = 0 ∨ pendingBlocksWithHeader rm = [])) as [Hend|Hgo].
  { rewrite header_loop_end by done. intros [= <-]. by left. }
  assert (q ≠ 0 ∧ pendingBlocksWithHeader rm ≠ []) as [Hq Hne] by tauto.
  assert (bool_decide (0 < HeaderHeap.Len (pendingBlocksWithHeader rm))%nat
          && bool_decide (q ≠ 0) = true) as Hcond.
  { rewrite (bool_decide_true (q ≠ 0)) by done.
    rewrite bool_decide_true; [done|].
    destruct (pendingBlocksWithHeader rm); [done|].
    unfold HeaderHeap.Len. simpl. lia. }
  intros Hrun. right.
  destruct fuel as [|fuel]; simpl in Hrun; rewrite Hcond in Hrun; [done|].
  destruct (heap.Pop (mem rm) (pendingBlocksWithHeader rm)) as [[el h1]| |]
    eqn:Hpop; simpl in Hrun; [|done|done].
  apply heap_Pop_perm in Hpop.
  destruct (HasExpired now (mem rm !!! el)) eqn:Hexp.
  { exists fuel, el, backup, q,
      (with_mem (<[el := set_header None (mem rm !!! el)]> (mem rm))
         (with_heap h1 rm)).
    unfold kept_with_header. rewrite Hexp. simpl.
    assert (∀ el', same_block (mem rm !!! el')
                     (<[el := set_header None (mem rm !!! el)]> (mem rm) !!! el'))
      as Hsame.
    { intros el'. destruct (decide (el' = el)) as [->|Hne'].
      - rewrite lookup_total_insert_eq. by repeat split.
      - rewrite lookup_total_insert_ne by done. apply same_block_refl. }
    assert (∀ el', header (mem rm !!! el') = None →
              header (<[el := set_header None (mem rm !!! el)]> (mem rm) !!! el')
              = None) as Hnone.
    { intros el'. destruct (decide (el' = el)) as [->|Hne'].
      - by rewrite lookup_total_insert_eq.
      - by rewrite lookup_total_insert_ne by done. }
    split_and!; try done; try (by left).
    intros _. by rewrite lookup_total_insert_eq. }
  destruct (block (mem rm !!! el)) as [b|] eqn:Hblock.
  { rewrite bool_decide_true in Hrun by done.
    exists fuel, el, backup, q, (with_heap h1 rm).
    unfold kept_with_header. rewrite Hexp, Hblock. simpl.
    split_and!; try done; try (by left); try (by rewrite Hexp). }
  rewrite bool_decide_false in Hrun by (intros Hn; by apply Hn).
  destruct (decide (length (peers (mem rm !!! el)) = 0%nat)) as [Hlen|Hlen].
  { rewrite bool_decide_true in Hrun by done.
    exists fuel, el, backup, q, (with_heap h1 rm).
    unfold kept_with_header. rewrite Hexp, Hblock. simpl.
    rewrite (bool_decide_true _ Hlen). simpl.
    split_and!; try done; try (by left); try (by rewrite Hexp). }
  rewrite bool_decide_false in Hrun by done.
  assert (kept_with_header now (mem rm !!! el) = true) as Hkept.
  { unfold kept_with_header. rewrite Hexp, Hblock. simpl.
    by rewrite (bool_decide_false _ Hlen). }
  destruct (bool_decide (status (mem rm !!! el) = RequestToSendBodyReq)
            || bool_decide (status (mem rm !!! el) = RequestWaitingBodyResp)
               && HasTimedOut now (mem rm !!! el)).
  - destruct (heap.Push _ backup (IPendingBlock el)) as [backup1| |] eqn:Hpush;
      simpl in Hrun; [|done|done].
    apply heap_Push_perm in Hpush.
    exists fuel, el, backup1, (q - 1),
      (send_request Intn now el RequestWaitingBodyResp (with_heap h1 rm)).
    rewrite Hkept.
    assert (∀ el', header (mem rm !!! el') = None →
              header (mem (send_request Intn now el RequestWaitingBodyResp
                             (with_heap h1 rm)) !!! el') = None) as Hnone.
    { intros el'. rewrite send_request_mem. simpl.
      destruct (decide (el' = el)) as [->|Hne'].
      - by rewrite lookup_total_insert_eq.
      - by rewrite lookup_total_insert_ne by done. }
    split_and!; try done; try (by right); try (by rewrite Hexp).
    intros el'. apply (send_request_same_block now el _ (with_heap h1 rm) el').
  - destruct (heap.Push _ backup (IPendingBlock el)) as [backup1| |] eqn:Hpush;
      simpl in Hrun; [|done|done].
    apply heap_Push_perm in Hpush.
    exists fuel, el, backup1, q, (with_heap h1 rm).
    rewrite Hkept.
    split_and!; try done; try (by left); try (by rewrite Hexp).
Qed.

Lemma header_loop_heap fuel now backup q rm rm' backup' q' :
  header_loop Intn fuel now backup q rm = Ok (rm', backup', q') →
  backup' ++ pendingBlocksWithHeader rm' ⊆+ backup ++ pendingBlocksWithHeader rm
  ∧ (∀ el, same_block (mem rm !!! el) (mem rm' !!! el))
  ∧ (∀ el, header (mem rm !!! el) = None → header (mem rm' !!! el) = None)
  ∧ only_requests rm rm'
  ∧ pendingBlocks rm' = pendingBlocks rm
  ∧ pendingBlocksByHash rm' = pendingBlocksByHash rm
  ∧ pendingBlocksByParent rm' = pendingBlocksByParent rm
  ∧ ((∀ el, el ∈ backup → kept_with_header now (mem rm !!! el) = true) →
     ∀ el, el ∈ backup' → kept_with_header now (mem rm' !!! el) = true)
  ∧ (Z.of_nat (length (pendingBlocksWithHeader rm)) < q →
     backup' ≡ₚ backup ++ filter (λ el, kept_with_header now (mem rm !!! el))
                            (pendingBlocksWithHeader rm)
     ∧ ∀ el, el ∈ pendingBlocksWithHeader rm →
             HasExpired now (mem rm !!! el) = true →
             header (mem rm' !!! el) = None).
Proof.
  revert backup q rm.
  induction fuel as [|fuel IH]; intros backup q rm Hrun;
    apply header_loop_inv in Hrun
      as [[[= <- <- <-] Hend]
         |(fuel' & el & backup1 & q1 & rm1 & Hfuel & Hq & Hrun & Hpop & Hsame
           & Hnone & Hexp & Hkept & Hq1 & Honly & Hlist & HbyHash & HbyParent)];
    try done.
  - split_and!; try done; try (by intros el; apply same_block_refl);
      try (by apply only_requests_refl).
    intros Hlt. destruct Hend as [-> | ->]; [lia|].
    rewrite filter_nil, app_nil_r. split; [done|].
    intros el Hel. by apply not_elem_of_nil in Hel.
  - split_and!; try done; try (by intros el; apply same_block_refl);
      try (by apply only_requests_refl).
    intros Hlt. destruct Hend as [-> | ->]; [lia|].
    rewrite filter_nil, app_nil_r. split; [done|].
    intros el Hel. by apply not_elem_of_nil in Hel.
  - injection Hfuel as <-.
    apply IH in Hrun
      as (Hsub & Hsame' & Hnone' & Honly' & Hlist' & HbyHash' & HbyParent'
          & Hkept' & Hall').
    assert (backup1 ++ pendingBlocksWithHeader rm1
            ⊆+ backup ++ pendingBlocksWithHeader rm) as Hstep.
    { rewrite Hpop. destruct (kept_with_header now (mem rm !!! el)).
      - rewrite Hkept. apply Permutation_submseteq. simpl.
        apply Permutation_middle.
      - subst backup1. apply submseteq_skips_l, submseteq_cons. done. }
    split_and!.
    + by etrans.
    + intros el'. by eapply same_block_trans.
    + intros el' Hel'. by apply Hnone', Hnone.
    + by eapply only_requests_trans.
    + congruence.
    + congruence.
    + congruence.
    + intros Hbackup. apply Hkept'. intros el' Hel'.
      rewrite (same_block_kept now _ _ (Hsame el')).
      destruct (kept_with_header now (mem rm !!! el)) eqn:Hk.
      * rewrite Hkept in Hel'. apply elem_of_cons in Hel' as [->|Hel'];
          [done|by apply Hbackup].
      * subst backup1. by apply Hbackup.
    + intros Hlt.
      assert (length (pendingBlocksWithHeader rm)
              = S (length (pendingBlocksWithHeader rm1))) as Hlen.
      { by rewrite Hpop. }
      destruct Hall' as [Hperm Hexpired]; [lia|].
      assert (filter (λ el, kept_with_header now (mem rm1 !!! el))
                (pendingBlocksWithHeader rm1)
              = filter (λ el, kept_with_header now (mem rm !!! el))
                  (pendingBlocksWithHeader rm1)) as Hfilter.
      { apply list_filter_iff. intros el'.
        by rewrite (same_block_kept now _ _ (Hsame el')). }
      split.
      * rewrite Hperm, Hfilter, Hpop, filter_cons.
        destruct (kept_with_header now (mem rm !!! el)).
        -- rewrite decide_True by done. rewrite Hkept. simpl.
           apply Permutation_middle.
        -- rewrite decide_False by (simpl; tauto). by subst backup1.
      * intros el' Hel' Hexp'. rewrite Hpop in Hel'.
        apply elem_of_cons in Hel' as [->|Hel'].
        -- by apply Hnone', Hexp.
        -- apply Hexpired; [done|].
           by rewrite (same_block_expired now _ _ (Hsame el')).
Qed.

(** X4.  [downloadBlockFromHeader] never adds to the header heap.  The heap
    it leaves holds entries of the heap it found, each at most as often,
    and every one of them is unexpired, without a body and with a peer to
    ask.  With a quota above the size of the heap these are exactly the
    entries it keeps, and every expired entry has lost its header.  The
    list, the by-hash map and the by-parent map are as before: an entry
    that leaves the heap stays a pending block. *)
Theorem downloadBlockFromHeader_heap now q rm rm' :
  downloadBlockFromHeader Intn now q rm = Ok rm' →
  pendingBlocksWithHeader rm' ⊆+ pendingBlocksWithHeader rm
  ∧ (∀ el, el ∈ pendingBlocksWithHeader rm' →
           kept_with_header now (mem rm' !!! el) = true)
  ∧ (Z.of_nat (length (pendingBlocksWithHeader rm)) < q →
     pendingBlocksWithHeader rm'
       ≡ₚ filter (λ el, kept_with_header now (mem rm !!! el))
            (pendingBlocksWithHeader rm)
     ∧ ∀ el, el ∈ pendingBlocksWithHeader rm →
             HasExpired now (mem rm !!! el) = true →
             header (mem rm' !!! el) = None)
  ∧ pendingBlocks rm' = pendingBlocks rm
  ∧ pendingBlocksByHash rm' = pendingBlocksByHash rm
  ∧ pendingBlocksByParent rm' = pendingBlocksByParent rm.
Proof.
  unfold downloadBlockFromHeader.
  destruct (header_loop Intn _ now [] q rm) as [[[rm1 backup] q1]| |] eqn:Hrun;
    simpl; [|done|done].
  intros [= <-]. simpl.
  apply header_loop_heap in Hrun
    as (Hsub & Hsame & Hnone & Honly & Hlist & HbyHash & HbyParent
        & Hkept & Hall).
  split_and!; try done.
  - etrans; [|exact Hsub]. apply submseteq_inserts_r. done.
  - apply Hkept. intros el Hel. by apply not_elem_of_nil in Hel.
Qed.

(** *** One pass of [tryToDownload] *)

Lemma downloadBlockFromHash_only now q rm :
  only_requests rm (downloadBlockFromHash Intn now q rm)
  ∧ (∀ el, same_block (mem rm !!! el)
             (mem (downloadBlockFromHash Intn now q rm) !!! el)).
Proof.
  unfold downloadBlockFromHash.
  destruct (hash_loop Intn now (pendingBlocks rm) q [] rm)
    as [[rm1 rem] q1] eqn:Hrun.
  split.
  - eapply only_requests_trans; [|apply foldl_removeEl_only].
    by apply hash_loop_only in Hrun as [? _].
  - intros el. rewrite foldl_removeEl_mem.
    by destruct (hash_loop_same_block _ _ _ _ _ _ _ _ Hrun el) as [? _].
Qed.

Lemma downloadBlockFromHeader_only now q rm rm' :
  downloadBlockFromHeader Intn now q rm = Ok rm' →
  only_requests rm rm'
  ∧ (∀ el, same_block (mem rm !!! el) (mem rm' !!! el)).
Proof.
  unfold downloadBlockFromHeader.
  destruct (header_loop Intn _ now [] q rm) as [[[rm1 backup] q1]| |] eqn:Hrun;
    simpl; [|done|done].
  intros [= <-]. simpl.
  by apply header_loop_heap in Hrun as (_ & Hsame & _ & Honly & _).
Qed.

Lemma buildInventoryRequest_last c tip lfb starts :
  buildInventoryRequest c tip lfb = Ok starts →
  ∃ front, starts = front ++ [Hash (Header (EBlock lfb))].
Proof.
  unfold buildInventoryRequest, buildInventoryRequest_fuel.
  destruct (locator_loop _ _ _ _ _ _ _) as [front| |]; simpl; [|done|done].
  intros [= <-]. by exists front.
Qed.

(** X5.  A pass of [tryToDownload] sends at most one inventory request.  It
    sends one exactly when 30 s have passed since the last one, or 3 s and
    something is pending; the request ends with the hash of the last
    finalized block and the time of the last request becomes the time of
    the pass.  Otherwise the requests and that time stay as they are: two
    inventory requests are never less than 3 s apart. *)
Theorem tryToDownload_inventory now tip lfb rm rm' :
  tryToDownload Intn now tip lfb rm = Ok rm' →
  (inventoryCalls rm' = inventoryCalls rm
   ∧ lastInventoryRequest rm' = lastInventoryRequest rm
   ∧ now - lastInventoryRequest rm < MaxInventoryRequestInterval
   ∧ (hasUndownloadedBlocks rm = false
      ∨ now - lastInventoryRequest rm < MinInventoryRequestInterval))
  ∨ (∃ front,
       inventoryCalls rm'
       = inventoryCalls rm ++ [front ++ [Hash (Header (EBlock lfb))]]
       ∧ lastInventoryRequest rm' = now
       ∧ MinInventoryRequestInterval ≤ now - lastInventoryRequest rm
       ∧ (hasUndownloadedBlocks rm = true
          ∨ MaxInventoryRequestInterval ≤ now - lastInventoryRequest rm)).
Proof.
  unfold tryToDownload. fold (hasUndownloadedBlocks rm).
  match goal with |- res_bind ?m _ = _ → _ => set (inv := m) end.
  intros Hrun.
  assert (∃ rm1, inv = Ok rm1
                 ∧ inventoryCalls rm' = inventoryCalls rm1
                 ∧ lastInventoryRequest rm' = lastInventoryRequest rm1)
    as (rm1 & Hinv & -> & ->).
  { destruct inv as [rm1| |]; simpl in Hrun; [|done|done].
    destruct (downloadBlockFromHeader Intn now (quota rm1) rm1) as [rm2| |]
      eqn:Hhdr; simpl in Hrun; [|done|done].
    injection Hrun as <-. exists rm1. split; [done|].
    apply downloadBlockFromHeader_only in Hhdr as [(_&_&_&Hi&Hl&_) _].
    destruct (downloadBlockFromHash_only now (quota rm2) rm2)
      as [(_&_&_&Hi'&Hl'&_) _].
    split; congruence. }
  clear Hrun. subst inv.
  destruct (bool_decide (now - lastInventoryRequest rm
                         >= MaxInventoryRequestInterval)) eqn:Hmax;
    [apply bool_decide_eq_true in Hmax|apply bool_decide_eq_false in Hmax];
  destruct (hasUndownloadedBlocks rm) eqn:Hhas;
  (destruct (bool_decide (now - lastInventoryRequest rm
                          >= MinInventoryRequestInterval)) eqn:Hmin;
    [apply bool_decide_eq_true in Hmin|apply bool_decide_eq_false in Hmin]);
  simpl in Hinv;
  unfold MinInventoryRequestInterval, MaxInventoryRequestInterval, second in *;
  try lia.
  all: try (destruct (buildInventoryRequest (chain rm) tip lfb) as [starts| |]
              eqn:Hbuild; simpl in Hinv; [|done|done];
            apply buildInventoryRequest_last in Hbuild as [front ->];
            injection Hinv as <-; right; exists front; simpl;
            split_and!; try done; try lia; try (by left); by right).
  all: injection Hinv as <-; left; split_and!; try done; try lia;
         try (by left); right; lia.
Qed.

Lemma downloadBlockFromHash_sublist now q rm :
  pendingBlocks (downloadBlockFromHash Intn now q rm)
    `sublist_of` pendingBlocks rm
  ∧ pendingBlocksWithHeader (downloadBlockFromHash Intn now q rm)
    = pendingBlocksWithHeader rm.
Proof.
  unfold downloadBlockFromHash.
  destruct (hash_loop Intn now (pendingBlocks rm) q [] rm)
    as [[rm1 rem] q1] eqn:Hrun.
  apply hash_loop_only in Hrun as (_ & Hlist & _ & _ & Hheap).
  rewrite foldl_removeEl_list, foldl_removeEl_heap, Hlist, Hheap.
  split; [apply sublist_filter|done].
Qed.

(** X6.  A tick is a request pass and nothing else.  It hands no block to
    the chain store or to consensus and leaves the chain store alone; it
    never changes the hash, the body, the peers or the time of creation of
    a pending block; it adds no element to the list and no entry to the
    header heap; it sends at most twice [RequestQuotaPerSecond] data
    requests; and the quota field is [RequestQuotaPerSecond] after it. *)
Theorem tick_effects now tip lfb rm rm' :
  tick Intn now tip lfb rm = Ok rm' →
  chain rm' = chain rm
  ∧ handedToChain rm' = handedToChain rm
  ∧ passedDown rm' = passedDown rm
  ∧ quota rm' = RequestQuotaPerSecond
  ∧ (∀ el, same_block (mem rm !!! el) (mem rm' !!! el))
  ∧ pendingBlocks rm' `sublist_of` pendingBlocks rm
  ∧ pendingBlocksWithHeader rm' ⊆+ pendingBlocksWithHeader rm
  ∧ Z.of_nat (length (dataCalls rm'))
    ≤ Z.of_nat (length (dataCalls rm)) + 2 * RequestQuotaPerSecond.
Proof.
  intros Hrun. pose proof (tick_sends Intn _ _ _ _ _ Hrun) as Hsends.
  revert Hrun. unfold tick, tryToDownload.
  match goal with |- res_bind ?m _ = _ → _ => set (inv := m) end.
  assert (∀ rm1, inv = Ok rm1 →
            chain rm1 = chain rm ∧ handedToChain rm1 = handedToChain rm
            ∧ passedDown rm1 = passedDown rm
            ∧ quota rm1 = RequestQuotaPerSecond
            ∧ mem rm1 = mem rm
            ∧ pendingBlocks rm1 = pendingBlocks rm
            ∧ pendingBlocksWithHeader rm1 = pendingBlocksWithHeader rm)
    as Hinv.
  { intros rm1. subst inv. destruct (_ || _); [|by intros [= <-]].
    destruct (buildInventoryRequest _ tip lfb); simpl; [|done|done].
    by intros [= <-]. }
  destruct inv as [rm1| |]; simpl; [|done|done].
  destruct (Hinv rm1 eq_refl) as (Hc & Hh & Hp & Hq & Hm & Hl & Hw).
  destruct (downloadBlockFromHeader Intn now (quota rm1) rm1) as [rm2| |]
    eqn:Hhdr; simpl; [|done|done].
  intros [= <-].
  pose proof (downloadBlockFromHeader_only _ _ _ _ Hhdr)
    as [(Hc2 & Hh2 & Hp2 & _ & _ & Hq2) Hsame2].
  assert (pendingBlocksWithHeader rm2 ⊆+ pendingBlocksWithHeader rm1
          ∧ pendingBlocks rm2 = pendingBlocks rm1) as [Hw2 Hl2].
  { revert Hhdr. unfold downloadBlockFromHeader.
    destruct (header_loop Intn _ now [] (quota rm1) rm1)
      as [[[rm3 backup] q3]| |] eqn:Hloop; simpl; [|done|done].
    intros [= <-]. simpl.
    apply header_loop_heap in Hloop as (Hsub & _ & _ & _ & Hlist & _).
    split; [|done]. etrans; [|exact Hsub]. by apply submseteq_inserts_r. }
  destruct (downloadBlockFromHash_only now (quota rm2) rm2)
    as [(Hc3 & Hh3 & Hp3 & _ & _ & Hq3) Hsame3].
  destruct (downloadBlockFromHash_sublist now (quota rm2) rm2) as [Hl3 Hw3].
  split_and!; try congruence.
  intros el. eapply same_block_trans; [|apply Hsame3].
  rewrite <- Hm. apply Hsame2.
Qed.

(** *** The locator of the inventory request *)

Lemma locator_loop_heights fuel c tipHeight lfbHeight index step starts starts' :
  0 ≤ lfbHeight → 0 ≤ index ≤ tipHeight → tipHeight < 2 ^ 64 →
  - 2 ^ 63 ≤ step < 2 ^ 63 →
  locator_loop fuel c tipHeight lfbHeight index step starts = Ok starts' →
  ∃ heights,
    starts' = starts ++ ((λ b, Hash (Header (EBlock b)))
                         <$> concat (FindBlocksByHeight c <$> heights))
    ∧ Forall (λ h, lfbHeight < h ≤ index) heights
    ∧ StronglySorted (λ a b, b < a) heights
    ∧ (step = 1 → ∀ h, lfbHeight < h ≤ index → tipHeight - h < 10 → h ∈ heights).
Proof.
  intros Hlfb. revert index step starts.
  induction fuel as [|fuel IH]; intros index step starts Hi Htip Hs; simpl.
  { case_bool_decide; [done|]. intros [= <-]. exists [].
    rewrite app_nil_r. split_and!; [done|constructor|constructor|].
    intros _ h Hh. lia. }
  case_bool_decide as Hgt.
  2:{ intros [= <-]. exists [].
      rewrite app_nil_r. split_and!; [done|constructor|constructor|].
      intros _ h Hh. lia. }
  destruct (locator_step tipHeight index step) as [step'|] eqn:Hstep.
  2:{ intros [= <-]. exists [].
      rewrite app_nil_r. split_and!; [done|constructor|constructor|].
      intros -> h Hh Hten. exfalso. revert Hstep. unfold locator_step.
      rewrite (to_uint64_small (tipHeight - index)) by lia.
      rewrite (bool_decide_false (tipHeight - index >= 10)) by lia.
      rewrite (to_uint64_small 1) by lia.
      rewrite (bool_decide_false (1 > index)) by lia.
      rewrite (bool_decide_false (1 <= 0)) by lia. done. }
  pose proof Hstep as Hstep0.
  apply locator_step_Some in Hstep as [Hs1 Hs2]; [|done].
  rewrite (to_uint64_small step') by lia.
  rewrite (to_uint64_small (index - step')) by lia.
  intros Hrun. apply IH in Hrun as (heights & -> & Hall & Hsorted & Htop);
    [|lia|done|lia].
  exists (index :: heights). split_and!.
  - rewrite fmap_cons, concat_cons, fmap_app, app_assoc. done.
  - constructor; [lia|]. eapply Forall_impl; [exact Hall|]. simpl. lia.
  - constructor; [done|]. eapply Forall_impl; [exact Hall|]. simpl. lia.
  - intros -> h Hh Hten. destruct (decide (h = index)) as [->|Hne].
    + apply elem_of_cons. by left.
    + apply elem_of_cons. right.
      assert (step' = 1) as ->.
      { revert Hstep0. unfold locator_step.
        rewrite (to_uint64_small (tipHeight - index)) by lia.
        rewrite (bool_decide_false (tipHeight - index >= 10)) by lia.
        destruct (_ || _); [done|]. by intros [= <-]. }
      apply Htop; [done|lia|done].
Qed.

End Requests.

(** X7.  The locator of an inventory request lists the stored blocks of a
    strictly descending sequence of heights, all above the last finalized
    block and at most the tip, and then the last finalized block.  The
    sequence holds every such height less than 10 below the tip. *)
Theorem buildInventoryRequest_heights
    (c : gmap CommonHash ExtendedBlock) (tip : Block) (lfb : ExtendedBlock) :
  0 ≤ height_of lfb → 0 ≤ Height (Header tip) < 2 ^ 64 →
  ∃ heights,
    buildInventoryRequest c tip lfb
    = Ok (((λ b, Hash (Header (EBlock b)))
           <$> concat (FindBlocksByHeight c <$> heights))
          ++ [Hash (Header (EBlock lfb))])
    ∧ Forall (λ h, height_of lfb < h ≤ Height (Header tip)) heights
    ∧ StronglySorted (λ a b, b < a) heights
    ∧ ∀ h, height_of lfb < h ≤ Height (Header tip) →
           Height (Header tip) - h < 10 → h ∈ heights.
Proof.
  intros Hlfb Htip.
  destruct (buildInventoryRequest_returns c tip lfb Htip) as [starts Hret].
  revert Hret. unfold buildInventoryRequest, buildInventoryRequest_fuel.
  destruct (locator_loop _ _ _ _ _ _ _) as [front| |] eqn:Hloop;
    simpl; [|done|done].
  intros _.
  apply locator_loop_heights in Hloop as (heights & -> & Hall & Hsorted & Htop);
    [|done|lia|lia|lia].
  exists heights. split_and!; try done. by apply Htop.
Qed.


(** ** Promotion and ingest *)

Lemma elem_of_hashes_snoc (l : list Block) c (p : CommonHash) :
  p ∈ hash_of <$> l ++ [c] ↔ p ∈ hash_of <$> l ∨ p = hash_of c.
Proof.
  rewrite fmap_app, elem_of_app. simpl. by rewrite list_elem_of_singleton.
Qed.

(** What a pass of [dumpReadyBlocks] does to a map keyed by hash that had
    lost the keys of [l]: it loses the key of the block it handles. *)
Lemma lost_keys_step {A} (m0 m : gmap CommonHash A) (l : list Block) c :
  (∀ p, m !! p = if decide (p ∈ hash_of <$> l) then None else m0 !! p) →
  ∀ p, delete (hash_of c) m !! p
       = if decide (p ∈ hash_of <$> l ++ [c]) then None else m0 !! p.
Proof.
  intros Hm p. destruct (decide (p = hash_of c)) as [->|Hne].
  - rewrite lookup_delete_eq. rewrite decide_True; [done|].
    apply elem_of_hashes_snoc. by right.
  - rewrite lookup_delete_ne by done. rewrite Hm.
    destruct (decide (p ∈ hash_of <$> l)) as [Hin|Hnin].
    + rewrite decide_True; [done|]. apply elem_of_hashes_snoc. by left.
    + rewrite decide_False; [done|].
      intros [?|?]%elem_of_hashes_snoc; done.
Qed.

(** X8.  [dumpReadyBlocks] returns whatever the by-parent map holds, even
    parent links that form a cycle.  It hands [b] over first and after it
    only blocks that were parked under the hash of a block handed over,
    each as often as it was parked: the blocks handed over and the blocks
    still parked add up to the blocks parked before.  Every block handed
    over is in the chain store afterwards, and no block leaves the chain
    store.  The by-parent map and the by-hash map lose the keys that are
    hashes of blocks handed over, and nothing else changes in them.  So,
    when every parked block is filed under its parent, a block handed over
    after [b] is in no list of the by-parent map any more; but [b] itself
    is not taken out of the list of its own parent: that list is as it
    was, unless the parent is among the blocks handed over. *)
Theorem dumpReadyBlocks_hands_over b rm :
  ∃ rm' l,
    dumpReadyBlocks b rm = Ok rm'
    ∧ handedToChain rm' = handedToChain rm ++ b :: l
    ∧ passedDown rm' = passedDown rm ++ b :: l
    ∧ (∀ c, c ∈ l →
         ∃ p, p ∈ hash_of <$> b :: l
              ∧ parked_under (pendingBlocksByParent rm) p c)
    ∧ (length l + parked (pendingBlocksByParent rm')
       = parked (pendingBlocksByParent rm))%nat
    ∧ (∀ c, c ∈ b :: l → is_Some (FindBlock (chain rm') (hash_of c)))
    ∧ (∀ h eb, FindBlock (chain rm) h = Some eb →
               FindBlock (chain rm') h = Some eb)
    ∧ (∀ p, pendingBlocksByParent rm' !! p
            = if decide (p ∈ hash_of <$> b :: l) then None
              else pendingBlocksByParent rm !! p)
    ∧ (∀ h, pendingBlocksByHash rm' !! h
            = if decide (h ∈ hash_of <$> b :: l) then None
              else pendingBlocksByHash rm !! h)
    ∧ (byParent_ok (pendingBlocksByParent rm) →
       ∀ c, c ∈ l → ∀ p, ¬ parked_under (pendingBlocksByParent rm') p c)
    ∧ (Parent (Header b) ∉ hash_of <$> b :: l →
       pendingBlocksByParent rm' !! Parent (Header b)
       = pendingBlocksByParent rm !! Parent (Header b)).
Proof.
  destruct (dumpReadyBlocks_inv
    (λ q r, ∃ l,
       handedToChain r = handedToChain rm ++ l
       ∧ passedDown r = passedDown rm ++ l
       ∧ (∃ t, l ++ q = b :: t
               ∧ ∀ c, c ∈ t →
                   ∃ p, p ∈ hash_of <$> l
                        ∧ parked_under (pendingBlocksByParent rm) p c)
       ∧ (length l + length q + parked (pendingBlocksByParent r)
          = S (parked (pendingBlocksByParent rm)))%nat
       ∧ (∀ c, c ∈ l → is_Some (chain r !! hash_of c))
       ∧ (∀ h eb, chain rm !! h = Some eb → chain r !! h = Some eb)
       ∧ (∀ p, pendingBlocksByParent r !! p
               = if decide (p ∈ hash_of <$> l) then None
                 else pendingBlocksByParent rm !! p)
       ∧ (∀ h, pendingBlocksByHash r !! h
               = if decide (h ∈ hash_of <$> l) then None
                 else pendingBlocksByHash rm !! h)) b rm)
    as (rm' & Hrun & l & Hh & Hp & (t & Hq & Ht) & Hm & Hdone & Hmono & Hbp & Hbh).
  - intros c q r (l & Hh & Hp & (t & Hq & Ht) & Hm & Hdone & Hmono & Hbp & Hbh).
    pose proof (dump_step_measure c q r) as Hmeasure.
    rewrite dump_step_eq in *. simpl in *.
    exists (l ++ [c]). split_and!.
    + by rewrite Hh, <- app_assoc.
    + by rewrite Hp, <- app_assoc.
    + exists (t ++ default [] (pendingBlocksByParent r !! Hash (Header c))).
      split.
      * trans ((l ++ c :: q)
                ++ default [] (pendingBlocksByParent r !! Hash (Header c)));
          [by rewrite <- !app_assoc|by rewrite Hq].
      * intros c' [Hc'|Hc']%elem_of_app.
        -- destruct (Ht c' Hc') as (p & Hin & Hpark). exists p.
           split; [|done]. apply elem_of_hashes_snoc. by left.
        -- exists (hash_of c). split; [apply elem_of_hashes_snoc; by right|].
           unfold parked_under. unfold hash_of. specialize (Hbp (Hash (Header c))).
           destruct (decide (Hash (Header c) ∈ hash_of <$> l)) as [Hin|Hnin].
           ++ rewrite Hbp in Hc'. by apply not_elem_of_nil in Hc'.
           ++ by rewrite <- Hbp.
    + rewrite length_app. simpl. lia.
    + intros c' [Hc'|Hc']%elem_of_app.
      * destruct (Hdone c' Hc') as [eb Heb]. exists eb.
        by apply chain_AddBlock_mono.
      * apply list_elem_of_singleton in Hc' as ->. apply chain_AddBlock_lookup.
    + intros h eb Heb. by apply chain_AddBlock_mono, Hmono.
    + by apply (lost_keys_step (pendingBlocksByParent rm)).
    + by apply (lost_keys_step (pendingBlocksByHash rm)).
  - exists []. rewrite !app_nil_r. split_and!; try done; try (simpl; lia);
      try (by intros c Hc; apply not_elem_of_nil in Hc).
    exists []. split; [done|]. intros c Hc. by apply not_elem_of_nil in Hc.
  - rewrite app_nil_r in Hq. subst l. exists rm', t.
    split_and!; try done.
    + simpl in Hm. lia.
    + intros Hok c Hc p Hpark. unfold parked_under in Hpark.
      rewrite Hbp in Hpark.
      destruct (decide (p ∈ hash_of <$> b :: t)) as [Hin|Hnin];
        [by apply not_elem_of_nil in Hpark|].
      destruct (Ht c Hc) as (p0 & Hin0 & Hpark0). unfold parked_under in Hpark0.
      assert (∀ p1, c ∈ default [] (pendingBlocksByParent rm !! p1) →
                    Parent (Header c) = p1) as Hfiled.
      { intros p1 Hc1.
        destruct (pendingBlocksByParent rm !! p1) as [l1|] eqn:Hl1;
          [|by apply not_elem_of_nil in Hc1].
        destruct (Hok p1 l1 Hl1) as (_ & _ & Hall).
        by apply (proj1 (Forall_forall _ _) Hall). }
      apply Hnin. rewrite <- (Hfiled p Hpark). by rewrite (Hfiled p0 Hpark0).
    + intros Hnin. rewrite Hbp. by rewrite decide_False.
Qed.

Section Ingest.

Variable CalculateRootHash : list N → CommonHash.
Variable Intn : nat → nat.

Lemma ensure_pending_indexed now x rm :
  is_Some (pendingBlocksByHash (ensure_pending now x rm) !! x)
  ∨ is_Some (FindBlock (chain rm) x).
Proof.
  unfold ensure_pending.
  destruct (pendingBlocksByHash rm !! x) as [el|] eqn:Hh; [left; eauto|].
  destruct (FindBlock (chain rm) x) as [eb|] eqn:Hc; [right; eauto|].
  left. rewrite addHash_new by done. simpl. rewrite lookup_insert_eq. eauto.
Qed.

(** Once [ensure_pending] has run for a hash, running it again changes
    nothing, as long as the chain store and the by-hash map are the
    same. *)
Lemma ensure_pending_stable now now' x rm r :
  chain r = chain (ensure_pending now x rm) →
  pendingBlocksByHash r = pendingBlocksByHash (ensure_pending now x rm) →
  ensure_pending now' x r = r.
Proof.
  intros Hchain HbyHash. unfold ensure_pending at 1.
  destruct (pendingBlocksByHash r !! x) as [el|] eqn:Hr; [done|].
  apply addHash_stored. rewrite Hchain.
  destruct (ensure_pending_frame now x rm) as ((-> & _) & _).
  destruct (ensure_pending_indexed now x rm) as [Hs|Hs]; [|done].
  rewrite <- HbyHash, Hr in Hs. by destruct Hs.
Qed.

Lemma park_idem b rm : park b (park b rm) = park b rm.
Proof.
  unfold park. simpl. rewrite lookup_insert_eq. simpl.
  rewrite insert_insert_eq.
  set (l := default [] (pendingBlocksByParent rm !! Parent (Header b))).
  destruct (bool_decide (Exists (λ child, Hash (Header child) = Hash (Header b)) l))
    eqn:Hfound.
  - by rewrite Hfound.
  - rewrite bool_decide_true; [done|].
    apply Exists_app. right. by apply Exists_cons_hd.
Qed.

Lemma check_body_again b r r2 :
  check_body CalculateRootHash b r = Some r2 →
  check_body CalculateRootHash b (park b r2) = Some (park b r2)
  ∧ chain r2 = chain r
  ∧ pendingBlocksByHash r2 = pendingBlocksByHash r
  ∧ same_collaborators r r2.
Proof.
  unfold check_body.
  destruct (pendingBlocksByHash r !! Hash (Header b)) as [el|] eqn:Hel.
  - destruct (header (mem r !!! el)) as [hd|] eqn:Hhd.
    + case_bool_decide as Hm; [done|]. intros [= <-]. simpl.
      rewrite Hel. simpl. rewrite lookup_total_insert_eq. simpl.
      rewrite Hhd.
      rewrite (bool_decide_false (CalculateRootHash (Txs b) ≠ TxHash hd))
        by (intros Hn; by apply Hn).
      rewrite insert_insert_eq. done.
    + intros [= <-]. simpl.
      rewrite Hel. simpl. rewrite lookup_total_insert_eq. simpl.
      rewrite Hhd. rewrite insert_insert_eq. done.
  - intros [= <-]. simpl. rewrite Hel. by destruct r.
Qed.

Lemma same_collaborators_trans rm1 rm2 rm3 :
  same_collaborators rm1 rm2 → same_collaborators rm2 rm3 →
  same_collaborators rm1 rm3.
Proof.
  unfold same_collaborators. intros (?&?&?&?&?&?&?) (?&?&?&?&?&?&?).
  split_and!; congruence.
Qed.

(** X9.  A body whose parent is not in the chain store is handed to nobody,
    and delivering it once more changes nothing at all: [AddBlock] is
    idempotent on orphans, whether the body passes the check against the
    header or not. *)
Theorem AddBlock_orphan_again now now' b rm :
  FindBlock (chain rm) (Parent (Header b)) = None →
  ∃ rm',
    AddBlock CalculateRootHash now b rm = Ok rm'
    ∧ AddBlock CalculateRootHash now' b rm' = Ok rm'
    ∧ same_collaborators rm rm'.
Proof.
  intros Hparent. unfold AddBlock.
  pose proof (ensure_pending_stable now now' (Hash (Header b)) rm) as Hstable.
  destruct (ensure_pending_frame now (Hash (Header b)) rm) as (Hsame & _).
  assert (FindBlock (chain (ensure_pending now (Hash (Header b)) rm))
            (Parent (Header b)) = None) as Hparent1.
  { destruct Hsame as (-> & _). done. }
  revert Hstable Hsame Hparent1.
  generalize (ensure_pending now (Hash (Header b)) rm). clear Hparent.
  intros rm1 Hstable Hsame Hparent.
  destruct (check_body CalculateRootHash b rm1) as [rm2|] eqn:Hcheck.
  - destruct (check_body_again _ _ _ Hcheck) as (Hagain & Hc & Hh & Hsame2).
    rewrite Hc, Hparent. exists (park b rm2). split; [done|]. split.
    + rewrite Hstable by done. rewrite Hagain. simpl.
      rewrite Hc, Hparent. by rewrite park_idem.
    + eapply same_collaborators_trans; [exact Hsame|].
      eapply same_collaborators_trans; [exact Hsame2|]. done.
  - exists rm1. split; [done|]. split; [|done].
    rewrite Hstable by done. by rewrite Hcheck.
Qed.

(** *** [AddHash] and the peers *)

Lemma add_peers_prefix ps peerIDs : ps `prefix_of` add_peers ps peerIDs.
Proof.
  unfold add_peers. revert ps.
  induction peerIDs as [|xid peerIDs IH]; intros ps; simpl; [done|].
  case_bool_decide; [apply IH|].
  etrans; [|apply IH]. by apply prefix_app_r.
Qed.

Lemma new_loc_fresh (m : gmap loc PendingBlock) : m !! new_loc m = None.
Proof. apply not_elem_of_dom. unfold new_loc. apply is_fresh. Qed.

Lemma set_peers_same pb : set_peers (peers pb) pb = pb.
Proof. by destruct pb. Qed.

(** [addHash] on lists only ever adds peers.  The peers a pending block
    had are a prefix of the peers it has afterwards, and nothing else of an
    existing cell changes; lists without duplicates stay so when the list
    given has none.  When the hash is not in the chain store the hash has a
    pending block afterwards, and unless that block has its body already
    every peer of the list given is among its peers.  (For the pending
    blocks other than the one of the hash this is what the lists give; of
    the slices it holds when they share no array, see the part on peer
    slices.) *)
Lemma addHash_on_lists now x peerIDs rm :
  (∀ el, peers (mem rm !!! el)
           `prefix_of` peers (mem (addHash now x peerIDs rm) !!! el))
  ∧ (∀ el, is_Some (mem rm !! el) →
       mem (addHash now x peerIDs rm) !!! el
       = set_peers (peers (mem (addHash now x peerIDs rm) !!! el))
           (mem rm !!! el))
  ∧ (NoDup peerIDs →
     (∀ el, NoDup (peers (mem rm !!! el))) →
     ∀ el, NoDup (peers (mem (addHash now x peerIDs rm) !!! el)))
  ∧ (FindBlock (chain rm) x = None →
     ∃ el, pendingBlocksByHash (addHash now x peerIDs rm) !! x = Some el
           ∧ (block (mem (addHash now x peerIDs rm) !!! el) = None →
              ∀ p, p ∈ peerIDs →
                   p ∈ peers (mem (addHash now x peerIDs rm) !!! el))).
Proof.
  destruct (FindBlock (chain rm) x) as [eb|] eqn:Hc.
  { rewrite addHash_stored by (rewrite Hc; eauto). split_and!; try done.
    intros el _. by rewrite set_peers_same. }
  destruct (pendingBlocksByHash rm !! x) as [el0|] eqn:Hh.
  - rewrite (addHash_known _ _ _ _ el0) by done.
    destruct (block (mem rm !!! el0)) as [b0|] eqn:Hb.
    + split_and!; try done; try (by intros el _; rewrite set_peers_same).
      intros _. exists el0. split; [done|]. by rewrite Hb.
    + simpl. split_and!.
      * intros el. destruct (decide (el = el0)) as [->|Hne].
        -- rewrite lookup_total_insert_eq. simpl. apply add_peers_prefix.
        -- by rewrite lookup_total_insert_ne.
      * intros el _. destruct (decide (el = el0)) as [->|Hne].
        -- by rewrite lookup_total_insert_eq.
        -- rewrite lookup_total_insert_ne by done. by rewrite set_peers_same.
      * intros Hnd Hall el. destruct (decide (el = el0)) as [->|Hne].
        -- rewrite lookup_total_insert_eq. simpl. by apply add_peers_NoDup.
        -- by rewrite lookup_total_insert_ne.
      * intros _. exists el0. split; [done|]. intros _ p Hp.
        rewrite lookup_total_insert_eq. simpl. by apply add_peers_all.
  - rewrite addHash_new by done. simpl.
    pose proof (new_loc_fresh (mem rm)) as Hfresh.
    split_and!.
    + intros el. destruct (decide (el = new_loc (mem rm))) as [->|Hne].
      * rewrite (lookup_total_alt (mem rm)), Hfresh. simpl. apply prefix_nil.
      * by rewrite lookup_total_insert_ne.
    + intros el [pb Hpb].
      assert (el ≠ new_loc (mem rm)) as Hne by (intros ->; congruence).
      rewrite lookup_total_insert_ne by done. by rewrite set_peers_same.
    + intros Hnd Hall el. destruct (decide (el = new_loc (mem rm))) as [->|Hne].
      * by rewrite lookup_total_insert_eq.
      * by rewrite lookup_total_insert_ne.
    + intros _. exists (new_loc (mem rm)). rewrite lookup_insert_eq.
      split; [done|]. intros _ p Hp. by rewrite lookup_total_insert_eq.
Qed.

(** *** Passes that do nothing *)

(** X11.  [dumpAllReadyBlocks] promotes nothing and changes nothing when no
    pending block it visits has a body whose parent is in the chain store
    with a status other than pending. *)
Theorem dumpAllReadyBlocks_nothing_ready pendings rm :
  (∀ el b eb, el ∈ pendings →
     block (mem rm !!! el) = Some b →
     FindBlock (chain rm) (Parent (Header b)) = Some eb →
     IsPending (Status eb) = true) →
  dumpAllReadyBlocks pendings rm = Ok rm.
Proof.
  unfold dumpAllReadyBlocks.
  induction pendings as [|el pendings IH]; intros Hnone; [done|].
  assert (dumpAll_loop pendings rm = Ok rm) as Hrest.
  { apply IH. intros el' b eb Hel'. apply Hnone, elem_of_cons. by right. }
  simpl. destruct (block (mem rm !!! el)) as [b|] eqn:Hb; [|done].
  destruct (FindBlock (chain rm) (Parent (Header b))) as [eb|] eqn:Hp; [|done].
  rewrite (Hnone el b eb); [done|apply elem_of_cons; by left|done|done].
Qed.

(** X12.  [resumePendingBlocks] walks the chain store from the last
    finalized block along the child links.  As long as the blocks it meets
    are not pending it changes nothing, and it panics at the first child
    link that the chain store cannot resolve: with a last finalized block
    that is not pending, the manager is untouched when all its children are
    stored, not pending and childless, and the outcome is a panic when one
    of its children is missing. *)
Theorem resumePendingBlocks_walk fuel now lfb rm :
  IsPending (Status lfb) = false →
  (1 + length (Children lfb) ≤ fuel)%nat →
  (Forall (λ h, ∃ eb, FindBlock (chain rm) h = Some eb
                      ∧ IsPending (Status eb) = false
                      ∧ Children eb = []) (Children lfb) →
   resumePendingBlocks CalculateRootHash fuel now lfb rm = Ok rm)
  ∧ (Exists (λ h, FindBlock (chain rm) h = None) (Children lfb) →
     resumePendingBlocks CalculateRootHash fuel now lfb rm = Panic).
Proof.
  intros Hlfb Hfuel. unfold resumePendingBlocks.
  destruct fuel as [|fuel]; [lia|]. simpl. rewrite Hlfb. simpl.
  split.
  - intros Hall.
    assert (∃ children,
              find_children (chain rm) (Children lfb) = Ok children
              ∧ length children = length (Children lfb)
              ∧ Forall (λ eb, IsPending (Status eb) = false ∧ Children eb = [])
                  children) as (children & -> & Hlen & Hchildren).
    { clear Hfuel. induction Hall as [|h hs (eb & Hh & Hp & Hc) _ IH]; simpl.
      - by exists [].
      - rewrite Hh. destruct IH as (children & -> & Hlen & Hchildren). simpl.
        exists (eb :: children). split_and!; [done|simpl; lia|].
        by constructor. }
    simpl. assert (length children ≤ fuel)%nat as Hfuel' by lia.
    clear Hfuel Hlen Hall. revert fuel Hfuel'.
    induction Hchildren as [|eb children [Hp Hc] _ IH]; intros fuel Hfuel.
    + by destruct fuel.
    + destruct fuel as [|fuel]; [simpl in Hfuel; lia|]. simpl.
      rewrite Hp, Hc. simpl. rewrite app_nil_r. apply IH. simpl in Hfuel. lia.
  - intros Hmissing.
    assert (find_children (chain rm) (Children lfb) = Panic) as ->; [|done].
    clear Hfuel. induction Hmissing as [h hs Hh|h hs _ IH]; simpl.
    + by rewrite Hh.
    + destruct (FindBlock (chain rm) h); [|done]. by rewrite IH.
Qed.

(** *** The list and the by-hash map *)

Lemma index_ok_ext rm rm' :
  index_ok rm →
  pendingBlocks rm' = pendingBlocks rm →
  pendingBlocksByHash rm' = pendingBlocksByHash rm →
  (∀ el, hash (mem rm' !!! el) = hash (mem rm !!! el)) →
  (∀ el, is_Some (mem rm !! el) → is_Some (mem rm' !! el)) →
  index_ok rm'.
Proof.
  intros [Hnd Hcell HbyHash Hlist] Hl Hh Hhash Hsome. split.
  - by rewrite Hl.
  - intros el Hel. rewrite Hl in Hel. by apply Hsome, Hcell.
  - intros h el Hel. rewrite Hh in Hel. rewrite Hl, Hhash. by apply HbyHash.
  - intros el Hel. rewrite Hl in Hel. rewrite Hh, Hhash. by apply Hlist.
Qed.

Lemma index_ok_insert rm el pb :
  index_ok rm →
  hash pb = hash (mem rm !!! el) →
  index_ok (with_mem (<[el := pb]> (mem rm)) rm).
Proof.
  intros Hok Hhash. apply (index_ok_ext rm); try done; simpl.
  - intros el'. destruct (decide (el' = el)) as [->|Hne].
    + by rewrite lookup_total_insert_eq.
    + by rewrite lookup_total_insert_ne.
  - intros el' Hsome. apply lookup_insert_is_Some'. by right.
Qed.

Lemma index_ok_New c : index_ok (NewRequestManager c).
Proof.
  split; simpl.
  - constructor.
  - intros el Hel. by apply not_elem_of_nil in Hel.
  - intros h el Hel. by rewrite lookup_empty in Hel.
  - intros el Hel. by apply not_elem_of_nil in Hel.
Qed.

Lemma addHash_index now x peerIDs rm :
  index_ok rm → index_ok (addHash now x peerIDs rm).
Proof.
  intros Hok. destruct (FindBlock (chain rm) x) as [eb|] eqn:Hc.
  { by rewrite addHash_stored by (rewrite Hc; eauto). }
  destruct (pendingBlocksByHash rm !! x) as [el0|] eqn:Hh.
  - rewrite (addHash_known _ _ _ _ el0) by done.
    destruct (block (mem rm !!! el0)); [done|]. by apply index_ok_insert.
  - rewrite addHash_new by done.
    destruct Hok as [Hnd Hcell HbyHash Hlist].
    pose proof (new_loc_fresh (mem rm)) as Hfresh.
    set (el0 := new_loc (mem rm)) in *.
    assert (el0 ∉ pendingBlocks rm) as Hnotin.
    { intros Hin. apply Hcell in Hin as [pb Hpb]. congruence. }
    split; simpl.
    + apply NoDup_app. split_and!; [done| |apply NoDup_singleton].
      intros el Hel ->%list_elem_of_singleton. done.
    + intros el [Hel|Hel]%elem_of_app; apply lookup_insert_is_Some'.
      * right. by apply Hcell.
      * left. by apply list_elem_of_singleton in Hel.
    + intros h el [[-> <-]|[Hne Hel]]%lookup_insert_Some.
      * split; [apply elem_of_app; right; by apply list_elem_of_singleton|].
        by rewrite lookup_total_insert_eq.
      * destruct (HbyHash h el Hel) as [Hin Hhash].
        split; [apply elem_of_app; by left|].
        rewrite lookup_total_insert_ne by (intros ->; done). done.
    + intros el [Hel|Hel]%elem_of_app.
      * rewrite lookup_total_insert_ne by (intros ->; done).
        rewrite lookup_insert_ne; [by apply Hlist|].
        intros Heq. apply Hlist in Hel. rewrite <- Heq in Hel. congruence.
      * apply list_elem_of_singleton in Hel as ->.
        rewrite lookup_total_insert_eq. simpl. apply lookup_insert_eq.
Qed.

Lemma ensure_pending_index now x rm :
  index_ok rm → index_ok (ensure_pending now x rm).
Proof.
  intros Hok. unfold ensure_pending.
  destruct (pendingBlocksByHash rm !! x); [done|]. by apply addHash_index.
Qed.

Lemma check_body_index b r r2 :
  check_body CalculateRootHash b r = Some r2 → index_ok r → index_ok r2.
Proof.
  unfold check_body.
  destruct (pendingBlocksByHash r !! Hash (Header b)) as [el|];
    [|by intros [= <-]].
  intros Hsome Hok.
  assert (r2 = with_mem (<[el := set_block (Some b) (mem r !!! el)]> (mem r)) r)
    as ->.
  { destruct (header (mem r !!! el)) as [hd|]; [|by injection Hsome].
    destruct (bool_decide _); [done|by injection Hsome]. }
  by apply index_ok_insert.
Qed.

Lemma dump_step_index c q r :
  index_ok r → index_ok (dump_step c q r).2.
Proof.
  intros [Hnd Hcell HbyHash Hlist]. rewrite dump_step_eq. simpl.
  destruct (pendingBlocksByHash r !! Hash (Header c)) as [el|] eqn:Hel.
  - destruct (HbyHash _ _ Hel) as [Hin Hhash]. split; simpl.
    + by apply NoDup_filter.
    + intros el' [_ Hel']%list_elem_of_filter. by apply Hcell.
    + intros h el' [Hne Hel']%lookup_delete_Some.
      destruct (HbyHash _ _ Hel') as [Hin' Hhash']. split; [|done].
      apply list_elem_of_filter. split; [|done]. intros ->. congruence.
    + intros el' [Hne Hel']%list_elem_of_filter.
      rewrite lookup_delete_ne; [by apply Hlist|].
      intros Heq. apply Hlist in Hel'. rewrite <- Heq in Hel'. congruence.
  - rewrite delete_id by done. by split.
Qed.

Lemma dumpReadyBlocks_index b rm rm' :
  dumpReadyBlocks b rm = Ok rm' → index_ok rm → index_ok rm'.
Proof.
  intros Hrun Hok.
  destruct (dumpReadyBlocks_inv (λ _ r, index_ok r) b rm) as (rm2 & Hrun2 & Hok2).
  - intros c q r. apply dump_step_index.
  - done.
  - congruence.
Qed.

Lemma park_index b rm : index_ok rm → index_ok (park b rm).
Proof. intros Hok. by apply (index_ok_ext rm). Qed.

Lemma AddBlock_index now b rm rm' :
  AddBlock CalculateRootHash now b rm = Ok rm' → index_ok rm → index_ok rm'.
Proof.
  unfold AddBlock. intros Hrun Hok.
  apply (ensure_pending_index now (Hash (Header b))) in Hok.
  destruct (check_body _ b _) as [rm2|] eqn:Hcheck; [|by injection Hrun as <-].
  apply (check_body_index _ _ _ Hcheck) in Hok.
  destruct (FindBlock (chain rm2) (Parent (Header b))).
  - by apply (dumpReadyBlocks_index _ _ _ Hrun).
  - injection Hrun as <-. by apply park_index.
Qed.

Lemma dumpAll_loop_index pendings rm rm' :
  dumpAll_loop pendings rm = Ok rm' → index_ok rm → index_ok rm'.
Proof.
  revert rm. induction pendings as [|el pendings IH]; intros rm; simpl.
  { by intros [= <-]. }
  destruct (block (mem rm !!! el)) as [b|]; [|apply IH].
  destruct (FindBlock (chain rm) (Parent (Header b))) as [eb|]; [|apply IH].
  destruct (negb (IsPending (Status eb))); [|apply IH].
  destruct (dumpReadyBlocks b rm) as [rm1| |] eqn:Hdump; simpl; [|done|done].
  intros Hrun Hok. apply (IH _ Hrun). by apply (dumpReadyBlocks_index _ _ _ Hdump).
Qed.

Lemma removeEl_index_ok el rm :
  index_ok rm →
  el ∈ pendingBlocks rm
  ∨ pendingBlocksByHash rm !! hash (mem rm !!! el) = None →
  index_ok (removeEl el rm)
  ∧ ∀ el', el' ∈ pendingBlocks rm
           ∨ pendingBlocksByHash rm !! hash (mem rm !!! el') = None →
           el' ∈ pendingBlocks (removeEl el rm)
           ∨ pendingBlocksByHash (removeEl el rm)
               !! hash (mem (removeEl el rm) !!! el') = None.
Proof.
  intros [Hnd Hcell HbyHash Hlist] Hel.
  destruct (removeEl_index el rm) as (Hl & Hh & _).
  pose proof (removeEl_mem el rm) as Hm.
  split; [split|]; rewrite ?Hl, ?Hh, ?Hm.
  - by apply NoDup_filter.
  - intros el' [_ Hel']%list_elem_of_filter. by apply Hcell.
  - intros h el' [Hne Hel']%lookup_delete_Some.
    destruct (HbyHash _ _ Hel') as [Hin' Hhash']. split; [|done].
    apply list_elem_of_filter. split; [|done]. intros ->. congruence.
  - intros el' [Hne Hel']%list_elem_of_filter.
    rewrite lookup_delete_ne; [by apply Hlist|].
    intros Heq. destruct Hel as [Hel|Hel].
    + apply Hlist in Hel, Hel'. rewrite Heq in Hel. congruence.
    + apply Hlist in Hel'. rewrite Heq in Hel. congruence.
  - intros el' [Hel'|Hel'].
    + destruct (decide (el' = el)) as [->|Hne].
      * right. apply lookup_delete_eq.
      * left. by apply list_elem_of_filter.
    + right. apply lookup_delete_None. by right.
Qed.

Lemma foldl_removeEl_index_ok els rm :
  index_ok rm →
  (∀ el, el ∈ els →
     el ∈ pendingBlocks rm
     ∨ pendingBlocksByHash rm !! hash (mem rm !!! el) = None) →
  index_ok (foldl (λ rm el, removeEl el rm) rm els).
Proof.
  revert rm. induction els as [|el els IH]; intros rm Hok Hels; [done|].
  simpl. destruct (removeEl_index_ok el rm Hok) as [Hok' Hrest].
  { apply Hels, elem_of_cons. by left. }
  apply IH; [done|]. intros el' Hel'. apply Hrest, Hels, elem_of_cons. by right.
Qed.

Lemma downloadBlockFromHash_index now q rm :
  index_ok rm → index_ok (downloadBlockFromHash Intn now q rm).
Proof.
  intros Hok. unfold downloadBlockFromHash.
  destruct (hash_loop Intn now (pendingBlocks rm) q [] rm)
    as [[rm1 rem] q1] eqn:Hrun.
  pose proof (hash_loop_only _ _ _ _ _ _ _ _ _ Hrun) as (_ & Hl & Hh & _).
  pose proof (hash_loop_same_block _ _ _ _ _ _ _ _ _ Hrun) as Hcells.
  apply hash_loop_removes in Hrun as (more & -> & [k Hpre] & _). simpl.
  apply foldl_removeEl_index_ok.
  - apply (index_ok_ext rm); try done.
    + intros el. by destruct (Hcells el) as ((-> & _) & _).
    + intros el. by destruct (Hcells el) as (_ & _ & ?).
  - intros el Hel. left. rewrite Hl.
    assert (el ∈ filter (λ el, HasExpired now (mem rm !!! el)) (pendingBlocks rm))
      as Hin by (rewrite Hpre; apply elem_of_app; by left).
    by apply list_elem_of_filter in Hin as [_ ?].
Qed.

Lemma downloadBlockFromHeader_empty now q rm :
  pendingBlocksWithHeader rm = [] →
  downloadBlockFromHeader Intn now q rm = Ok rm.
Proof.
  intros Hempty. unfold downloadBlockFromHeader.
  rewrite header_loop_end by (by right). simpl.
  rewrite <- Hempty. by destruct rm.
Qed.

(** A tick from a state whose header heap is empty is the inventory
    request, if it is due, and the pass of [downloadBlockFromHash]. *)
Lemma tick_empty_heap now tip lfb rm rm' :
  pendingBlocksWithHeader rm = [] →
  tick Intn now tip lfb rm = Ok rm' →
  ∃ rm1,
    rm' = downloadBlockFromHash Intn now RequestQuotaPerSecond rm1
    ∧ mem rm1 = mem rm
    ∧ pendingBlocks rm1 = pendingBlocks rm
    ∧ pendingBlocksByHash rm1 = pendingBlocksByHash rm
    ∧ pendingBlocksByParent rm1 = pendingBlocksByParent rm
    ∧ dataCalls rm1 = dataCalls rm.
Proof.
  intros Hempty. unfold tick, tryToDownload.
  match goal with |- res_bind ?m _ = _ → _ => set (inv := m) end.
  assert (∀ rm1, inv = Ok rm1 →
            mem rm1 = mem rm
            ∧ pendingBlocks rm1 = pendingBlocks rm
            ∧ pendingBlocksByHash rm1 = pendingBlocksByHash rm
            ∧ pendingBlocksByParent rm1 = pendingBlocksByParent rm
            ∧ dataCalls rm1 = dataCalls rm
            ∧ pendingBlocksWithHeader rm1 = []
            ∧ quota rm1 = RequestQuotaPerSecond) as Hinv.
  { intros rm1. subst inv. destruct (_ || _); [|by intros [= <-]].
    destruct (buildInventoryRequest _ tip lfb); simpl; [|done|done].
    by intros [= <-]. }
  destruct inv as [rm1| |]; simpl; [|done|done].
  destruct (Hinv rm1 eq_refl) as (Hm & Hl & Hh & Hp & Hd & Hw & Hq).
  rewrite downloadBlockFromHeader_empty by done. simpl.
  intros [= <-]. exists rm1. by rewrite Hq.
Qed.

Lemma index_ok_size rm :
  index_ok rm →
  (map_to_list (pendingBlocksByHash rm)).*2 ≡ₚ pendingBlocks rm
  ∧ size (pendingBlocksByHash rm) = length (pendingBlocks rm).
Proof.
  intros [Hnd Hcell HbyHash Hlist].
  assert ((map_to_list (pendingBlocksByHash rm)).*2 ≡ₚ pendingBlocks rm)
    as Hperm.
  { apply NoDup_Permutation; [|done|].
    - apply NoDup_fmap_2_strong; [|apply NoDup_map_to_list].
      intros [h1 el1] [h2 el2] H1%elem_of_map_to_list H2%elem_of_map_to_list.
      simpl. intros ->.
      destruct (HbyHash _ _ H1) as [_ <-]. destruct (HbyHash _ _ H2) as [_ <-].
      done.
    - intros el. split.
      + intros ([h el'] & -> & Hin%elem_of_map_to_list)%list_elem_of_fmap.
        by destruct (HbyHash _ _ Hin).
      + intros Hin. apply list_elem_of_fmap.
        exists (hash (mem rm !!! el), el). split; [done|].
        by apply elem_of_map_to_list, Hlist. }
  split; [done|].
  rewrite <- Hperm, length_fmap. symmetry. apply length_map_to_list.
Qed.

(** *** The by-parent map *)

Lemma NoDup_sublist {A} (l1 l2 : list A) :
  l1 `sublist_of` l2 → NoDup l2 → NoDup l1.
Proof.
  induction 1 as [|x l1 l2 Hsub IH|x l1 l2 Hsub IH]; intros Hnd.
  - constructor.
  - apply NoDup_cons in Hnd as [Hx Hnd]. apply NoDup_cons. split; [|by apply IH].
    intros Hin. apply Hx. by apply (sublist_subseteq _ _ Hsub).
  - apply NoDup_cons in Hnd as [_ Hnd]. by apply IH.
Qed.

Lemma park_byParent_ok b rm :
  byParent_ok (pendingBlocksByParent rm) →
  byParent_ok (pendingBlocksByParent (park b rm)).
Proof.
  intros Hok. unfold park. simpl. apply map_Forall_insert_2; [|done].
  destruct (pendingBlocksByParent rm !! Parent (Header b)) as [l|] eqn:Hl; simpl.
  - destruct (map_Forall_lookup_1 _ _ _ _ Hok Hl) as (Hne & Hnd & Hall).
    case_bool_decide as Hfound; [done|]. split_and!.
    + by destruct l.
    + rewrite fmap_app. apply NoDup_app. split_and!; [done| |apply NoDup_singleton].
      intros h Hh ->%list_elem_of_singleton. apply Hfound.
      apply list_elem_of_fmap in Hh as (c & Hc & Hin).
      apply Exists_exists. by exists c.
    + apply Forall_app. split; [done|]. by apply Forall_singleton.
  - split_and!.
    + done.
    + apply NoDup_singleton.
    + by apply Forall_singleton.
Qed.

Lemma dump_step_byParent_ok c q r :
  byParent_ok (pendingBlocksByParent r) →
  byParent_ok (pendingBlocksByParent (dump_step c q r).2).
Proof.
  intros Hok. rewrite dump_step_eq. simpl. by apply map_Forall_delete.
Qed.

Lemma dumpReadyBlocks_byParent_ok b rm rm' :
  dumpReadyBlocks b rm = Ok rm' →
  byParent_ok (pendingBlocksByParent rm) →
  byParent_ok (pendingBlocksByParent rm').
Proof.
  intros Hrun Hok.
  destruct (dumpReadyBlocks_inv
              (λ _ r, byParent_ok (pendingBlocksByParent r)) b rm)
    as (rm2 & Hrun2 & Hok2).
  - intros c q r. apply dump_step_byParent_ok.
  - done.
  - rewrite Hrun in Hrun2. by injection Hrun2 as <-.
Qed.

Lemma check_body_byParent b r r2 :
  check_body CalculateRootHash b r = Some r2 →
  pendingBlocksByParent r2 = pendingBlocksByParent r.
Proof.
  unfold check_body.
  destruct (pendingBlocksByHash r !! Hash (Header b)) as [el|];
    [|by intros [= <-]].
  destruct (header (mem r !!! el)) as [hd|]; [|by intros [= <-]].
  destruct (bool_decide _); [done|by intros [= <-]].
Qed.

Lemma AddBlock_byParent_ok now b rm rm' :
  AddBlock CalculateRootHash now b rm = Ok rm' →
  byParent_ok (pendingBlocksByParent rm) →
  byParent_ok (pendingBlocksByParent rm').
Proof.
  unfold AddBlock. intros Hrun Hok.
  destruct (ensure_pending_frame now (Hash (Header b)) rm) as (_ & Hbp & _).
  rewrite <- Hbp in Hok.
  destruct (check_body _ b _) as [rm2|] eqn:Hcheck; [|by injection Hrun as <-].
  rewrite <- (check_body_byParent _ _ _ Hcheck) in Hok.
  destruct (FindBlock (chain rm2) (Parent (Header b))).
  - by apply (dumpReadyBlocks_byParent_ok _ _ _ Hrun).
  - injection Hrun as <-. by apply park_byParent_ok.
Qed.

Lemma dumpAll_loop_byParent_ok pendings rm rm' :
  dumpAll_loop pendings rm = Ok rm' →
  byParent_ok (pendingBlocksByParent rm) →
  byParent_ok (pendingBlocksByParent rm').
Proof.
  revert rm. induction pendings as [|el pendings IH]; intros rm; simpl.
  { by intros [= <-]. }
  destruct (block (mem rm !!! el)) as [b|]; [|apply IH].
  destruct (FindBlock (chain rm) (Parent (Header b))) as [eb|]; [|apply IH].
  destruct (negb (IsPending (Status eb))); [|apply IH].
  destruct (dumpReadyBlocks b rm) as [rm1| |] eqn:Hdump; simpl; [|done|done].
  intros Hrun Hok. apply (IH _ Hrun).
  by apply (dumpReadyBlocks_byParent_ok _ _ _ Hdump).
Qed.

Lemma removeEl_byParent_ok el rm :
  byParent_ok (pendingBlocksByParent rm) →
  byParent_ok (pendingBlocksByParent (removeEl el rm)).
Proof.
  intros Hok. unfold removeEl. simpl.
  destruct (block (mem rm !!! el)) as [b|]; simpl; [|done].
  destruct (pendingBlocksByParent rm !! Parent (Header b)) as [blocks|] eqn:Hl;
    simpl; [|done].
  destruct (map_Forall_lookup_1 _ _ _ _ Hok Hl) as (Hne & Hnd & Hall).
  destruct (find_block b blocks) as [found|]; simpl.
  - rewrite lookup_insert_eq.
    destruct (delete found blocks) as [|c rest] eqn:Hdel; simpl.
    + rewrite delete_insert_eq. by apply map_Forall_delete.
    + apply map_Forall_insert_2; [|done]. rewrite <- Hdel. split_and!.
      * by rewrite Hdel.
      * rewrite list_fmap_delete.
        apply (NoDup_sublist _ (hash_of <$> blocks)); [apply sublist_delete|done].
      * by apply Forall_delete.
  - rewrite Hl. by destruct blocks.
Qed.

Lemma foldl_removeEl_byParent_ok els rm :
  byParent_ok (pendingBlocksByParent rm) →
  byParent_ok (pendingBlocksByParent (foldl (λ rm el, removeEl el rm) rm els)).
Proof.
  revert rm. induction els as [|el els IH]; intros rm Hok; [done|].
  simpl. by apply IH, removeEl_byParent_ok.
Qed.

Lemma tick_byParent_ok now tip lfb rm rm' :
  tick Intn now tip lfb rm = Ok rm' →
  byParent_ok (pendingBlocksByParent rm) →
  byParent_ok (pendingBlocksByParent rm').
Proof.
  unfold tick, tryToDownload.
  match goal with |- res_bind ?m _ = _ → _ => set (inv := m) end.
  assert (∀ rm1, inv = Ok rm1 →
            pendingBlocksByParent rm1 = pendingBlocksByParent rm) as Hinv.
  { intros rm1. subst inv. destruct (_ || _); [|by intros [= <-]].
    destruct (buildInventoryRequest _ tip lfb); simpl; [|done|done].
    by intros [= <-]. }
  destruct inv as [rm1| |]; simpl; [|done|done].
  rewrite <- (Hinv rm1 eq_refl).
  destruct (downloadBlockFromHeader Intn now (quota rm1) rm1) as [rm2| |]
    eqn:Hhdr; simpl; [|done|done].
  intros [= <-] Hok.
  assert (pendingBlocksByParent rm2 = pendingBlocksByParent rm1) as Hbp2.
  { revert Hhdr. unfold downloadBlockFromHeader.
    destruct (header_loop Intn _ now [] (quota rm1) rm1)
      as [[[rm3 backup] q3]| |] eqn:Hloop; simpl; [|done|done].
    intros [= <-]. simpl.
    by apply header_loop_heap in Hloop as (_ & _ & _ & _ & _ & _ & ? & _). }
  unfold downloadBlockFromHash.
  destruct (hash_loop Intn now (pendingBlocks rm2) (quota rm2) [] rm2)
    as [[rm3 rem] q3] eqn:Hrun.
  apply hash_loop_only in Hrun as (_ & _ & _ & Hbp3 & _).
  apply foldl_removeEl_byParent_ok. by rewrite Hbp3, Hbp2.
Qed.

Lemma byParent_ok_size (bp : gmap CommonHash (list Block)) :
  byParent_ok bp → (size bp ≤ parked bp)%nat.
Proof.
  intros Hok. unfold parked. rewrite <- length_map_to_list.
  apply map_Forall_to_list in Hok.
  induction (map_to_list bp) as [|[p l] rest IH]; simpl; [done|].
  apply Forall_cons in Hok as [(Hne & _) Hok]. simpl in Hne.
  specialize (IH Hok). destruct l; [done|]. simpl.
  apply le_n_S. etrans; [exact IH|]. apply Nat.le_add_l.
Qed.

(** *** Every state the manager can be in *)

Lemma reachable_index_ok rm :
  reachable CalculateRootHash Intn rm → index_ok rm.
Proof.
  intros Hreach.
  induction Hreach
    as [c|now x peerIDs rm Hreach IH|now hd rm rm' Hreach IH Hrun
       |now b rm rm' Hreach IH Hrun|pendings rm rm' Hreach IH Hrange Hrun
       |now tip lfb rm rm' Hreach IH Hrun|c rm Hreach IH].
  - apply index_ok_New.
  - by apply addHash_index.
  - destruct (FindBlock (chain rm) (Hash hd)) as [eb|] eqn:Hc.
    + rewrite AddHeader_stored in Hrun by (rewrite Hc; eauto). congruence.
    + rewrite AddHeader_not_stored in Hrun by done. done.
  - by apply (AddBlock_index _ _ _ _ Hrun).
  - by apply (dumpAll_loop_index _ _ _ Hrun).
  - apply header_heap_empty_reachable in Hreach.
    apply (tick_empty_heap _ _ _ _ _ Hreach) in Hrun
      as (rm1 & -> & Hm & Hl & Hh & _).
    apply downloadBlockFromHash_index. apply (index_ok_ext rm); try done.
    + intros el. by rewrite Hm.
    + intros el. by rewrite Hm.
  - by apply (index_ok_ext rm).
Qed.

(** X13.  In every state the manager can be in, the list and the by-hash
    map index the same pending blocks: the list holds no element twice,
    the map sends each hash to the one element of the list whose block has
    this hash, and every element of the list is found under the hash of
    its block.  So the map has as many entries as the list has elements,
    and the elements [dumpAllReadyBlocks] visits are those of the list. *)
Theorem reachable_index rm :
  reachable CalculateRootHash Intn rm →
  index_ok rm
  ∧ size (pendingBlocksByHash rm) = length (pendingBlocks rm)
  ∧ ∀ pendings, range_of rm pendings ↔ pendings ≡ₚ pendingBlocks rm.
Proof.
  intros Hreach. pose proof (reachable_index_ok rm Hreach) as Hok.
  destruct (index_ok_size rm Hok) as [Hperm Hsize].
  split_and!; [done|done|].
  intros pendings. unfold range_of. by rewrite Hperm.
Qed.

(** X14.  In every state the manager can be in, the by-parent map holds no
    empty list, no list holds two blocks of one hash, and every block is
    filed under the hash of its parent.  So the map has at most as many
    keys as there are parked blocks, and a map that is not empty means that
    some block is parked. *)
Theorem reachable_byParent rm :
  reachable CalculateRootHash Intn rm →
  byParent_ok (pendingBlocksByParent rm)
  ∧ (size (pendingBlocksByParent rm) ≤ parked (pendingBlocksByParent rm))%nat.
Proof.
  intros Hreach.
  assert (byParent_ok (pendingBlocksByParent rm)) as Hok.
  { induction Hreach
      as [c|now x peerIDs rm Hreach IH|now hd rm rm' Hreach IH Hrun
         |now b rm rm' Hreach IH Hrun|pendings rm rm' Hreach IH Hrange Hrun
         |now tip lfb rm rm' Hreach IH Hrun|c rm Hreach IH].
    - apply map_Forall_empty.
    - unfold AddHash. by destruct (addHash_frame now x peerIDs rm) as (_ & -> & _).
    - destruct (FindBlock (chain rm) (Hash hd)) as [eb|] eqn:Hc.
      + rewrite AddHeader_stored in Hrun by (rewrite Hc; eauto).
        by injection Hrun as <-.
      + rewrite AddHeader_not_stored in Hrun by done. done.
    - by apply (AddBlock_byParent_ok _ _ _ _ Hrun).
    - by apply (dumpAll_loop_byParent_ok _ _ _ Hrun).
    - by apply (tick_byParent_ok _ _ _ _ _ Hrun).
    - done. }
  split; [done|]. by apply byParent_ok_size.
Qed.



(** X15.  From every state the manager can be in, a tick returns: it runs
    into no panic and its loops end.  Its data requests are exactly the
    requests for the first [RequestQuotaPerSecond] due blocks of the list,
    in the order of the list, so there are at most [RequestQuotaPerSecond]
    of them, all by hash: the header heap is empty in every such state. *)
Theorem tick_reachable now tip lfb rm :
  reachable CalculateRootHash Intn rm →
  0 ≤ Height (Header tip) < 2 ^ 64 →
  ∃ rm',
    tick Intn now tip lfb rm = Ok rm'
    ∧ dataCalls rm'
      = dataCalls rm
        ++ ((λ el, request_of Intn (mem rm !!! el))
            <$> take (Z.to_nat RequestQuotaPerSecond)
                  (filter (λ el, due_by_hash now (mem rm !!! el))
                     (pendingBlocks rm)))
    ∧ Z.of_nat (length (dataCalls rm'))
      ≤ Z.of_nat (length (dataCalls rm)) + RequestQuotaPerSecond
    ∧ pendingBlocksWithHeader rm' = [].
Proof.
  intros Hreach Htip.
  pose proof (header_heap_empty_reachable _ _ _ Hreach) as Hempty.
  pose proof (io_nodup _ (reachable_index_ok rm Hreach)) as Hnd.
  assert (∃ rm', tick Intn now tip lfb rm = Ok rm') as [rm' Hrun].
  { unfold tick, tryToDownload. simpl.
    destruct (buildInventoryRequest_returns (chain rm) tip lfb Htip)
      as [starts Hbuild].
    destruct (_ || _).
    - rewrite Hbuild. simpl.
      rewrite downloadBlockFromHeader_empty by done. simpl. by eexists.
    - simpl. rewrite downloadBlockFromHeader_empty by done. simpl. by eexists. }
  exists rm'. split; [done|].
  pose proof (reach_tick _ _ _ _ _ _ _ Hreach Hrun) as Hreach'.
  apply (tick_empty_heap _ _ _ _ _ Hempty) in Hrun
    as (rm1 & -> & Hm & Hl & _ & _ & Hd).
  split_and!.
  - unfold downloadBlockFromHash.
    destruct (hash_loop Intn now (pendingBlocks rm1) RequestQuotaPerSecond [] rm1)
      as [[rm2 rem] q2] eqn:Hloop.
    apply hash_loop_requests in Hloop as [Hcalls _];
      [|by rewrite Hl|unfold RequestQuotaPerSecond; lia].
    rewrite foldl_removeEl_dataCalls, Hcalls. by rewrite Hm, Hl, Hd.
  - rewrite <- Hd. apply downloadBlockFromHash_sends.
    unfold RequestQuotaPerSecond. lia.
  - by apply (header_heap_empty_reachable _ _ _ Hreach').
Qed.

(** *** Expiry *)

Lemma foldl_removeEl_byHash els rm :
  pendingBlocksByHash (foldl (λ rm el, removeEl el rm) rm els)
    ⊆ pendingBlocksByHash rm.
Proof.
  revert rm. induction els as [|el els IH]; intros rm; [done|].
  simpl. etrans; [apply IH|].
  destruct (removeEl_index el rm) as (_ & -> & _). apply delete_subseteq.
Qed.

Lemma downloadBlockFromHash_byHash now q rm :
  pendingBlocksByHash (downloadBlockFromHash Intn now q rm)
    ⊆ pendingBlocksByHash rm.
Proof.
  unfold downloadBlockFromHash.
  destruct (hash_loop Intn now (pendingBlocks rm) q [] rm)
    as [[rm1 rem] q1] eqn:Hrun.
  apply hash_loop_only in Hrun as (_ & _ & <- & _).
  apply foldl_removeEl_byHash.
Qed.

(** X3.  [downloadBlockFromHash] drops expired blocks only.  The list it
    leaves is a sublist of the list it found and keeps every block that
    has not expired; with a quota above the length of the list it is
    exactly the list of the blocks that have not expired.  When the list
    and the by-hash map index the same blocks they still do afterwards, and
    the map loses the entries of the blocks that left the list and no
    other. *)
Theorem downloadBlockFromHash_expired now q rm :
  pendingBlocks (downloadBlockFromHash Intn now q rm)
    `sublist_of` pendingBlocks rm
  ∧ (∀ el, el ∈ pendingBlocks rm →
       HasExpired now (mem rm !!! el) = false →
       el ∈ pendingBlocks (downloadBlockFromHash Intn now q rm))
  ∧ (Z.of_nat (length (pendingBlocks rm)) < q →
     pendingBlocks (downloadBlockFromHash Intn now q rm)
     = filter (λ el, HasExpired now (mem rm !!! el) = false) (pendingBlocks rm))
  ∧ (index_ok rm →
     index_ok (downloadBlockFromHash Intn now q rm)
     ∧ ∀ h el,
         pendingBlocksByHash (downloadBlockFromHash Intn now q rm) !! h = Some el
         ↔ pendingBlocksByHash rm !! h = Some el
           ∧ el ∈ pendingBlocks (downloadBlockFromHash Intn now q rm)).
Proof.
  destruct (downloadBlockFromHash_list Intn now q rm) as (Hsub & Hkeep & Hall).
  split_and!; [done|done|done|].
  intros Hok. pose proof (downloadBlockFromHash_index now q rm Hok) as Hok'.
  split; [done|]. intros h el. split.
  - intros Hel. split.
    + by apply (lookup_weaken _ _ _ _ Hel), downloadBlockFromHash_byHash.
    + by apply (io_byHash _ Hok') in Hel as [? _].
  - intros [Hel Hin]. pose proof (io_list _ Hok' _ Hin) as Hfound.
    destruct (downloadBlockFromHash_only Intn now q rm) as [_ Hsame].
    destruct (Hsame el) as (Hhash & _). rewrite Hhash in Hfound.
    by destruct (io_byHash _ Hok _ _ Hel) as [_ <-].
Qed.

(** *** Ingest as a whole *)

Lemma dumpReadyBlocks_chain b rm :
  ∃ rm' l,
    dumpReadyBlocks b rm = Ok rm'
    ∧ handedToChain rm' = handedToChain rm ++ l
    ∧ passedDown rm' = passedDown rm ++ l
    ∧ (∀ c, c ∈ l → is_Some (FindBlock (chain rm') (hash_of c)))
    ∧ (∀ h eb, FindBlock (chain rm) h = Some eb →
               FindBlock (chain rm') h = Some eb)
    ∧ dataCalls rm' = dataCalls rm
    ∧ inventoryCalls rm' = inventoryCalls rm
    ∧ pendingBlocksWithHeader rm' = pendingBlocksWithHeader rm
    ∧ mem rm' = mem rm.
Proof.
  destruct (dumpReadyBlocks_inv
    (λ _ r, ∃ l,
       handedToChain r = handedToChain rm ++ l
       ∧ passedDown r = passedDown rm ++ l
       ∧ (∀ c, c ∈ l → is_Some (chain r !! hash_of c))
       ∧ (∀ h eb, chain rm !! h = Some eb → chain r !! h = Some eb)
       ∧ dataCalls r = dataCalls rm
       ∧ inventoryCalls r = inventoryCalls rm
       ∧ pendingBlocksWithHeader r = pendingBlocksWithHeader rm
       ∧ mem r = mem rm) b rm)
    as (rm' & Hrun & l & Hl).
  - intros c q r (l & Hh & Hp & Hdone & Hmono & Hd & Hi & Hw & Hm).
    rewrite dump_step_eq. simpl. exists (l ++ [c]). split_and!; try done.
    + by rewrite Hh, <- app_assoc.
    + by rewrite Hp, <- app_assoc.
    + intros c' [Hc'|Hc']%elem_of_app.
      * destruct (Hdone c' Hc') as [eb Heb]. exists eb.
        by apply chain_AddBlock_mono.
      * apply list_elem_of_singleton in Hc' as ->. apply chain_AddBlock_lookup.
    + intros h eb Heb. by apply chain_AddBlock_mono, Hmono.
  - exists []. rewrite !app_nil_r. split_and!; try done.
    intros c Hc. by apply not_elem_of_nil in Hc.
  - by exists rm', l.
Qed.

(** X17.  [AddBlock] and [dumpAllReadyBlocks] always return: they run into
    no panic and their loops end.  They hand the same blocks, in the same
    order, to the chain store and to consensus; every block handed over is
    in the chain store afterwards and no block leaves it; and they send no
    request and leave the header heap alone. *)
Theorem ingest_effects now b pendings rm :
  (∃ rm' l,
     AddBlock CalculateRootHash now b rm = Ok rm'
     ∧ handedToChain rm' = handedToChain rm ++ l
     ∧ passedDown rm' = passedDown rm ++ l
     ∧ (∀ c, c ∈ l → is_Some (FindBlock (chain rm') (hash_of c)))
     ∧ (∀ h eb, FindBlock (chain rm) h = Some eb →
                FindBlock (chain rm') h = Some eb)
     ∧ dataCalls rm' = dataCalls rm
     ∧ inventoryCalls rm' = inventoryCalls rm
     ∧ pendingBlocksWithHeader rm' = pendingBlocksWithHeader rm)
  ∧ (∃ rm' l,
       dumpAllReadyBlocks pendings rm = Ok rm'
       ∧ handedToChain rm' = handedToChain rm ++ l
       ∧ passedDown rm' = passedDown rm ++ l
       ∧ (∀ c, c ∈ l → is_Some (FindBlock (chain rm') (hash_of c)))
       ∧ (∀ h eb, FindBlock (chain rm) h = Some eb →
                  FindBlock (chain rm') h = Some eb)
       ∧ dataCalls rm' = dataCalls rm
       ∧ inventoryCalls rm' = inventoryCalls rm
       ∧ pendingBlocksWithHeader rm' = pendingBlocksWithHeader rm
       ∧ mem rm' = mem rm).
Proof.
  split.
  - unfold AddBlock.
    destruct (ensure_pending_frame now (Hash (Header b)) rm)
      as ((Hc1 & Ha1 & Hp1 & Hd1 & Hi1 & _) & _ & Hw1).
    destruct (check_body _ b _) as [rm2|] eqn:Hcheck.
    + destruct (check_body_again _ _ _ Hcheck)
        as (_ & Hc2 & _ & (_ & Ha2 & Hp2 & Hd2 & Hi2 & _)).
      assert (pendingBlocksWithHeader rm2
              = pendingBlocksWithHeader (ensure_pending now (Hash (Header b)) rm))
        as Hw2.
      { revert Hcheck. unfold check_body.
        destruct (pendingBlocksByHash _ !! _) as [el|]; [|by intros [= <-]].
        destruct (header _) as [hd|]; [|by intros [= <-]].
        destruct (bool_decide _); [done|by intros [= <-]]. }
      destruct (FindBlock (chain rm2) (Parent (Header b))).
      * destruct (dumpReadyBlocks_chain b rm2)
          as (rm' & l & -> & Ha & Hp & Hdone & Hmono & Hd & Hi & Hw & _).
        exists rm', l. split_and!; try done; try congruence.
        intros h eb Heb. apply Hmono. by rewrite Hc2, Hc1.
      * exists (park b rm2), []. rewrite !app_nil_r. simpl.
        split_and!; try done; try congruence;
          try (by intros c Hc; apply not_elem_of_nil in Hc);
          try (by intros h eb Heb; rewrite Hc2, Hc1).
    + eexists _, []. rewrite !app_nil_r.
      split_and!; try done; try (by intros c Hc; apply not_elem_of_nil in Hc);
        try (by intros h eb Heb; rewrite Hc1).
  - unfold dumpAllReadyBlocks. revert rm.
    induction pendings as [|el pendings IH]; intros rm; simpl.
    { exists rm, []. rewrite !app_nil_r. split_and!; try done.
      intros c Hc. by apply not_elem_of_nil in Hc. }
    destruct (block (mem rm !!! el)) as [b'|]; [|apply IH].
    destruct (FindBlock (chain rm) (Parent (Header b'))) as [eb|]; [|apply IH].
    destruct (negb (IsPending (Status eb))); [|apply IH].
    destruct (dumpReadyBlocks_chain b' rm)
      as (rm1 & l1 & -> & Ha1 & Hp1 & Hdone1 & Hmono1 & Hd1 & Hi1 & Hw1 & Hm1).
    simpl.
    destruct (IH rm1)
      as (rm' & l & -> & Ha & Hp & Hdone & Hmono & Hd & Hi & Hw & Hm).
    exists rm', (l1 ++ l). split_and!; try congruence.
    + by rewrite Ha, Ha1, <- app_assoc.
    + by rewrite Hp, Hp1, <- app_assoc.
    + intros c [Hc|Hc]%elem_of_app; [|by apply Hdone].
      destruct (Hdone1 c Hc) as [eb' Heb']. exists eb'. by apply Hmono.
    + intros h eb' Heb'. by apply Hmono, Hmono1.
Qed.

(** X18.  A tick of an idle manager does nothing.  With no pending block
    in the list, the maps and the heap, and less than
    [MaxInventoryRequestInterval] since the last inventory request, the
    tick only sets the quota field. *)
Theorem tick_idle now tip lfb rm :
  pendingBlocks rm = [] →
  pendingBlocksByHash rm = ∅ →
  pendingBlocksByParent rm = ∅ →
  pendingBlocksWithHeader rm = [] →
  now - lastInventoryRequest rm < MaxInventoryRequestInterval →
  tick Intn now tip lfb rm = Ok (with_quota RequestQuotaPerSecond rm).
Proof.
  intros Hl Hh Hp Hw Hlast. unfold tick, tryToDownload. simpl.
  rewrite Hl, Hh, Hp, Hw. simpl. rewrite !map_size_empty. simpl.
  rewrite (bool_decide_false (now - lastInventoryRequest rm
                              >= MaxInventoryRequestInterval)) by lia.
  simpl. rewrite downloadBlockFromHeader_empty by done. simpl.
  unfold downloadBlockFromHash. simpl. by rewrite Hl.
Qed.

(** *** A body that comes and goes *)

Lemma find_block_snoc b (l : list Block) :
  ¬ Exists (λ child, Hash (Header child) = Hash (Header b)) l →
  find_block b (l ++ [b]) = Some (length l).
Proof.
  induction l as [|c l IH]; intros Hnot; simpl.
  - by rewrite bool_decide_true.
  - rewrite bool_decide_false by (intros Hc; apply Hnot; by apply Exists_cons_hd).
    rewrite IH; [done|]. intros Hex. apply Hnot. by apply Exists_cons_tl.
Qed.

Lemma delete_snoc {A} (l : list A) (x : A) : delete (length l) (l ++ [x]) = l.
Proof. induction l as [|a l IH]; simpl; [done|]. by rewrite IH. Qed.

Lemma removeEl_byParent el rm b blocks found :
  block (mem rm !!! el) = Some b →
  pendingBlocksByParent rm !! Parent (Header b) = Some blocks →
  find_block b blocks = Some found →
  pendingBlocksByParent (removeEl el rm)
  = match delete found blocks with
    | [] => delete (Parent (Header b)) (pendingBlocksByParent rm)
    | _ => <[Parent (Header b) := delete found blocks]> (pendingBlocksByParent rm)
    end.
Proof.
  intros Hb Hl Hf. unfold removeEl. simpl. rewrite Hb. simpl. rewrite Hl, Hf.
  simpl. rewrite lookup_insert_eq.
  destruct (delete found blocks); simpl; [by rewrite delete_insert_eq|done].
Qed.

(** What [AddBlock] makes of a block that is new to the manager and whose
    parent is unknown. *)
Lemma AddBlock_new_orphan now b rm :
  FindBlock (chain rm) (Hash (Header b)) = None →
  FindBlock (chain rm) (Parent (Header b)) = None →
  pendingBlocksByHash rm !! Hash (Header b) = None →
  ¬ Exists (λ child, Hash (Header child) = Hash (Header b))
      (default [] (pendingBlocksByParent rm !! Parent (Header b))) →
  ∃ rm1,
    AddBlock CalculateRootHash now b rm = Ok rm1
    ∧ pendingBlocks rm1 = pendingBlocks rm ++ [new_loc (mem rm)]
    ∧ pendingBlocksByHash rm1
      = <[Hash (Header b) := new_loc (mem rm)]> (pendingBlocksByHash rm)
    ∧ pendingBlocksByParent rm1
      = <[Parent (Header b) :=
            default [] (pendingBlocksByParent rm !! Parent (Header b)) ++ [b]]>
          (pendingBlocksByParent rm)
    ∧ mem rm1 !!! new_loc (mem rm)
      = set_block (Some b) (NewPendingBlock now (Hash (Header b)) []).
Proof.
  intros Hstored Hparent Hnew Hnot.
  unfold AddBlock, ensure_pending. rewrite Hnew.
  rewrite addHash_new by done.
  unfold check_body. simpl. rewrite lookup_insert_eq. simpl.
  rewrite lookup_total_insert_eq. simpl. rewrite Hparent.
  eexists. split; [done|]. unfold park. simpl.
  rewrite (bool_decide_false _ Hnot).
  by rewrite lookup_total_insert_eq.
Qed.

(** X19.  A body that is parked and whose pending block is then removed
    leaves no trace in the indexes.  When neither the block nor its parent
    is in the chain store and the block is new to the manager, [AddBlock]
    gives it a pending block and parks it under its parent, and [removeEl]
    of that pending block, as expiry does it, gives back the list, the
    by-hash map and the by-parent map as they were before. *)
Theorem AddBlock_removeEl_round_trip now b rm :
  index_ok rm →
  byParent_ok (pendingBlocksByParent rm) →
  FindBlock (chain rm) (Hash (Header b)) = None →
  FindBlock (chain rm) (Parent (Header b)) = None →
  pendingBlocksByHash rm !! Hash (Header b) = None →
  ¬ Exists (λ child, Hash (Header child) = Hash (Header b))
      (default [] (pendingBlocksByParent rm !! Parent (Header b))) →
  ∃ rm1,
    AddBlock CalculateRootHash now b rm = Ok rm1
    ∧ pendingBlocksByHash rm1 !! Hash (Header b) = Some (new_loc (mem rm))
    ∧ block (mem rm1 !!! new_loc (mem rm)) = Some b
    ∧ parked_under (pendingBlocksByParent rm1) (Parent (Header b)) b
    ∧ pendingBlocks (removeEl (new_loc (mem rm)) rm1) = pendingBlocks rm
    ∧ pendingBlocksByHash (removeEl (new_loc (mem rm)) rm1)
      = pendingBlocksByHash rm
    ∧ pendingBlocksByParent (removeEl (new_loc (mem rm)) rm1)
      = pendingBlocksByParent rm.
Proof.
  intros Hok Hbp Hstored Hparent Hnew Hnot.
  destruct (AddBlock_new_orphan now b rm Hstored Hparent Hnew Hnot)
    as (rm1 & Hrun & Hlist & HbyHash & HbyParent & Hcell).
  pose proof (new_loc_fresh (mem rm)) as Hfresh.
  set (el0 := new_loc (mem rm)) in *.
  set (l := default [] (pendingBlocksByParent rm !! Parent (Header b))) in *.
  assert (Forall (λ e, e ≠ el0) (pendingBlocks rm)) as Hne.
  { apply Forall_forall. intros el Hel ->.
    apply (io_cell _ Hok) in Hel as [pb Hpb]. congruence. }
  destruct (removeEl_index el0 rm1) as (Hl' & Hh' & _).
  exists rm1. split_and!.
  - done.
  - rewrite HbyHash. apply lookup_insert_eq.
  - by rewrite Hcell.
  - unfold parked_under. rewrite HbyParent, lookup_insert_eq. simpl.
    apply elem_of_app. right. by apply list_elem_of_singleton.
  - rewrite Hl', Hlist. unfold list_Remove. rewrite filter_app.
    rewrite filter_cons_False by (intros Hn; by apply Hn).
    rewrite filter_nil, app_nil_r.
    clear -Hne. induction Hne as [|e rest He Hall IH]; [done|].
    by rewrite filter_cons_True, IH.
  - rewrite Hh', Hcell, HbyHash. simpl.
    rewrite delete_insert_eq. by apply delete_id.
  - rewrite (removeEl_byParent el0 rm1 b (l ++ [b]) (length l)).
    + rewrite delete_snoc, HbyParent.
      destruct (pendingBlocksByParent rm !! Parent (Header b)) as [l0|] eqn:Hl0.
      * subst l. simpl in *.
        destruct (map_Forall_lookup_1 _ _ _ _ Hbp Hl0) as (Hnonempty & _).
        destruct l0 as [|c l0]; [done|].
        rewrite insert_insert_eq. by apply insert_id.
      * subst l. simpl. rewrite delete_insert_eq. by apply delete_id.
    + by rewrite Hcell.
    + rewrite HbyParent. apply lookup_insert_eq.
    + by apply find_block_snoc.
Qed.

(** *** What ingest keeps of a cell *)

Lemma same_request_refl pb : same_request pb pb.
Proof. by unfold same_request. Qed.

Lemma same_request_trans pb1 pb2 pb3 :
  same_request pb1 pb2 → same_request pb2 pb3 → same_request pb1 pb3.
Proof. unfold same_request. intros (?&?&?&?&?) (?&?&?&?&?). split_and!; congruence. Qed.

(** A cell that is waiting for data is a cell that exists: the zero value
    has never been asked for. *)
Lemma waiting_cell (m : gmap loc PendingBlock) el :
  status (m !!! el) = RequestWaitingDataResp → is_Some (m !! el).
Proof.
  rewrite lookup_total_alt. destruct (m !! el) as [pb|]; simpl; [eauto|done].
Qed.

Lemma addHash_kept now x peerIDs rm el :
  is_Some (mem rm !! el) →
  same_request (mem rm !!! el) (mem (addHash now x peerIDs rm) !!! el)
  ∧ block (mem (addHash now x peerIDs rm) !!! el) = block (mem rm !!! el)
  ∧ is_Some (mem (addHash now x peerIDs rm) !! el).
Proof.
  intros Hcell.
  destruct (FindBlock (chain rm) x) as [eb|] eqn:Hc.
  { rewrite addHash_stored by (rewrite Hc; eauto).
    split_and!; [apply same_request_refl|done|done]. }
  destruct (pendingBlocksByHash rm !! x) as [el0|] eqn:Hh.
  - rewrite (addHash_known _ _ _ _ el0) by done.
    destruct (block (mem rm !!! el0)) as [b0|] eqn:Hb;
      [split_and!; [apply same_request_refl|done|done]|].
    simpl. destruct (decide (el = el0)) as [->|Hne].
    + rewrite lookup_total_insert_eq, lookup_insert_eq.
      split_and!; [by unfold same_request|done|eauto].
    + rewrite lookup_total_insert_ne, lookup_insert_ne by done.
      split_and!; [apply same_request_refl|done|done].
  - rewrite addHash_new by done. simpl.
    assert (el ≠ new_loc (mem rm)) as Hne.
    { intros ->. rewrite new_loc_fresh in Hcell. by destruct Hcell. }
    rewrite lookup_total_insert_ne, lookup_insert_ne by done.
    split_and!; [apply same_request_refl|done|done].
Qed.

(** [AddBlock] changes nothing of an existing cell but the body. *)
Lemma AddBlock_kept now b rm rm' el :
  AddBlock CalculateRootHash now b rm = Ok rm' →
  is_Some (mem rm !! el) →
  same_request (mem rm !!! el) (mem rm' !!! el)
  ∧ peers (mem rm' !!! el) = peers (mem rm !!! el).
Proof.
  intros Hrun Hcell.
  assert (same_request (mem rm !!! el)
            (mem (ensure_pending now (Hash (Header b)) rm) !!! el)
          ∧ peers (mem (ensure_pending now (Hash (Header b)) rm) !!! el)
            = peers (mem rm !!! el)) as [Hs1 Hp1].
  { unfold ensure_pending.
    destruct (pendingBlocksByHash rm !! Hash (Header b)) as [el0|] eqn:Hh;
      [split; [apply same_request_refl|done]|].
    destruct (FindBlock (chain rm) (Hash (Header b))) as [eb|] eqn:Hc.
    { rewrite addHash_stored by (rewrite Hc; eauto).
      split; [apply same_request_refl|done]. }
    rewrite addHash_new by done. simpl.
    assert (el ≠ new_loc (mem rm)) as Hne.
    { intros ->. rewrite new_loc_fresh in Hcell. by destruct Hcell. }
    rewrite lookup_total_insert_ne by done.
    split; [apply same_request_refl|done]. }
  revert Hrun. unfold AddBlock.
  revert Hs1 Hp1. generalize (ensure_pending now (Hash (Header b)) rm).
  intros rm1 Hs1 Hp1.
  destruct (check_body CalculateRootHash b rm1) as [rm2|] eqn:Hcheck;
    [|by intros [= <-]].
  assert (same_request (mem rm1 !!! el) (mem rm2 !!! el)
          ∧ peers (mem rm2 !!! el) = peers (mem rm1 !!! el)) as [Hs2 Hp2].
  { revert Hcheck. unfold check_body.
    destruct (pendingBlocksByHash rm1 !! Hash (Header b)) as [el0|];
      [|intros [= <-]; split; [apply same_request_refl|done]].
    intros Hsome.
    assert (rm2 = with_mem (<[el0 := set_block (Some b) (mem rm1 !!! el0)]>
                              (mem rm1)) rm1) as ->.
    { destruct (header (mem rm1 !!! el0)) as [hd|]; [|by injection Hsome].
      destruct (bool_decide _); [done|by injection Hsome]. }
    simpl. destruct (decide (el = el0)) as [->|Hne].
    - rewrite lookup_total_insert_eq. by unfold same_request.
    - rewrite lookup_total_insert_ne by done.
      split; [apply same_request_refl|done]. }
  assert (mem rm' = mem rm2 → 
          same_request (mem rm !!! el) (mem rm' !!! el)
          ∧ peers (mem rm' !!! el) = peers (mem rm !!! el)) as Hend.
  { intros ->. split; [by eapply same_request_trans|congruence]. }
  destruct (FindBlock (chain rm2) (Parent (Header b))).
  - intros Hdump. by apply Hend, (dumpReadyBlocks_mem _ _ _ Hdump).
  - intros [= <-]. by apply Hend.
Qed.

Lemma AddBlock_dataCalls now b rm rm' :
  AddBlock CalculateRootHash now b rm = Ok rm' → dataCalls rm' = dataCalls rm.
Proof.
  unfold AddBlock.
  destruct (ensure_pending_frame now (Hash (Header b)) rm)
    as ((_ & _ & _ & Hd1 & _) & _).
  destruct (check_body _ b _) as [rm2|] eqn:Hcheck;
    [|intros [= <-]; congruence].
  destruct (check_body_again _ _ _ Hcheck) as (_ & _ & _ & (_ & _ & _ & Hd2 & _)).
  destruct (FindBlock (chain rm2) (Parent (Header b))).
  - intros Hdump.
    destruct (dumpReadyBlocks_frame b rm2) as (r & l & Hr & _ & _ & _ & _ & Hd & _).
    rewrite Hdump in Hr. injection Hr as <-. congruence.
  - intros [= <-]. simpl. congruence.
Qed.

Lemma dumpAllReadyBlocks_dataCalls pendings rm rm' :
  dumpAllReadyBlocks pendings rm = Ok rm' → dataCalls rm' = dataCalls rm.
Proof.
  unfold dumpAllReadyBlocks. revert rm.
  induction pendings as [|el rest IH]; intros rm; simpl; [by intros [= <-]|].
  destruct (block (mem rm !!! el)) as [b|]; [|apply IH].
  destruct (FindBlock (chain rm) (Parent (Header b))) as [eb|]; [|apply IH].
  destruct (negb (IsPending (Status eb))); [|apply IH].
  destruct (dumpReadyBlocks_frame b rm)
    as (rm3 & l & -> & _ & _ & _ & _ & Hd & _). simpl.
  intros Hrun. apply IH in Hrun. congruence.
Qed.

(** *** Retries *)

Lemma last_ask_app el asks1 asks2 :
  last_ask el (asks1 ++ asks2)
  = match last_ask el asks2 with
    | Some t => Some t
    | None => last_ask el asks1
    end.
Proof.
  induction asks1 as [|[t e] asks1 IH]; simpl.
  - by destruct (last_ask el asks2).
  - rewrite IH. by destruct (last_ask el asks2).
Qed.

Lemma last_ask_pass el now els :
  last_ask el ((λ e, (now, e)) <$> els)
  = if decide (el ∈ els) then Some now else None.
Proof.
  induction els as [|e els IH].
  - simpl.
    destruct (decide (el ∈ [])) as [Hin|]; [by apply elem_of_nil in Hin|done].
  - rewrite fmap_cons. cbn [last_ask]. rewrite IH.
    destruct (decide (el ∈ els)) as [Hin|Hnin].
    + rewrite decide_True; [done|]. apply elem_of_cons. by right.
    + destruct (decide (e = el)) as [->|Hne].
      * rewrite decide_True; [done|]. apply elem_of_cons. by left.
      * rewrite decide_False; [done|].
        intros [->|?]%elem_of_cons; done.
Qed.

Lemma last_ask_elem t el asks : (t, el) ∈ asks → is_Some (last_ask el asks).
Proof.
  induction asks as [|[t' e] asks IH]; [by intros ?%elem_of_nil|].
  intros [[= <- <-]|Hin]%elem_of_cons; simpl.
  - destruct (last_ask el asks); [eauto|]. rewrite decide_True by done. eauto.
  - destruct (IH Hin) as [t0 ->]. eauto.
Qed.

Lemma requested_NoDup now q rm :
  NoDup (pendingBlocks rm) → NoDup (requested now q rm).
Proof.
  intros Hnd. apply (NoDup_sublist _ (pendingBlocks rm)); [|done].
  unfold requested. etrans; [apply sublist_take|apply sublist_filter].
Qed.

Lemma requested_due now q rm el :
  el ∈ requested now q rm →
  el ∈ pendingBlocks rm ∧ due_by_hash now (mem rm !!! el) = true.
Proof.
  unfold requested.
  intros (i & Hi & _)%elem_of_take.
  apply list_elem_of_lookup_2 in Hi.
  apply list_elem_of_filter in Hi as [Hdue Hin].
  split; [done|]. by apply Is_true_true.
Qed.

(** A block that is waiting for data is due only when its last request has
    timed out. *)
Lemma due_by_hash_waiting now pb :
  status pb = RequestWaitingDataResp →
  due_by_hash now pb = true →
  RequestTimeout < now - lastUpdate pb.
Proof.
  intros Hst. unfold due_by_hash, HasTimedOut. rewrite Hst. simpl.
  intros Hdue. apply andb_true_iff in Hdue as [_ Hout].
  apply bool_decide_eq_true in Hout. lia.
Qed.

(** What a run keeps. *)
Lemma runs_inv rm0 asks rm :
  reachable CalculateRootHash Intn rm0 →
  runs CalculateRootHash Intn rm0 asks rm →
  reachable CalculateRootHash Intn rm
  ∧ (∃ calls, dataCalls rm = dataCalls rm0 ++ calls
              ∧ dc_entry <$> calls = (λ a, hash (mem rm !!! a.2)) <$> asks)
  ∧ (∀ el t, last_ask el asks = Some t →
       status (mem rm !!! el) = RequestWaitingDataResp
       ∧ lastUpdate (mem rm !!! el) = t)
  ∧ (∀ i t el t0, asks !! i = Some (t, el) →
       last_ask el (take i asks) = Some t0 → RequestTimeout < t - t0).
Proof.
  intros Hreach0 Hruns.
  (* an entry point that sends nothing and keeps the request state of the
     cells keeps all of it *)
  assert (∀ asks rm rm',
            (∃ calls, dataCalls rm = dataCalls rm0 ++ calls
                      ∧ dc_entry <$> calls = (λ a, hash (mem rm !!! a.2)) <$> asks)
            ∧ (∀ el t, last_ask el asks = Some t →
                 status (mem rm !!! el) = RequestWaitingDataResp
                 ∧ lastUpdate (mem rm !!! el) = t) →
            dataCalls rm' = dataCalls rm →
            (∀ el, is_Some (mem rm !! el) →
               same_request (mem rm !!! el) (mem rm' !!! el)) →
            (∃ calls, dataCalls rm' = dataCalls rm0 ++ calls
                      ∧ dc_entry <$> calls
                        = (λ a, hash (mem rm' !!! a.2)) <$> asks)
            ∧ (∀ el t, last_ask el asks = Some t →
                 status (mem rm' !!! el) = RequestWaitingDataResp
                 ∧ lastUpdate (mem rm' !!! el) = t)) as Hingest.
  { clear. intros asks rm rm' [(calls & Hcalls & Hhashes) Hlast] Hd Hkept.
    split.
    - exists calls. split; [congruence|]. rewrite Hhashes.
      apply list_fmap_ext. intros i [t el] Hi. simpl.
      destruct (last_ask_elem t el asks) as [t0 Ht0];
        [by eapply list_elem_of_lookup_2|].
      destruct (Hlast el t0 Ht0) as [Hst _].
      by destruct (Hkept el (waiting_cell _ _ Hst)) as (-> & _).
    - intros el t Ht. destruct (Hlast el t Ht) as [Hst Hup].
      destruct (Hkept el (waiting_cell _ _ Hst)) as (_ & _ & -> & -> & _).
      done. }
  induction Hruns
    as [|now x peerIDs asks rm Hruns IH|now hd asks rm rm' Hruns IH Hrun
       |now b asks rm rm' Hruns IH Hrun|pendings asks rm rm' Hruns IH Hrange Hrun
       |now tip lfb asks rm rm' Hruns IH Hrun|c asks rm Hruns IH].
  - split_and!; [done| | |].
    + exists []. by rewrite app_nil_r.
    + intros el t [=].
    + intros i t el t0 [=].
  - destruct IH as (Hreach & Hcalls & Hlast & Hapart).
    destruct (Hingest asks rm (AddHash now x peerIDs rm)) as [Hc' Hl'];
      [done| |intros el Hel; by apply addHash_kept|].
    { unfold AddHash. by destruct (addHash_frame now x peerIDs rm)
        as ((_ & _ & _ & -> & _) & _). }
    split_and!; [by apply reach_AddHash|done|done|done].
  - destruct IH as (Hreach & Hcalls & Hlast & Hapart).
    assert (rm' = rm) as ->.
    { destruct (FindBlock (chain rm) (Hash hd)) as [eb|] eqn:Hc.
      - rewrite AddHeader_stored in Hrun by (rewrite Hc; eauto). congruence.
      - by rewrite AddHeader_not_stored in Hrun. }
    done.
  - destruct IH as (Hreach & Hcalls & Hlast & Hapart).
    destruct (Hingest asks rm rm') as [Hc' Hl'];
      [done|by eapply AddBlock_dataCalls
      |intros el Hel; by eapply AddBlock_kept|].
    split_and!; [by eapply reach_AddBlock|done|done|done].
  - destruct IH as (Hreach & Hcalls & Hlast & Hapart).
    destruct (Hingest asks rm rm') as [Hc' Hl'];
      [done|by eapply dumpAllReadyBlocks_dataCalls| |].
    { intros el _. rewrite (dumpAllReadyBlocks_mem _ _ _ Hrun).
      apply same_request_refl. }
    split_and!; [by eapply reach_dumpAllReadyBlocks|done|done|done].
  - destruct IH as (Hreach & (calls & Hcalls & Hhashes) & Hlast & Hapart).
    pose proof (header_heap_empty_reachable _ _ _ Hreach) as Hempty.
    pose proof (io_nodup _ (reachable_index_ok rm Hreach)) as Hnd.
    pose proof (reach_tick _ _ _ _ _ _ _ Hreach Hrun) as Hreach'.
    apply (tick_empty_heap _ _ _ _ _ Hempty) in Hrun
      as (rm1 & -> & Hm & Hl & _ & _ & Hd).
    assert (requested now RequestQuotaPerSecond rm
            = requested now RequestQuotaPerSecond rm1) as Hreq
      by (unfold requested; by rewrite Hm, Hl).
    rewrite Hreq. set (sent := requested now RequestQuotaPerSecond rm1).
    assert (dataCalls (downloadBlockFromHash Intn now RequestQuotaPerSecond rm1)
            = dataCalls rm1
              ++ ((λ el, request_of Intn (mem rm1 !!! el)) <$> sent)
            ∧ ∀ el, mem (downloadBlockFromHash Intn now RequestQuotaPerSecond rm1)
                      !!! el
                    = if decide (el ∈ sent)
                      then asked now RequestWaitingDataResp (mem rm1 !!! el)
                      else mem rm1 !!! el) as [Hsent Hcells].
    { unfold downloadBlockFromHash.
      destruct (hash_loop Intn now (pendingBlocks rm1) RequestQuotaPerSecond
                  [] rm1) as [[rm2 rem] q2] eqn:Hloop.
      apply hash_loop_requests in Hloop as [Hc2 Hm2];
        [|by rewrite Hl|unfold RequestQuotaPerSecond; lia].
      by rewrite foldl_removeEl_dataCalls, foldl_removeEl_mem. }
    set (rm' := downloadBlockFromHash Intn now RequestQuotaPerSecond rm1) in *.
    assert (∀ el, hash (mem rm' !!! el) = hash (mem rm !!! el)) as Hhash.
    { intros el. rewrite Hcells, <- Hm. by destruct (decide (el ∈ sent)). }
    assert (NoDup sent) as Hndsent
      by (apply requested_NoDup; by rewrite Hl).
    split_and!; [done| | |].
    + exists (calls ++ ((λ el, request_of Intn (mem rm1 !!! el)) <$> sent)).
      split; [by rewrite Hsent, Hd, Hcalls, <- app_assoc|].
      rewrite !fmap_app, Hhashes, <- !list_fmap_compose. f_equal.
      * apply list_fmap_ext. intros i [t el] _. simpl. by rewrite Hhash.
      * apply list_fmap_ext. intros i el _. simpl. by rewrite Hhash, Hm.
    + intros el t. rewrite last_ask_app, last_ask_pass, Hcells.
      destruct (decide (el ∈ sent)) as [Hin|Hnin].
      * by intros [= <-].
      * rewrite Hm. apply Hlast.
    + intros i t el t0 Hi Ht0.
      destruct (decide (i < length asks)%nat) as [Hlt|Hge].
      * rewrite lookup_app_l in Hi by done.
        rewrite take_app_le in Ht0 by lia. by eapply Hapart.
      * rewrite lookup_app_r in Hi by lia.
        rewrite take_app_ge in Ht0 by lia.
        apply list_lookup_fmap_Some in Hi as (el' & [= -> <-] & Hel').
        rewrite last_ask_app, <- fmap_take, last_ask_pass in Ht0.
        rewrite decide_False in Ht0.
        2:{ intros (j & Hj & Hlt)%elem_of_take.
            pose proof (NoDup_lookup _ _ _ _ Hndsent Hj Hel'). lia. }
        destruct (Hlast el t0 Ht0) as [Hst Hup].
        destruct (requested_due now RequestQuotaPerSecond rm1 el) as [_ Hdue];
          [by eapply list_elem_of_lookup_2|].
        rewrite Hm in Hdue. rewrite <- Hup.
        by apply due_by_hash_waiting.
  - destruct IH as (Hreach & Hcalls & Hlast & Hapart).
    split_and!; [by apply reach_chain|done|done|done].
Qed.

(** X16.  No pending block is asked for again before its request has timed
    out.  In every run of the manager, whatever ingest calls, ticks and
    changes of the chain store it is made of: the hashes of the data
    requests sent during the run are those of the pending blocks the ticks
    found due, in their order; and when a tick asks for a pending block
    that was asked for before, its clock reading is more than
    [RequestTimeout] after that of the last tick that asked for it.  This
    is about one pending block: a hash that gets a new pending block, after
    the old one has expired, is asked for as a new one. *)
Theorem retry_waits_for_timeout rm0 asks rm :
  reachable CalculateRootHash Intn rm0 →
  runs CalculateRootHash Intn rm0 asks rm →
  (∃ calls, dataCalls rm = dataCalls rm0 ++ calls
            ∧ dc_entry <$> calls = (λ a, hash (mem rm !!! a.2)) <$> asks)
  ∧ ∀ i t el t0,
      asks !! i = Some (t, el) →
      last_ask el (take i asks) = Some t0 →
      RequestTimeout < t - t0.
Proof.
  intros Hreach Hruns.
  by destruct (runs_inv rm0 asks rm Hreach Hruns) as (_ & ? & _ & ?).
Qed.

(** X20.  A request that is not answered is repeated.  A pending block of
    the list that is waiting for data and whose last request has timed out
    is asked for again by a pass of [downloadBlockFromHash] whose quota
    covers the list, provided it has not expired, has no header and has a
    peer: the pass sends a request for its hash to one of its peers, and
    marks the block as asked at the clock reading of the pass. *)
Theorem downloadBlockFromHash_retry now q rm el :
  NoDup (pendingBlocks rm) →
  Z.of_nat (length (pendingBlocks rm)) ≤ q →
  el ∈ pendingBlocks rm →
  status (mem rm !!! el) = RequestWaitingDataResp →
  RequestTimeout < now - lastUpdate (mem rm !!! el) →
  HasExpired now (mem rm !!! el) = false →
  header (mem rm !!! el) = None →
  peers (mem rm !!! el) ≠ [] →
  (∃ c, c ∈ drop (length (dataCalls rm))
              (dataCalls (downloadBlockFromHash Intn now q rm))
        ∧ dc_entry c = hash (mem rm !!! el)
        ∧ dc_peer c ∈ peers (mem rm !!! el))
  ∧ mem (downloadBlockFromHash Intn now q rm) !!! el
    = asked now RequestWaitingDataResp (mem rm !!! el).
Proof.
  intros Hnd Hq Hin Hst Hlate Hexp Hhd Hpeers.
  assert (due_by_hash now (mem rm !!! el) = true) as Hdue.
  { unfold due_by_hash, HasTimedOut. rewrite Hexp, Hhd, Hst. simpl.
    rewrite (bool_decide_false (length _ = 0%nat))
      by (by destruct (peers (mem rm !!! el))).
    rewrite (bool_decide_true (_ > _)) by lia. done. }
  assert (el ∈ requested now q rm) as Hsent.
  { unfold requested. rewrite take_ge.
    - apply list_elem_of_filter. split; [by apply Is_true_true|done].
    - etrans; [apply length_filter|]. lia. }
  unfold downloadBlockFromHash.
  destruct (hash_loop Intn now (pendingBlocks rm) q [] rm)
    as [[rm3 rem] q3] eqn:Hrun.
  apply hash_loop_requests in Hrun as [Hcalls Hmem]; [|done|lia].
  rewrite foldl_removeEl_dataCalls, foldl_removeEl_mem, Hcalls, Hmem.
  rewrite drop_app_length. fold (requested now q rm).
  rewrite decide_True by done. split; [|done].
  exists (request_of Intn (mem rm !!! el)). split_and!.
  - apply list_elem_of_fmap. by exists el.
  - done.
  - simpl. apply randomPeer_elem. by destruct (peers (mem rm !!! el)).
Qed.

(** *** Orphans *)

Lemma due_by_hash_same now pb pb' :
  same_request pb pb' → peers pb' = peers pb →
  due_by_hash now pb' = due_by_hash now pb.
Proof.
  intros (_ & Hh & Hs & Hl & Hc) Hp.
  unfold due_by_hash, HasTimedOut, HasExpired. by rewrite Hh, Hp, Hs, Hl, Hc.
Qed.

Lemma due_by_hash_no_peers now pb :
  peers pb = [] → due_by_hash now pb = false.
Proof.
  intros Hp. unfold due_by_hash. rewrite Hp. simpl.
  by rewrite andb_false_r.
Qed.

(** The list after [AddBlock] of a block whose parent is not in the chain
    store: the list before, with the pending block that was made for the
    block, if one was made; it has no peer. *)
Lemma AddBlock_orphan_list now b rm :
  FindBlock (chain rm) (Parent (Header b)) = None →
  ∃ rm',
    AddBlock CalculateRootHash now b rm = Ok rm'
    ∧ (pendingBlocks rm' = pendingBlocks rm
       ∨ (pendingBlocks rm' = pendingBlocks rm ++ [new_loc (mem rm)]
          ∧ peers (mem rm' !!! new_loc (mem rm)) = [])).
Proof.
  intros Hp. unfold AddBlock.
  assert (chain (ensure_pending now (Hash (Header b)) rm) = chain rm
          ∧ (pendingBlocks (ensure_pending now (Hash (Header b)) rm)
             = pendingBlocks rm
             ∨ (pendingBlocks (ensure_pending now (Hash (Header b)) rm)
                = pendingBlocks rm ++ [new_loc (mem rm)]
                ∧ peers (mem (ensure_pending now (Hash (Header b)) rm)
                         !!! new_loc (mem rm)) = []))) as [Hc1 Hl1].
  { unfold ensure_pending.
    destruct (pendingBlocksByHash rm !! Hash (Header b)) as [el0|] eqn:Hh;
      [split; [done|by left]|].
    destruct (FindBlock (chain rm) (Hash (Header b))) as [eb|] eqn:Hc.
    { rewrite addHash_stored by (rewrite Hc; eauto). split; [done|by left]. }
    rewrite addHash_new by done. simpl. split; [done|]. right.
    by rewrite lookup_total_insert_eq. }
  revert Hc1 Hl1. generalize (ensure_pending now (Hash (Header b)) rm).
  intros rm1 Hc1 Hl1.
  destruct (check_body CalculateRootHash b rm1) as [rm2|] eqn:Hcheck;
    [|by eexists].
  assert (chain rm2 = chain rm1 ∧ pendingBlocks rm2 = pendingBlocks rm1
          ∧ ∀ el, peers (mem rm2 !!! el) = peers (mem rm1 !!! el))
    as (Hc2 & Hl2 & Hp2).
  { revert Hcheck. unfold check_body.
    destruct (pendingBlocksByHash rm1 !! Hash (Header b)) as [el0|];
      [|by intros [= <-]].
    intros Hsome.
    assert (rm2 = with_mem (<[el0 := set_block (Some b) (mem rm1 !!! el0)]>
                              (mem rm1)) rm1) as ->.
    { destruct (header (mem rm1 !!! el0)) as [hd|]; [|by injection Hsome].
      destruct (bool_decide _); [done|by injection Hsome]. }
    simpl. split_and!; [done|done|]. intros el.
    destruct (decide (el = el0)) as [->|Hne].
    - by rewrite lookup_total_insert_eq.
    - by rewrite lookup_total_insert_ne. }
  rewrite Hc2, Hc1, Hp. eexists. split; [done|]. simpl.
  rewrite Hl2, Hp2. done.
Qed.

(** X21.  The arrival of an orphan's body does not change what is asked
    for.  When the parent of a block is not in the chain store, a pass of
    [downloadBlockFromHash] after [AddBlock] of the block asks for the same
    pending blocks, in the same order, as a pass at the same clock reading
    with the same quota would have asked for without it, the pending block
    of the block itself included; their hashes and peers are the same, and
    the requests the pass sends are requests for these blocks.  So a block
    whose body is parked under an unknown parent is asked for again when
    its request times out. *)
Theorem AddBlock_orphan_keeps_requests now now' q b rm :
  index_ok rm → 0 ≤ q →
  FindBlock (chain rm) (Parent (Header b)) = None →
  ∃ rm',
    AddBlock CalculateRootHash now b rm = Ok rm'
    ∧ requested now' q rm' = requested now' q rm
    ∧ (∀ el, el ∈ requested now' q rm →
         hash (mem rm' !!! el) = hash (mem rm !!! el)
         ∧ peers (mem rm' !!! el) = peers (mem rm !!! el))
    ∧ dataCalls (downloadBlockFromHash Intn now' q rm')
      = dataCalls rm
        ++ ((λ el, request_of Intn (mem rm' !!! el)) <$> requested now' q rm).
Proof.
  intros Hok Hq Hp.
  destruct (AddBlock_orphan_list now b rm Hp) as (rm' & Hrun & Hlist).
  exists rm'. split; [done|].
  pose proof (AddBlock_index _ _ _ _ Hrun Hok) as Hok'.
  assert (∀ el, el ∈ pendingBlocks rm →
            same_request (mem rm !!! el) (mem rm' !!! el)
            ∧ peers (mem rm' !!! el) = peers (mem rm !!! el)) as Hkept.
  { intros el Hel. apply (AddBlock_kept _ _ _ _ _ Hrun).
    by apply (io_cell _ Hok). }
  assert (filter (λ el, due_by_hash now' (mem rm' !!! el)) (pendingBlocks rm)
          = filter (λ el, due_by_hash now' (mem rm !!! el)) (pendingBlocks rm))
    as Hfilter.
  { apply filter_ext_elem. intros el Hel.
    destruct (Hkept el Hel) as [Hs Hpe].
    by rewrite (due_by_hash_same now' _ _ Hs Hpe). }
  assert (requested now' q rm' = requested now' q rm) as Hreq.
  { unfold requested. destruct Hlist as [-> | [-> Hnew]]; [by rewrite Hfilter|].
    rewrite filter_app, Hfilter.
    rewrite (filter_cons_False _ (new_loc (mem rm)));
      [by rewrite filter_nil, app_nil_r|].
    rewrite due_by_hash_no_peers by done. by intros []. }
  split_and!; [done| |].
  - intros el (Hel & _)%requested_due.
    destruct (Hkept el Hel) as [(-> & _) ->]. done.
  - unfold downloadBlockFromHash.
    destruct (hash_loop Intn now' (pendingBlocks rm') q [] rm')
      as [[rm3 rem] q3] eqn:Hloop.
    apply hash_loop_requests in Hloop as [Hcalls _];
      [|by apply (io_nodup _ Hok')|done].
    rewrite foldl_removeEl_dataCalls, Hcalls.
    fold (requested now' q rm'). rewrite Hreq.
    by rewrite (AddBlock_dataCalls _ _ _ _ Hrun).
Qed.

End Ingest.

(** ** Peer slices *)

Section SliceProperties.

Local Open Scope nat_scope.

Variable growslice : nat → nat.

Lemma apart_sym s1 s2 : apart s1 s2 → apart s2 s1.
Proof. unfold apart. intros [?|[?|?]]; [left; congruence|right; by right|right; by left]. Qed.

Lemma elements_lookup A s i :
  wf_slice A s → i < s_len s →
  elements A s !! i = Some ((A !!! s_array s) !!! (s_offset s + i)).
Proof.
  intros [Hlen Hcap] Hi. unfold elements.
  rewrite lookup_take_lt, lookup_drop by done.
  apply list_lookup_lookup_total_lt. lia.
Qed.

Lemma elements_length A s : wf_slice A s → length (elements A s) = s_len s.
Proof.
  intros [Hlen Hcap]. unfold elements. rewrite length_take, length_drop. lia.
Qed.

(** A write into an array does not show in a slice whose window, up to its
    capacity, the written index is not in. *)
Lemma elements_write_other A a p x s :
  wf_slice A s →
  s_array s ≠ a ∨ p < s_offset s ∨ s_offset s + s_cap s ≤ p →
  elements (<[a := <[p := x]> (A !!! a)]> A) s = elements A s
  ∧ wf_slice (<[a := <[p := x]> (A !!! a)]> A) s.
Proof.
  intros [Hlen Hcap] Hout. unfold elements, wf_slice.
  destruct (decide (s_array s = a)) as [<-|Hne].
  - rewrite lookup_total_insert_eq, length_insert. split; [|done].
    destruct Hout as [?|[Hlt|Hge]]; [done| |].
    + by rewrite drop_insert_lt.
    + rewrite drop_insert_ge by lia. rewrite take_insert_ge by lia. done.
  - by rewrite lookup_total_insert_ne.
Qed.

(** What [append] does to the slice it is given and to the slices that
    share nothing with it. *)
Lemma append_spec A own x :
  wf_slice A own →
  elements (append growslice A own x).2 (append growslice A own x).1
  = elements A own ++ [x]
  ∧ wf_slice (append growslice A own x).2 (append growslice A own x).1
  ∧ ∀ s, wf_slice A s → apart s own →
         elements (append growslice A own x).2 s = elements A s
         ∧ wf_slice (append growslice A own x).2 s
         ∧ apart s (append growslice A own x).1.
Proof.
  intros [Hlen Hcap]. unfold append. case_bool_decide as Hroom; simpl.
  - split_and!.
    + unfold elements. simpl. rewrite lookup_total_insert_eq.
      rewrite drop_insert_ge by lia.
      replace (s_offset own + s_len own - s_offset own) with (s_len own) by lia.
      rewrite (take_S_r _ _ x).
      * by rewrite take_insert_ge.
      * apply list_lookup_insert_eq. rewrite length_drop. lia.
    + unfold wf_slice. simpl. rewrite lookup_total_insert_eq, length_insert. lia.
    + intros s Hwf Hapart.
      destruct (elements_write_other A (s_array own) (s_offset own + s_len own)
                  x s Hwf) as [Hel Hwf'].
      { destruct Hapart as [?|[?|?]]; [by left|right; right; lia|right; left; lia]. }
      done.
  - set (a := fresh (dom A)).
    assert (A !!! a = []) as Hfresh.
    { rewrite lookup_total_alt.
      by rewrite (proj1 (not_elem_of_dom A a) (is_fresh (dom A))). }
    set (c := growslice (S (s_len own)) `max` S (s_len own)).
    assert (length (elements A own) = s_len own) as Hlength
      by (by apply elements_length).
    split_and!.
    + unfold elements at 1. simpl. rewrite lookup_total_insert_eq. simpl.
      rewrite (cons_middle x), app_assoc.
      apply take_app_length'. rewrite length_app, Hlength. simpl. lia.
    + unfold wf_slice. simpl. rewrite lookup_total_insert_eq.
      rewrite length_app, length_cons, length_replicate. lia.
    + intros s [Hlen' Hcap'] Hapart.
      destruct (decide (s_array s = a)) as [Heq|Hne].
      * rewrite Heq in Hcap'. rewrite Hfresh in Hcap'. simpl in Hcap'.
        unfold elements, wf_slice, apart. rewrite Heq. simpl.
        rewrite lookup_total_insert_eq.
        replace (s_len s) with 0 by lia. rewrite !take_0.
        split_and!; first [done|lia|(right; left; lia)].
      * unfold elements, wf_slice, apart. simpl.
        rewrite lookup_total_insert_ne by done.
        split_and!; first [done|by left].
Qed.


Lemma add_peers_cons ps xid peerIDs :
  add_peers ps (xid :: peerIDs)
  = add_peers (if bool_decide (xid ∈ ps) then ps else ps ++ [xid]) peerIDs.
Proof. done. Qed.

(** The loop of [addHash] on a slice [own] that shares nothing with the
    slice [peerIDs] of the caller is the loop on lists. *)
Lemma union_loop_own peerIDs n :
  ∀ i own A,
    wf_slice A own → wf_slice A peerIDs → apart peerIDs own →
    i + n = s_len peerIDs →
    elements (union_loop growslice n i peerIDs own A).2
      (union_loop growslice n i peerIDs own A).1
    = add_peers (elements A own) (drop i (elements A peerIDs))
    ∧ wf_slice (union_loop growslice n i peerIDs own A).2
        (union_loop growslice n i peerIDs own A).1
    ∧ ∀ s, wf_slice A s → apart s own →
           elements (union_loop growslice n i peerIDs own A).2 s = elements A s
           ∧ wf_slice (union_loop growslice n i peerIDs own A).2 s
           ∧ apart s (union_loop growslice n i peerIDs own A).1.
Proof.
  induction n as [|n IH]; intros i own A Hown Hids Hapart Hi.
  - simpl. rewrite drop_ge by (rewrite elements_length by done; lia).
    split_and!; [done|done|]. by intros s ? ?.
  - cbn [union_loop].
    assert (drop i (elements A peerIDs)
            = ((A !!! s_array peerIDs) !!! (s_offset peerIDs + i))
              :: drop (S i) (elements A peerIDs)) as ->.
    { apply drop_S, elements_lookup; [done|lia]. }
    rewrite add_peers_cons.
    set (xid := (A !!! s_array peerIDs) !!! (s_offset peerIDs + i)).
    destruct (bool_decide (xid ∈ elements A own)).
    + apply IH; [done|done|done|lia].
    + destruct (append_spec A own xid Hown) as (Hel & Hwf & Hothers).
      destruct (append growslice A own xid) as [own1 A1]. simpl in *.
      destruct (Hothers peerIDs Hids Hapart) as (Hids1 & Hwfids1 & Hapart1).
      destruct (IH (S i) own1 A1 Hwf Hwfids1 Hapart1) as (Hel' & Hwf' & Hothers');
        [lia|].
      rewrite Hel', Hel, Hids1. split_and!; [done|done|].
      intros s Hs Hsa. destruct (Hothers s Hs Hsa) as (Hs1 & Hswf1 & Hsa1).
      destruct (Hothers' s Hswf1 Hsa1) as (Hs2 & Hswf2 & Hsa2).
      split_and!; [congruence|done|done].
Qed.

(** The loop over the slice that [NewPendingBlock] has just stored finds
    every element, and writes nothing. *)
Lemma union_loop_same s n :
  ∀ i A, wf_slice A s → i + n = s_len s →
         union_loop growslice n i s s A = (s, A).
Proof.
  induction n as [|n IH]; intros i A Hwf Hi; [done|].
  cbn [union_loop].
  rewrite bool_decide_true.
  - apply IH; [done|lia].
  - eapply list_elem_of_lookup_2, elements_lookup; [done|lia].
Qed.

Lemma resync_in_sync rm ps :
  map_Forall (λ el pb,
    is_Some (slices ps !! el)
    ∧ peers pb = elements (arrays ps) (slices ps !!! el)) (mem rm) →
  resync ps rm = rm.
Proof.
  intros Hsync. unfold resync.
  assert (map_imap (λ el pb,
            Some (match slices ps !! el with
                  | Some s => set_peers (elements (arrays ps) s) pb
                  | None => pb
                  end)) (mem rm) = mem rm) as ->; [|by destruct rm].
  apply map_eq. intros el. rewrite map_lookup_imap.
  destruct (mem rm !! el) as [pb|] eqn:Hpb; [|done]. simpl.
  destruct (Hsync el pb Hpb) as [[s Hs] Hp].
  rewrite lookup_total_alt, Hs in Hp. simpl in Hp.
  by rewrite Hs, <- Hp, set_peers_same.
Qed.


(** X10.  [AddHash] only adds peers, as long as the slice it is given
    shares no array with the peer slices, which share none among
    themselves.  Then [addHash] on the slices does what [addHash] on the
    lists of their elements does, and the slices share no array afterwards
    either.  So the peers a pending block had are a prefix of the peers it
    has afterwards, nothing else of an existing cell changes, and lists
    without duplicates stay so when the elements given have none; when the
    hash is not in the chain store it has a pending block afterwards, and
    unless that block has its body already every peer given is among its
    peers; when the hash is in the chain store nothing changes. *)
Theorem addHash_slices_own now x peerIDs rm ps :
  index_ok rm → slices_ok rm ps → own_slice ps peerIDs →
  let ids := elements (arrays ps) peerIDs in
  let rm' := addHash now x ids rm in
  ∃ ps',
    addHash_slices growslice now x peerIDs (rm, ps) = (rm', ps')
    ∧ slices_ok rm' ps'
    ∧ (∀ el, peers (mem rm !!! el) `prefix_of` peers (mem rm' !!! el))
    ∧ (∀ el, is_Some (mem rm !! el) →
         mem rm' !!! el = set_peers (peers (mem rm' !!! el)) (mem rm !!! el))
    ∧ (NoDup ids →
       (∀ el, NoDup (peers (mem rm !!! el))) →
       ∀ el, NoDup (peers (mem rm' !!! el)))
    ∧ (FindBlock (chain rm) x = None →
       ∃ el, pendingBlocksByHash rm' !! x = Some el
             ∧ (block (mem rm' !!! el) = None →
                ∀ p, p ∈ ids → p ∈ peers (mem rm' !!! el)))
    ∧ (is_Some (FindBlock (chain rm) x) → rm' = rm ∧ ps' = ps).
Proof.
  intros Hindex (Hwf & Hapart & Hpeers) [Hwfids Haparts] ids rm'.
  destruct (addHash_on_lists now x ids rm) as (Hprefix & Hcells & Hnodup & Hnew).
  assert (∃ ps', addHash_slices growslice now x peerIDs (rm, ps) = (rm', ps')
                 ∧ slices_ok rm' ps'
                 ∧ (is_Some (FindBlock (chain rm) x) → rm' = rm ∧ ps' = ps))
    as (ps' & Hrun & Hok' & Hstored).
  2:{ exists ps'. split_and!; done. }
  subst rm'. unfold addHash_slices.
  destruct (FindBlock (chain rm) x) as [eb|] eqn:Hc.
  { rewrite addHash_stored by (rewrite Hc; eauto). exists ps.
    split_and!; [done|by split_and!|done]. }
  destruct (pendingBlocksByHash rm !! x) as [el0|] eqn:Hh.
  - rewrite (addHash_known _ _ _ _ el0) by done.
    destruct (block (mem rm !!! el0)) as [b0|] eqn:Hb.
    { exists ps. split_and!; [done|by split_and!|by intros [? [=]]]. }
    destruct (io_byHash _ Hindex _ _ Hh) as [Hin _].
    destruct (io_cell _ Hindex _ Hin) as [pb0 Hpb0].
    destruct (Hpeers el0 pb0 Hpb0) as [[own Hown] Hsync0].
    rewrite (lookup_total_alt (slices ps)), Hown in Hsync0 |- *. simpl in *.
    assert (mem rm !!! el0 = pb0) as Hpb0' by (by rewrite lookup_total_alt, Hpb0).
    rewrite Hpb0'.
    destruct (union_loop_own peerIDs (s_len peerIDs) 0 own (arrays ps))
      as (Hel & Hwf' & Hothers);
      [by apply (Hwf el0)|done|by apply (Haparts el0)|lia|].
    rewrite drop_0 in Hel. fold ids in Hel. rewrite <- Hsync0 in Hel.
    destruct (union_loop growslice (s_len peerIDs) 0 peerIDs own (arrays ps))
      as [own' A'] eqn:Hloop. simpl in Hel, Hwf', Hothers.
    assert (∀ el s, el ≠ el0 → slices ps !! el = Some s →
              elements A' s = elements (arrays ps) s
              ∧ wf_slice A' s ∧ apart s own') as Hrest.
    { intros el s Hne Hs. apply Hothers; [by apply (Hwf el)|].
      by apply (Hapart el s Hs el0 own Hown). }
    eexists. split_and!; [|split_and!|by intros [? [=]]].
    + f_equal. unfold resync. simpl.
      assert (map_imap (λ el pb,
                Some (match <[el0 := own']> (slices ps) !! el with
                      | Some s => set_peers (elements A' s) pb
                      | None => pb
                      end)) (mem rm)
              = <[el0 := set_peers (add_peers (peers pb0) ids) pb0]> (mem rm))
        as ->; [|done].
      apply map_eq. intros el. rewrite map_lookup_imap.
      destruct (decide (el = el0)) as [->|Hne].
      * rewrite Hpb0, !lookup_insert_eq. simpl. by rewrite Hel.
      * rewrite !lookup_insert_ne by done.
        destruct (mem rm !! el) as [pb|] eqn:Hpb; [|done]. simpl.
        destruct (Hpeers el pb Hpb) as [[s Hs] Hp].
        rewrite lookup_total_alt, Hs in Hp. simpl in Hp. rewrite Hs.
        destruct (Hrest el s Hne Hs) as (-> & _).
        by rewrite <- Hp, set_peers_same.
    + simpl. intros el s. destruct (decide (el = el0)) as [->|Hne].
      * rewrite lookup_insert_eq. by intros [= <-].
      * rewrite lookup_insert_ne by done. intros Hs.
        by destruct (Hrest el s Hne Hs) as (_ & ? & _).
    + simpl. intros el1 s1 Hs1 el2 s2 Hs2 Hne12.
      destruct (decide (el1 = el0)) as [->|Hne1];
        destruct (decide (el2 = el0)) as [->|Hne2]; [done| | |].
      * rewrite lookup_insert_eq in Hs1. injection Hs1 as <-.
        rewrite lookup_insert_ne in Hs2 by done.
        apply apart_sym. by destruct (Hrest el2 s2 Hne2 Hs2) as (_ & _ & ?).
      * rewrite lookup_insert_eq in Hs2. injection Hs2 as <-.
        rewrite lookup_insert_ne in Hs1 by done.
        by destruct (Hrest el1 s1 Hne1 Hs1) as (_ & _ & ?).
      * rewrite lookup_insert_ne in Hs1, Hs2 by done.
        by apply (Hapart el1 s1 Hs1 el2 s2 Hs2).
    + simpl. intros el pb. destruct (decide (el = el0)) as [->|Hne].
      * rewrite !lookup_insert_eq, lookup_total_insert_eq. intros [= <-].
        simpl. split; [eauto|by rewrite Hel].
      * rewrite !lookup_insert_ne, lookup_total_insert_ne by done. intros Hpb.
        destruct (Hpeers el pb Hpb) as [[s Hs] Hp]. split; [eauto|].
        rewrite lookup_total_alt, Hs in Hp |- *. simpl in *.
        by destruct (Hrest el s Hne Hs) as (-> & _).
  - rewrite addHash_new by done. simpl.
    rewrite !lookup_total_insert_eq. simpl.
    rewrite union_loop_same by (done || lia).
    rewrite insert_insert_eq.
    set (el0 := new_loc (mem rm)).
    pose proof (new_loc_fresh (mem rm)) as Hfresh. fold el0 in Hfresh.
    assert (slices_ok
              (with_byHash (<[x := el0]> (pendingBlocksByHash rm))
                 (with_pendingBlocks (pendingBlocks rm ++ [el0])
                    (with_mem (<[el0 := NewPendingBlock now x ids]> (mem rm)) rm)))
              {| slices := <[el0 := peerIDs]> (slices ps);
                 arrays := arrays ps |}) as Hok'.
    { split_and!; simpl.
      - intros el s. destruct (decide (el = el0)) as [->|Hne].
        + rewrite lookup_insert_eq. by intros [= <-].
        + rewrite lookup_insert_ne by done. apply Hwf.
      - intros el1 s1 Hs1 el2 s2 Hs2 Hne12.
        destruct (decide (el1 = el0)) as [->|Hne1];
          destruct (decide (el2 = el0)) as [->|Hne2]; [done| | |].
        + rewrite lookup_insert_eq in Hs1. injection Hs1 as <-.
          rewrite lookup_insert_ne in Hs2 by done. by apply (Haparts el2).
        + rewrite lookup_insert_eq in Hs2. injection Hs2 as <-.
          rewrite lookup_insert_ne in Hs1 by done.
          by apply apart_sym, (Haparts el1).
        + rewrite lookup_insert_ne in Hs1, Hs2 by done.
          by apply (Hapart el1 s1 Hs1 el2 s2 Hs2).
      - intros el pb. destruct (decide (el = el0)) as [->|Hne].
        + rewrite !lookup_insert_eq, lookup_total_insert_eq. intros [= <-].
          simpl. split; [eauto|done].
        + rewrite !lookup_insert_ne, lookup_total_insert_ne by done.
          apply Hpeers. }
    eexists. split_and!; [|exact Hok'|by intros [? [=]]].
    fold ids. destruct Hok' as (_ & _ & Hsync).
    by rewrite (resync_in_sync _ _ Hsync).
Qed.

(** X23.  When two pending blocks hold slices on the same array from the
    same offset, [AddHash] for the one with the shorter slice that has
    room left writes the new peer into the array where the other has a
    peer of its own: that peer of the other pending block is
    overwritten. *)
Theorem addHash_slices_shared now x peerIDs rm ps el1 el2 s1 s2 :
  FindBlock (chain rm) x = None →
  pendingBlocksByHash rm !! x = Some el2 →
  block (mem rm !!! el2) = None →
  is_Some (mem rm !! el1) →
  slices ps !! el1 = Some s1 → slices ps !! el2 = Some s2 →
  wf_slice (arrays ps) s1 → wf_slice (arrays ps) s2 →
  s_array s1 = s_array s2 → s_offset s1 = s_offset s2 →
  s_len s2 < s_len s1 → s_len s2 < s_cap s2 →
  wf_slice (arrays ps) peerIDs → s_len peerIDs = 1 →
  let p := (arrays ps !!! s_array peerIDs) !!! s_offset peerIDs in
  p ∉ elements (arrays ps) s2 →
  peers (mem (addHash_slices growslice now x peerIDs (rm, ps)).1 !!! el1)
    !! s_len s2 = Some p.
Proof.
  intros Hc Hh Hb [pb1 Hpb1] Hs1 Hs2 [Hlen1 Hcap1] [Hlen2 Hcap2]
    Harr Hoff Hshort Hroom _ Hone p Hnew.
  assert (el1 ≠ el2) as Hne by (intros ->; rewrite Hs1 in Hs2; injection Hs2 as ->; lia).
  unfold addHash_slices. rewrite Hc, Hh, Hb, Hone.
  rewrite (lookup_total_alt (slices ps)), Hs2. simpl.
  rewrite Nat.add_0_r. fold p.
  rewrite bool_decide_false by done.
  unfold append. rewrite bool_decide_true by done. simpl.
  rewrite lookup_total_alt, map_lookup_imap, Hpb1. simpl.
  rewrite lookup_insert_ne, Hs1 by done. simpl.
  unfold elements. rewrite Harr, Hoff, lookup_total_insert_eq.
  rewrite lookup_take_lt by done. rewrite lookup_drop.
  apply list_lookup_insert_eq. rewrite Harr, Hoff in Hcap1. lia.
Qed.

End SliceProperties.

(** * Instances *)

(** ** The inventory requester *)

Lemma buildInventoryRequest_terminates_witness :
  (∃ starts,
     buildInventoryRequest chain100 (mkBlock 130%N 130 129%N) lfb100 = Ok starts)
  ∧ 1 ≤ 2
  ∧ to_uint64 (100 - to_uint64 2) = 100 - 2
  ∧ 0 ≤ 100 - 2 < 100
  ∧ - 2 ^ 63 ≤ 2 < 2 ^ 63.
Proof.
  destruct (buildInventoryRequest_terminates chain100 (mkBlock 130%N 130 129%N)
              lfb100) as [Hreturns Hstep].
  - simpl. lia.
  - split; [exact Hreturns|].
    apply (Hstep 100 1 2); [lia|lia|reflexivity].
Defined.

Lemma buildInventoryRequest_locator_witness :
  buildInventoryRequest chain100 tip100 lfb100 = Ok [100%N].
Proof.
  apply (buildInventoryRequest_locator chain100 tip100 lfb100); simpl; lia.
Defined.

(** ** The quota *)

Lemma add_hashes_reachable n rm :
  reachable root_sum Intn_first rm →
  reachable root_sum Intn_first (add_hashes n rm).
Proof.
  intros Hr. induction n as [|n IH]; [done|]. simpl. by apply reach_AddHash.
Qed.


(** How the quota is handed on.  [tryToDownload] gives [rm.quota] to each
    downloader by value, so each counts down a copy of its own: after a
    tick that sent a hundred requests for a hundred advertised hashes,
    [rm.quota] is still 100.  It does not show in any state the manager
    can be in, because the header heap is empty there
    ([header_heap_empty_reachable]).  In the state [rm_busy], built by hand
    with one pending block in the header heap, which no entry point leaves
    behind, one tick sends 101 requests: the header downloader sends one,
    and the hash downloader starts again from 100. *)
Lemma quota_handed_by_value :
  (reachable root_sum Intn_first rm_hundred
   ∧ ∃ rm',
       tick Intn_first second tip100 lfb100 rm_hundred = Ok rm'
       ∧ dataCalls rm_hundred = []
       ∧ length (dataCalls rm') = 100%nat
       ∧ quota rm' = RequestQuotaPerSecond)
  ∧ pendingBlocksWithHeader rm_busy ≠ []
  ∧ ∃ rm',
      tick Intn_first second tip100 lfb100 rm_busy = Ok rm'
      ∧ dataCalls rm_busy = []
      ∧ length (dataCalls rm') = 101%nat.
Proof.
  split_and!.
  - apply add_hashes_reachable, reach_New.
  - exists (or_else rm_hundred
              (tick Intn_first second tip100 lfb100 rm_hundred)).
    split_and!; by_evaluation.
  - by_evaluation.
  - exists (or_else rm_busy (tick Intn_first second tip100 lfb100 rm_busy)).
    split_and!; by_evaluation.
Qed.

(** ** Ingest *)

Lemma AddHeader_panics_witness :
  AddHeader 0 (mkHeader 101%N 101 100%N 0%N) (NewRequestManager chain100) = Panic.
Proof.
  apply (AddHeader_panics 0 (mkHeader 101%N 101 100%N 0%N)
           (NewRequestManager chain100)).
  by_evaluation.
Defined.

Lemma AddBlock_promotes_or_parks_witness :
  ∃ rm',
    AddBlock root_sum 0 b102 rm_after_101 = Ok rm'
    ∧ (is_Some (FindBlock (chain rm_after_101) (Parent (Header b102))) →
       (∃ l, handedToChain rm' = handedToChain rm_after_101 ++ b102 :: l
             ∧ passedDown rm' = passedDown rm_after_101 ++ b102 :: l)
       ∧ pendingBlocksByParent rm' ⊆ pendingBlocksByParent rm_after_101)
    ∧ (FindBlock (chain rm_after_101) (Parent (Header b102)) = None →
       handedToChain rm' = handedToChain rm_after_101
       ∧ passedDown rm' = passedDown rm_after_101
       ∧ chain rm' = chain rm_after_101
       ∧ pendingBlocksByParent rm'
         = <[Parent (Header b102) :=
               let children :=
                 default []
                   (pendingBlocksByParent rm_after_101 !! Parent (Header b102)) in
               if bool_decide
                    (Exists (λ child, Hash (Header child) = Hash (Header b102))
                       children)
               then children else children ++ [b102]]>
             (pendingBlocksByParent rm_after_101)).
Proof.
  apply (AddBlock_promotes_or_parks root_sum 0 b102 rm_after_101).
  by_evaluation.
Defined.

(** Block 101 is in the chain store, marked [Pending]; the body of block
    102 passes the check; and [AddBlock] of block 102 promotes it: the
    block is handed to the chain store and to consensus, and is not parked
    under block 101. *)
Lemma AddBlock_under_pending_parent :
  FindBlock (chain rm_after_101) (Parent (Header b102))
    = Some (mkExtended b101 BlockStatusPending)
  ∧ IsPending BlockStatusPending = true
  ∧ root_mismatch root_sum b102 rm_after_101 = false
  ∧ ∃ rm',
      AddBlock root_sum 0 b102 rm_after_101 = Ok rm'
      ∧ handedToChain rm' = handedToChain rm_after_101 ++ [b102]
      ∧ passedDown rm' = passedDown rm_after_101 ++ [b102]
      ∧ pendingBlocksByParent rm' !! Parent (Header b102) = None.
Proof.
  split_and!; [by_evaluation|done|by_evaluation|].
  exists (or_else rm_after_101 (AddBlock root_sum 0 b102 rm_after_101)).
  split_and!; by_evaluation.
Qed.

Lemma ingest_of_stored_witness :
  AddHash 0 100%N ["P1"%string] (NewRequestManager chain100)
  = NewRequestManager chain100
  ∧ AddHeader 0 (Header tip100) (NewRequestManager chain100)
    = Ok (NewRequestManager chain100)
  ∧ ∃ rm' l,
      AddBlock root_sum 0 tip100 (NewRequestManager chain100) = Ok rm'
      ∧ pendingBlocksByParent rm' !! Parent (Header tip100) = Some l
      ∧ Exists (λ child, Hash (Header child) = Hash (Header tip100)) l
      ∧ passedDown rm' = passedDown (NewRequestManager chain100).
Proof.
  destruct (ingest_of_stored root_sum 0 (NewRequestManager chain100) 100%N
              lfb100) as (Hhash & Hheader & Hblock).
  - by_evaluation.
  - split_and!.
    + apply Hhash.
    + apply Hheader. by_evaluation.
    + apply (Hblock tip100); by_evaluation.
Defined.

(** Block 101 is in the chain store, and [AddBlock] of it hands it to the
    chain store and to consensus once more. *)
Lemma AddBlock_of_stored_not_noop :
  FindBlock (chain (NewRequestManager chain101)) (hash_of b101)
    = Some (mkExtended b101 BlockStatusProcessed)
  ∧ AddBlock root_sum 0 b101 (NewRequestManager chain101)
    ≠ Ok (NewRequestManager chain101)
  ∧ ∃ rm', AddBlock root_sum 0 b101 (NewRequestManager chain101) = Ok rm'
           ∧ passedDown (NewRequestManager chain101) = []
           ∧ passedDown rm' = [b101].
Proof.
  split_and!.
  - by_evaluation.
  - by_evaluation.
  - exists (or_else (NewRequestManager chain101)
              (AddBlock root_sum 0 b101 (NewRequestManager chain101))).
    split_and!; by_evaluation.
Qed.

(** The resume path hands a block that the chain store holds to [AddBlock],
    which promotes it again. *)
Lemma resumePendingBlocks_promotes_stored :
  FindBlock chain_to_resume (hash_of b101)
    = Some (mkExtended b101 BlockStatusPending)
  ∧ ∃ rm', resumePendingBlocks root_sum 2 0 lfb100_with_child
             (NewRequestManager chain_to_resume) = Ok rm'
           ∧ passedDown rm' = [b101].
Proof.
  split; [by_evaluation|].
  exists (or_else (NewRequestManager chain_to_resume)
            (resumePendingBlocks root_sum 2 0 lfb100_with_child
               (NewRequestManager chain_to_resume))).
  split; by_evaluation.
Qed.

Lemma AddBlock_root_mismatch_witness :
  AddBlock root_sum 0 b101 rm_header101 = Ok rm_header101.
Proof.
  apply (AddBlock_root_mismatch root_sum 0 b101 rm_header101 0%nat
           (mkHeader 101%N 101 100%N 7%N)).
  - by_evaluation.
  - by_evaluation.
  - by_evaluation.
Defined.

(** C8, as the code has it: an advertisement that names a peer twice, for a
    hash that has no pending block yet, leaves the peer twice in the peer
    list, because the new pending block takes the list as it is.  For a hash
    that has a pending block the loop of [addHash] adds the peer once. *)
Theorem AddHash_keeps_duplicates :
  pendingBlocksByHash (AddHash 0 103%N ["P1"; "P1"]%string
                         (NewRequestManager chain100)) !! 103%N = Some 0%nat
  ∧ peers (mem (AddHash 0 103%N ["P1"; "P1"]%string
                  (NewRequestManager chain100)) !!! 0%nat)
    = ["P1"; "P1"]%string
  ∧ ¬ NoDup (peers (mem (AddHash 0 103%N ["P1"; "P1"]%string
                           (NewRequestManager chain100)) !!! 0%nat))
  ∧ peers (mem (AddHash 1 103%N ["P1"; "P1"]%string
                  (AddHash 0 103%N [] (NewRequestManager chain100))) !!! 0%nat)
    = ["P1"]%string.
Proof.
  split_and!; [by_evaluation|by_evaluation| |by_evaluation].
  assert (peers (mem (AddHash 0 103%N ["P1"; "P1"]%string
                        (NewRequestManager chain100)) !!! 0%nat)
          = ["P1"; "P1"]%string) as -> by by_evaluation.
  intros [Hnin _]%NoDup_cons. apply Hnin. apply elem_of_cons. by left.
Qed.

(** ** Status and fields *)

Lemma rm_asked103_reachable : reachable root_sum Intn_first rm_asked103.
Proof.
  apply (reach_tick root_sum Intn_first second tip100 lfb100 rm_hash103).
  - apply reach_AddHash, reach_New.
  - by_evaluation.
Qed.

Lemma status_consistent_reachable_witness :
  (status (mem rm_asked103 !!! 0%nat) = RequestWaitingBodyResp →
   header (mem rm_asked103 !!! 0%nat) ≠ None
   ∧ block (mem rm_asked103 !!! 0%nat) = None)
  ∧ header (mem rm_asked103 !!! 0%nat) = None
  ∧ (status (mem rm_asked103 !!! 0%nat) = RequestToSendDataReq
     ∨ status (mem rm_asked103 !!! 0%nat) = RequestWaitingDataResp).
Proof.
  apply (status_consistent_reachable root_sum Intn_first rm_asked103).
  apply (reach_tick root_sum Intn_first second tip100 lfb100 rm_hash103).
  - apply reach_AddHash, reach_New.
  - by_evaluation.
Defined.

(** Peer P1 is asked for block 103 and answers: the pending block is
    waiting for data and has its body. *)
Lemma status_consistent_fails :
  reachable root_sum Intn_first rm_answered103
  ∧ ¬ status_consistent rm_answered103.
Proof.
  split.
  - apply (reach_AddBlock root_sum Intn_first (2 * second) b103 rm_asked103).
    + apply rm_asked103_reachable.
    + by_evaluation.
  - intros Hcons. destruct (Hcons 0%nat) as [Hdata _].
    + assert (pendingBlocks rm_answered103 = [0%nat]) as -> by by_evaluation.
      apply elem_of_cons. by left.
    + assert (status (mem rm_answered103 !!! 0%nat) = RequestWaitingDataResp)
        as Hst by by_evaluation.
      specialize (Hdata Hst). revert Hdata. by_evaluation.
Qed.

(** ** Promotion *)

Lemma promotion_of_chain_witness :
  (∃ rm', AddBlock root_sum second b101 rm_ready = Ok rm'
          ∧ promoted [b101; b102; b103] rm_ready rm')
  ∧ (∃ rm', dumpAllReadyBlocks (in_map_order rm_ready) rm_ready = Ok rm'
            ∧ promoted [b101; b102; b103] rm_ready rm')
  ∧ (∃ rm', AddBlock root_sum second b101 rm_not_ready = Ok rm'
            ∧ promoted [b101; b102; b103] rm_not_ready rm').
Proof.
  destruct (promotion_of_chain root_sum second (in_map_order rm_ready)
              rm_ready b101 [b102; b103] lfb100) as [Hadd Hall].
  - by_decision.
  - simpl. split_and!; [by_decision|by_decision|done].
  - by_decision.
  - by_decision.
  - by_evaluation.
  - destruct (promotion_of_chain root_sum second (in_map_order rm_not_ready)
                rm_not_ready b101 [b102; b103]
                (mkExtended tip100 BlockStatusPending)) as [Hadd' _].
    + by_decision.
    + simpl. split_and!; [by_decision|by_decision|done].
    + by_decision.
    + by_decision.
    + by_evaluation.
    + split_and!.
      * apply Hadd. by_evaluation.
      * apply Hall.
        -- by_evaluation.
        -- unfold range_of, in_map_order. reflexivity.
        -- exists 2%nat. split; by_evaluation.
        -- by_decision.
        -- by_decision.
      * apply Hadd'. by_evaluation.
Defined.

(** The parent of block 101 is in the chain store, marked [Pending]: the
    sweep promotes nothing. *)
Lemma dumpAllReadyBlocks_pending_parent :
  chain_parked (pendingBlocksByParent rm_not_ready) [b101; b102; b103]
  ∧ FindBlock (chain rm_not_ready) (Parent (Header b101))
    = Some (mkExtended tip100 BlockStatusPending)
  ∧ range_of rm_not_ready (in_map_order rm_not_ready)
  ∧ dumpAllReadyBlocks (in_map_order rm_not_ready) rm_not_ready
    = Ok rm_not_ready
  ∧ FindBlock (chain rm_not_ready) (hash_of b101) = None.
Proof.
  split_and!.
  - simpl. split_and!; [by_decision|by_decision|done].
  - by_evaluation.
  - unfold range_of, in_map_order. reflexivity.
  - by_evaluation.
  - by_evaluation.
Qed.

(** Promotion never takes the first block of the chain out of the list it
    is parked in: block 101 stays under [byParent] of block 100. *)
Lemma promotion_leaves_root_parked :
  ∃ rm', dumpAllReadyBlocks (in_map_order rm_ready) rm_ready = Ok rm'
         ∧ pendingBlocksByHash rm' !! hash_of b101 = None
         ∧ pendingBlocksByParent rm' !! Parent (Header b101) = Some [b101].
Proof.
  exists (or_else rm_ready
            (dumpAllReadyBlocks (in_map_order rm_ready) rm_ready)).
  split_and!; by_evaluation.
Qed.

(** Where the sweep falls short of promoting a chain whose root parent is
    stored, and of removing the promoted blocks from [byParent]: with the
    stored parent marked [Pending] it promotes nothing; and when it does
    promote, the first block of the chain stays in the list that
    [byParent] holds for its own parent. *)
Lemma promotion_falls_short :
  (chain_parked (pendingBlocksByParent rm_not_ready) [b101; b102; b103]
   ∧ FindBlock (chain rm_not_ready) (Parent (Header b101))
     = Some (mkExtended tip100 BlockStatusPending)
   ∧ range_of rm_not_ready (in_map_order rm_not_ready)
   ∧ dumpAllReadyBlocks (in_map_order rm_not_ready) rm_not_ready
     = Ok rm_not_ready
   ∧ FindBlock (chain rm_not_ready) (hash_of b101) = None)
  ∧ (∃ rm', dumpAllReadyBlocks (in_map_order rm_ready) rm_ready = Ok rm'
            ∧ pendingBlocksByHash rm' !! hash_of b101 = None
            ∧ pendingBlocksByParent rm' !! Parent (Header b101) = Some [b101]).
Proof.
  split; [apply dumpAllReadyBlocks_pending_parent|].
  apply promotion_leaves_root_parked.
Qed.

(** ** Scenarios of the specification *)

(** Retry on timeout: one request at 1 s, none at 2 s, one more at 12 s. *)
Lemma scenario_retry_on_timeout :
  dataCalls rm_asked103 = [{| dc_peer := "P1"; dc_entry := 103%N |}]
  ∧ dataCalls rm_waiting103 = dataCalls rm_asked103
  ∧ dataCalls rm_retried103
    = [{| dc_peer := "P1"; dc_entry := 103%N |};
       {| dc_peer := "P1"; dc_entry := 103%N |}].
Proof. split_and!; by_evaluation. Qed.

(** Expiration: 301 s after the advertisement the block is gone from the
    list and from [byHash], and an inventory request has gone out. *)
Lemma scenario_expiration :
  pendingBlocks rm_expired103 = []
  ∧ pendingBlocksByHash rm_expired103 !! 103%N = None
  ∧ dataCalls rm_expired103 = dataCalls rm_retried103
  ∧ last (inventoryCalls rm_expired103) = Some [100%N].
Proof. split_and!; by_evaluation. Qed.

(** Peer diversification: a second advertisement adds its peers. *)
Lemma scenario_peer_diversification :
  peers (mem (AddHash second 103%N ["P2"; "P3"]%string rm_hash103) !!! 0%nat)
  = ["P1"; "P2"; "P3"]%string.
Proof. by_evaluation. Qed.

(** * Instances of the further properties *)

Lemma downloadBlockFromHash_requests_witness :
  dataCalls (downloadBlockFromHash Intn_first second 100 rm_hash103)
  = dataCalls rm_hash103
    ++ ((λ el, request_of Intn_first (mem rm_hash103 !!! el))
        <$> take (Z.to_nat 100)
              (filter (λ el, due_by_hash second (mem rm_hash103 !!! el))
                 (pendingBlocks rm_hash103)))
  ∧ dataCalls (downloadBlockFromHash Intn_first second 100 rm_hash103)
    = [{| dc_peer := "P1"%string; dc_entry := 103%N |}].
Proof.
  split; [|by_evaluation].
  apply (downloadBlockFromHash_requests Intn_first second 100 rm_hash103);
    [by_decision|lia].
Defined.

Lemma downloadBlockFromHeader_heap_witness :
  pendingBlocksWithHeader rm_body_asked101
    ⊆+ pendingBlocksWithHeader rm_header101
  ∧ pendingBlocks rm_body_asked101 = pendingBlocks rm_header101.
Proof.
  pose proof (downloadBlockFromHeader_heap Intn_first second 100
                rm_header101 rm_body_asked101) as Hheap.
  destruct Hheap as (Hsub & _ & _ & Hlist & _); [by_evaluation|].
  by split.
Defined.

Lemma tryToDownload_inventory_witness :
  (inventoryCalls rm_inventory103 = inventoryCalls rm_hash103
   ∧ lastInventoryRequest rm_inventory103 = lastInventoryRequest rm_hash103
   ∧ 4 * second - lastInventoryRequest rm_hash103 < MaxInventoryRequestInterval
   ∧ (hasUndownloadedBlocks rm_hash103 = false
      ∨ 4 * second - lastInventoryRequest rm_hash103
        < MinInventoryRequestInterval))
  ∨ (∃ front,
       inventoryCalls rm_inventory103
       = inventoryCalls rm_hash103 ++ [front ++ [Hash (Header (EBlock lfb100))]]
       ∧ lastInventoryRequest rm_inventory103 = 4 * second
       ∧ MinInventoryRequestInterval
         ≤ 4 * second - lastInventoryRequest rm_hash103
       ∧ (hasUndownloadedBlocks rm_hash103 = true
          ∨ MaxInventoryRequestInterval
            ≤ 4 * second - lastInventoryRequest rm_hash103)).
Proof.
  apply (tryToDownload_inventory Intn_first (4 * second) tip100 lfb100
           rm_hash103 rm_inventory103).
  by_evaluation.
Defined.

Lemma tick_effects_witness :
  chain rm_asked103 = chain rm_hash103
  ∧ handedToChain rm_asked103 = handedToChain rm_hash103
  ∧ passedDown rm_asked103 = passedDown rm_hash103
  ∧ quota rm_asked103 = RequestQuotaPerSecond
  ∧ (∀ el, same_block (mem rm_hash103 !!! el) (mem rm_asked103 !!! el))
  ∧ pendingBlocks rm_asked103 `sublist_of` pendingBlocks rm_hash103
  ∧ pendingBlocksWithHeader rm_asked103 ⊆+ pendingBlocksWithHeader rm_hash103
  ∧ Z.of_nat (length (dataCalls rm_asked103))
    ≤ Z.of_nat (length (dataCalls rm_hash103)) + 2 * RequestQuotaPerSecond.
Proof.
  apply (tick_effects Intn_first second tip100 lfb100 rm_hash103 rm_asked103).
  by_evaluation.
Defined.

Lemma buildInventoryRequest_heights_witness :
  ∃ heights,
    buildInventoryRequest chain101 b101 lfb100
    = Ok (((λ b, Hash (Header (EBlock b)))
           <$> concat (FindBlocksByHeight chain101 <$> heights))
          ++ [Hash (Header (EBlock lfb100))])
    ∧ Forall (λ h, height_of lfb100 < h ≤ Height (Header b101)) heights
    ∧ StronglySorted (λ a b, b < a) heights
    ∧ ∀ h, height_of lfb100 < h ≤ Height (Header b101) →
           Height (Header b101) - h < 10 → h ∈ heights.
Proof.
  apply (buildInventoryRequest_heights chain101 b101 lfb100);
    [by_evaluation|simpl; lia].
Defined.

Lemma AddBlock_orphan_again_witness :
  ∃ rm',
    AddBlock root_sum (2 * second) b103 rm_asked103 = Ok rm'
    ∧ AddBlock root_sum (3 * second) b103 rm' = Ok rm'
    ∧ same_collaborators rm_asked103 rm'.
Proof.
  apply (AddBlock_orphan_again root_sum (2 * second) (3 * second) b103
           rm_asked103).
  by_evaluation.
Defined.

Lemma dumpAllReadyBlocks_nothing_ready_witness :
  dumpAllReadyBlocks (in_map_order rm_not_ready) rm_not_ready = Ok rm_not_ready.
Proof.
  apply (dumpAllReadyBlocks_nothing_ready (in_map_order rm_not_ready)
           rm_not_ready).
  intros el b eb Hel Hb Hp.
  assert (el ∈ [2%nat; 1%nat; 0%nat]) as Hcases.
  { revert Hel. assert (in_map_order rm_not_ready ≡ₚ [2%nat; 1%nat; 0%nat])
      as -> by by_decision. done. }
  repeat (apply elem_of_cons in Hcases as [->|Hcases]);
    [..|by apply not_elem_of_nil in Hcases];
    vm_compute in Hb; injection Hb as <-;
    vm_compute in Hp; try discriminate; by injection Hp as <-.
Defined.

Lemma resumePendingBlocks_walk_witness :
  (Forall (λ h, ∃ eb, FindBlock (chain (NewRequestManager chain100)) h = Some eb
                      ∧ IsPending (Status eb) = false
                      ∧ Children eb = []) (Children lfb100_with_child) →
   resumePendingBlocks root_sum 2 0 lfb100_with_child (NewRequestManager chain100)
   = Ok (NewRequestManager chain100))
  ∧ (Exists (λ h, FindBlock (chain (NewRequestManager chain100)) h = None)
       (Children lfb100_with_child) →
     resumePendingBlocks root_sum 2 0 lfb100_with_child
       (NewRequestManager chain100) = Panic).
Proof.
  apply (resumePendingBlocks_walk root_sum 2 0 lfb100_with_child
           (NewRequestManager chain100)); [by_evaluation|simpl; lia].
Defined.

Lemma reachable_index_witness :
  index_ok rm_asked103
  ∧ size (pendingBlocksByHash rm_asked103) = length (pendingBlocks rm_asked103)
  ∧ ∀ pendings, range_of rm_asked103 pendings
                ↔ pendings ≡ₚ pendingBlocks rm_asked103.
Proof.
  apply (reachable_index root_sum Intn_first rm_asked103).
  apply (reach_tick root_sum Intn_first second tip100 lfb100 rm_hash103).
  - apply reach_AddHash, reach_New.
  - by_evaluation.
Defined.

Lemma reachable_byParent_witness :
  byParent_ok (pendingBlocksByParent rm_orphans)
  ∧ (size (pendingBlocksByParent rm_orphans)
     ≤ parked (pendingBlocksByParent rm_orphans))%nat.
Proof.
  apply (reachable_byParent root_sum Intn_first rm_orphans).
  apply (reach_AddBlock root_sum Intn_first 0 b101 rm_orphan102);
    [|by_evaluation].
  apply (reach_AddBlock root_sum Intn_first 0 b102 rm_orphan103);
    [|by_evaluation].
  apply (reach_AddBlock root_sum Intn_first 0 b103 (NewRequestManager ∅));
    [|by_evaluation].
  apply reach_New.
Defined.

Lemma tick_reachable_witness :
  ∃ rm',
    tick Intn_first (12 * second) tip100 lfb100 rm_asked103 = Ok rm'
    ∧ dataCalls rm'
      = dataCalls rm_asked103
        ++ ((λ el, request_of Intn_first (mem rm_asked103 !!! el))
            <$> take (Z.to_nat RequestQuotaPerSecond)
                  (filter (λ el, due_by_hash (12 * second)
                                   (mem rm_asked103 !!! el))
                     (pendingBlocks rm_asked103)))
    ∧ Z.of_nat (length (dataCalls rm'))
      ≤ Z.of_nat (length (dataCalls rm_asked103)) + RequestQuotaPerSecond
    ∧ pendingBlocksWithHeader rm' = [].
Proof.
  apply (tick_reachable root_sum Intn_first (12 * second) tip100 lfb100
           rm_asked103); [|simpl; lia].
  apply (reach_tick root_sum Intn_first second tip100 lfb100 rm_hash103).
  - apply reach_AddHash, reach_New.
  - by_evaluation.
Defined.

Lemma tick_idle_witness :
  tick Intn_first second tip100 lfb100 (NewRequestManager chain100)
  = Ok (with_quota RequestQuotaPerSecond (NewRequestManager chain100)).
Proof.
  apply (tick_idle Intn_first second tip100 lfb100 (NewRequestManager chain100));
    [reflexivity|reflexivity|reflexivity|reflexivity|].
  unfold MaxInventoryRequestInterval, second. simpl. lia.
Defined.

Lemma AddBlock_removeEl_round_trip_witness :
  ∃ rm1,
    AddBlock root_sum second b102 rm_hash103 = Ok rm1
    ∧ pendingBlocksByHash rm1 !! Hash (Header b102)
      = Some (new_loc (mem rm_hash103))
    ∧ block (mem rm1 !!! new_loc (mem rm_hash103)) = Some b102
    ∧ parked_under (pendingBlocksByParent rm1) (Parent (Header b102)) b102
    ∧ pendingBlocks (removeEl (new_loc (mem rm_hash103)) rm1)
      = pendingBlocks rm_hash103
    ∧ pendingBlocksByHash (removeEl (new_loc (mem rm_hash103)) rm1)
      = pendingBlocksByHash rm_hash103
    ∧ pendingBlocksByParent (removeEl (new_loc (mem rm_hash103)) rm1)
      = pendingBlocksByParent rm_hash103.
Proof.
  apply (AddBlock_removeEl_round_trip root_sum second b102 rm_hash103).
  - unfold rm_hash103, AddHash. apply addHash_index, index_ok_New.
  - by_decision.
  - by_evaluation.
  - by_evaluation.
  - by_evaluation.
  - by_decision.
Defined.


(** The run of the retry scenario: block 103 is advertised, and ticks follow
    at 1 s, 2 s and 12 s; the first and the third ask for it. *)
Lemma retry_waits_for_timeout_witness :
  (∃ calls,
     dataCalls rm_retried103 = dataCalls rm_hash103 ++ calls
     ∧ dc_entry <$> calls
       = (λ a, hash (mem rm_retried103 !!! a.2))
         <$> [(second, 0%nat); (12 * second, 0%nat)])
  ∧ ∀ i t el t0,
      [(second, 0%nat); (12 * second, 0%nat)] !! i = Some (t, el) →
      last_ask el (take i [(second, 0%nat); (12 * second, 0%nat)]) = Some t0 →
      RequestTimeout < t - t0.
Proof.
  apply (retry_waits_for_timeout root_sum Intn_first rm_hash103
           [(second, 0%nat); (12 * second, 0%nat)] rm_retried103).
  - apply reach_AddHash, reach_New.
  - assert ([(second, 0%nat); (12 * second, 0%nat)]
            = (([] ++ ((λ el, (second, el))
                       <$> requested second RequestQuotaPerSecond rm_hash103))
               ++ ((λ el, (2 * second, el))
                   <$> requested (2 * second) RequestQuotaPerSecond rm_asked103))
              ++ ((λ el, (12 * second, el))
                  <$> requested (12 * second) RequestQuotaPerSecond
                        rm_waiting103)) as -> by by_evaluation.
    apply (runs_tick root_sum Intn_first rm_hash103 (12 * second) tip100 lfb100
             _ rm_waiting103 rm_retried103); [|by_evaluation].
    apply (runs_tick root_sum Intn_first rm_hash103 (2 * second) tip100 lfb100
             _ rm_asked103 rm_waiting103); [|by_evaluation].
    apply (runs_tick root_sum Intn_first rm_hash103 second tip100 lfb100
             _ rm_hash103 rm_asked103); [|by_evaluation].
    apply runs_start.
Defined.

Lemma downloadBlockFromHash_retry_witness :
  (∃ c, c ∈ drop (length (dataCalls rm_waiting103))
              (dataCalls (downloadBlockFromHash Intn_first (12 * second) 100
                            rm_waiting103))
        ∧ dc_entry c = hash (mem rm_waiting103 !!! 0%nat)
        ∧ dc_peer c ∈ peers (mem rm_waiting103 !!! 0%nat))
  ∧ mem (downloadBlockFromHash Intn_first (12 * second) 100 rm_waiting103)
      !!! 0%nat
    = asked (12 * second) RequestWaitingDataResp (mem rm_waiting103 !!! 0%nat).
Proof.
  apply (downloadBlockFromHash_retry Intn_first (12 * second) 100
           rm_waiting103 0%nat).
  - by_decision.
  - by_evaluation.
  - by_decision.
  - by_evaluation.
  - by_evaluation.
  - by_evaluation.
  - by_evaluation.
  - by_evaluation.
Defined.

Lemma AddBlock_orphan_keeps_requests_witness :
  ∃ rm',
    AddBlock root_sum (2 * second) b103 rm_asked103 = Ok rm'
    ∧ requested (12 * second) 100 rm' = requested (12 * second) 100 rm_asked103
    ∧ (∀ el, el ∈ requested (12 * second) 100 rm_asked103 →
         hash (mem rm' !!! el) = hash (mem rm_asked103 !!! el)
         ∧ peers (mem rm' !!! el) = peers (mem rm_asked103 !!! el))
    ∧ dataCalls (downloadBlockFromHash Intn_first (12 * second) 100 rm')
      = dataCalls rm_asked103
        ++ ((λ el, request_of Intn_first (mem rm' !!! el))
            <$> requested (12 * second) 100 rm_asked103).
Proof.
  apply (AddBlock_orphan_keeps_requests root_sum Intn_first (2 * second)
           (12 * second) 100 b103 rm_asked103).
  - apply (reachable_index_ok root_sum Intn_first), rm_asked103_reachable.
  - lia.
  - by_evaluation.
Defined.

(** P2 and P3 advertise block 103, which P1 has advertised, with a slice
    of their own. *)
Lemma addHash_slices_own_witness :
  ∃ ps',
    addHash_slices growslice_double second 103%N peers_P2_P3
      (rm_hash103, ps_hash103)
    = (addHash second 103%N ["P2"; "P3"]%string rm_hash103, ps')
    ∧ slices_ok (addHash second 103%N ["P2"; "P3"]%string rm_hash103) ps'
    ∧ peers (mem (addHash second 103%N ["P2"; "P3"]%string rm_hash103) !!! 0%nat)
      = ["P1"; "P2"; "P3"]%string.
Proof.
  destruct (addHash_slices_own growslice_double second 103%N peers_P2_P3
              rm_hash103 ps_hash103) as (ps' & Hrun & Hok & _).
  - unfold rm_hash103, AddHash. apply addHash_index, index_ok_New.
  - by_decision.
  - by_decision.
  - exists ps'. split_and!; [exact Hrun|exact Hok|by_evaluation].
Defined.

(** Blocks 201 and 202 were advertised with one slice with room left, and
    P2 has advertised 201 since: the peers of 201 are P1 and P2.  Now P3
    advertises 202, and the peers of 201 are P1 and P3. *)
Lemma addHash_slices_shared_witness :
  peers (mem st_shared.1 !!! 0%nat) = ["P1"; "P2"]%string
  ∧ peers (mem (addHash_slices growslice_double second 202%N peers_P3
                  (st_shared.1, st_shared.2)).1 !!! 0%nat) !! 1%nat
    = Some "P3"%string
  ∧ peers (mem (addHash_slices growslice_double second 202%N peers_P3
                  (st_shared.1, st_shared.2)).1 !!! 0%nat)
    = ["P1"; "P3"]%string.
Proof.
  split_and!; [by_evaluation| |by_evaluation].
  apply (addHash_slices_shared growslice_double second 202%N peers_P3
           st_shared.1 st_shared.2 0%nat 1%nat
           {| s_array := 0; s_offset := 0; s_len := 2; s_cap := 4 |}
           peers_shared).
  - by_evaluation.
  - by_evaluation.
  - by_evaluation.
  - by_decision.
  - by_evaluation.
  - by_evaluation.
  - by_decision.
  - by_decision.
  - reflexivity.
  - reflexivity.
  - simpl. lia.
  - simpl. lia.
  - by_decision.
  - reflexivity.
  - by_decision.
Defined.
